(** * The Lucas asset-pricing solver of [Lucas-Asset-Pricing-Model.ipynb]

    A shallow embedding of the classes [DivProcess] and [LucasEconomy]
    (cell "Definitions" of the notebook) and the properties of the
    fixed-point solver [LucasEconomy.solve].

    The file of the notebook carries on with the cells of the notebook
    "Life Cycle Model: Theory vs Data"; its saving-rate function
    [savRteFunc] and its measures of asset and income growth are embedded
    after the solver.

    Numbers.  The notebook computes with IEEE doubles; here every float is
    a real number ([R]) and rounding is ignored.  Where numpy would carry
    on with [nan] or [inf] (division by zero, square root of a negative
    number, an interpolant evaluated outside its domain) the embedding
    stops with [Err NotFinite]: such runs are outside the model.

    Arrays.  A one-dimensional numpy array is a [list R]; a two-dimensional
    one is the list of its rows.  Elementwise binary operations check that
    the two shapes agree and stop with [Err ShapeError] otherwise; numpy's
    stretching of an axis of length one is not followed, and does not arise
    when the shock distribution has [nApprox] nodes, as [DivProcess.__init__]
    builds it. *)

From Stdlib Require Import String Reals Lra Lia ZArith Bool Psatz List.
Import ListNotations.
Open Scope R_scope.

(** ** Results of fallible computations *)

Inductive error : Type :=
| ShapeError   (* numpy: operands could not be broadcast together *)
| IndexError   (* index out of range *)
| AttributeError   (* an attribute read before it is assigned *)
| NotFinite    (* nan or inf where the model needs a real number *)
| OutOfFuel.   (* the loop model ran out of steps *)

Inductive result (A : Type) : Type :=
| Ok (a : A)
| Err (e : error).
Arguments Ok {A} a.
Arguments Err {A} e.

Definition bind {A B : Type} (m : result A) (k : A -> result B) : result B :=
  match m with
  | Ok a => k a
  | Err e => Err e
  end.

Notation "x <- m ;; k" := (bind m (fun x => k))
  (at level 61, m at next level, right associativity).

Fixpoint mapM {A B : Type} (f : A -> result B) (l : list A) : result (list B) :=
  match l with
  | [] => Ok []
  | a :: l' => b <- f a ;; bs <- mapM f l' ;; Ok (b :: bs)
  end.

Fixpoint zipM {A B C : Type} (f : A -> B -> result C)
         (a : list A) (b : list B) : result (list C) :=
  match a, b with
  | [], [] => Ok []
  | x :: a', y :: b' => z <- f x y ;; zs <- zipM f a' b' ;; Ok (z :: zs)
  | _, _ => Err ShapeError
  end.

Definition index {A : Type} (l : list A) (i : nat) : result A :=
  match nth_error l i with
  | Some a => Ok a
  | None => Err IndexError
  end.

(** ** Comparisons of reals as booleans *)

Definition Rgtb (a b : R) : bool := if Rgt_dec a b then true else false.
Definition Rltb (a b : R) : bool := if Rlt_dec a b then true else false.
Definition Rleb (a b : R) : bool := if Rle_dec a b then true else false.

(** ** The numpy operations the notebook uses *)

Definition vector := list R.
Definition matrix := list (list R).

Definition Rsum (v : vector) : R := fold_right Rplus 0 v.

(** [a / b] on floats: a zero divisor gives [nan] or [inf]. *)
Definition np_divide (a b : R) : result R :=
  if Req_dec_T b 0 then Err NotFinite else Ok (a / b).

(** [np.sqrt]: [nan] on a negative argument. *)
Definition np_sqrt (a : R) : result R :=
  if Rlt_dec a 0 then Err NotFinite else Ok (sqrt a).

Definition total2 (op : R -> R -> R) (a b : R) : result R := Ok (op a b).

(** An elementwise binary operation on two arrays of the same shape. *)
Definition vec_op (op : R -> R -> result R)
  : vector -> vector -> result vector :=
  zipM op.
Definition mat_op (op : R -> R -> result R)
  : matrix -> matrix -> result matrix :=
  zipM (vec_op op).

Definition mat_map (f : R -> R) (m : matrix) : matrix := map (map f) m.

(** [np.tile(np.reshape(v, (len(v), 1)), (1, reps))]: row [i] is [reps]
    copies of [v[i]]. *)
Definition tile_columns (v : vector) (reps : nat) : matrix :=
  map (fun x => repeat x reps) v.

(** [np.tile(v, (reps, 1))]: [reps] rows, each a copy of [v]. *)
Definition tile_rows (v : vector) (reps : nat) : matrix := repeat v reps.

(** [np.sum(m, axis = 1, keepdims = True).flatten()]: the sum of each row. *)
Definition sum_axis1 (m : matrix) : vector := map Rsum m.

(** [np.linalg.norm] of a one-dimensional array: the Euclidean norm. *)
Definition np_linalg_norm (v : vector) : R := sqrt (Rsum (map Rsqr v)).

(** [np.linspace(start, stop, num)]: [num] points from [start] to [stop],
    both included, with step [(stop - start) / (num - 1)]. *)
Definition np_linspace (start stop : R) (num : nat) : vector :=
  match num with
  | O => []
  | S O => [start]
  | _ => map (fun i => start + INR i * ((stop - start) / INR (num - 1)))
             (seq 0 num)
  end.

(** [np.searchsorted(a, v)] on a sorted array: the first index whose entry
    is not below [v]. *)
Fixpoint np_searchsorted (a : vector) (v : R) : nat :=
  match a with
  | [] => O
  | h :: t => if Rlt_dec h v then S (np_searchsorted t v) else O
  end.

(** ** The parts of the HARK toolkit the notebook imports *)

(** Modelled from the spec: [HARK.utilities.CRRAutilityP], the marginal
    utility of constant-relative-risk-aversion preferences, [c ** -gam];
    the notebook only applies it to ratios of exponentials, which are
    positive. *)
Definition CRRAutilityP (c gam : R) : R := Rpower c (- gam).

(** Modelled from the spec: the result of [Normal(mu, sigma).approx(N)], a
    finite set of nodes [X] with probabilities [pmf]. *)
Record DiscreteDistribution : Type := {
  X : vector;
  pmf : vector
}.

(** Modelled from the spec: the interpolation objects of
    [HARK.interpolation] that the notebook builds, [ConstantFunction(value)]
    and [LinearInterp(x_list, y_list, lower_extrap)]; [Callable] stands for
    any other function a caller passes as a guess, which gives a number or
    none. *)
Inductive Pfunc : Type :=
| ConstantFunction (value : R)
| LinearInterp (x_list y_list : vector) (lower_extrap : bool)
| Callable (f : R -> option R).

(** Modelled from the spec: evaluation of a [LinearInterp].  The segment is
    chosen by [i = max(searchsorted(x_list[:-1], x), 1)] and the value is
    the line through the points [i - 1] and [i], which extrapolates the
    last segment above the grid and the first one below it; below the
    grid's lower bound the value is only given when [lower_extrap] is set,
    and is out of the domain otherwise. *)
Definition LinearInterp_eval (x_list y_list : vector) (lower_extrap : bool)
           (x : R) : result R :=
  let i := Nat.max (np_searchsorted (removelast x_list) x) 1 in
  x_lo <- index x_list (i - 1) ;;
  x_hi <- index x_list i ;;
  y_lo <- index y_list (i - 1) ;;
  y_hi <- index y_list i ;;
  alpha <- np_divide (x - x_lo) (x_hi - x_lo) ;;
  let y := (1 - alpha) * y_lo + alpha * y_hi in
  x_min <- index x_list 0 ;;
  if negb lower_extrap && Rltb x x_min then Err NotFinite else Ok y.

(** Calling a pricing function at a point, on an array, on a 2-d array. *)
Definition call (f : Pfunc) (x : R) : result R :=
  match f with
  | ConstantFunction value => Ok value
  | LinearInterp x_list y_list lower_extrap =>
      LinearInterp_eval x_list y_list lower_extrap x
  | Callable g => match g x with
                  | Some v => Ok v
                  | None => Err NotFinite
                  end
  end.

Definition call_vec (f : Pfunc) (v : vector) : result vector :=
  mapM (call f) v.
Definition call_mat (f : Pfunc) (m : matrix) : result matrix :=
  mapM (call_vec f) m.

(** ** class DivProcess *)

Record DivProcess : Type := {
  alpha : R;
  shock_sd : R;
  shock_mean : R;
  nApprox : nat;
  ShkAppDstn : DiscreteDistribution
}.

Section Toolkit.

(** The discretizer [Normal(mu, sigma).approx(N)] of the toolkit. *)
Variable Normal_approx : R -> R -> nat -> result DiscreteDistribution.

(** [DivProcess.__init__(alpha, shock_sd, shock_mean = 0.0, nApprox = 7)] *)
Definition DivProcess_init (alpha shock_sd : R) (shock_mean : option R)
           (nApprox : option nat) : result DivProcess :=
  let shock_mean := match shock_mean with Some m => m | None => 0 end in
  let nApprox := match nApprox with Some n => n | None => 7%nat end in
  dstn <- Normal_approx shock_mean shock_sd nApprox ;;
  Ok {| alpha := alpha; shock_sd := shock_sd; shock_mean := shock_mean;
        nApprox := nApprox; ShkAppDstn := dstn |}.

End Toolkit.

(** [DivProcess.getLogdGrid(n = 100)] *)
Definition getLogdGrid (self : DivProcess) (n : nat) : result vector :=
  root <- np_sqrt (1 - alpha self ^ 2) ;;
  uncond_sd <- np_divide (shock_sd self) root ;;
  uncond_mean <- np_divide (shock_mean self) (1 - alpha self) ;;
  let logDGrid :=
    map (fun x => x + uncond_mean)
        (np_linspace (-5 * uncond_sd) (5 * uncond_sd) n) in
  Ok logDGrid.

(** ** class LucasEconomy *)

(** The attribute [EqlogPfun] only exists once [solve] has run. *)
Record LucasEconomy : Type := {
  CRRA : R;
  DiscFac : R;
  DivProc : DivProcess;
  EqlogPfun : option Pfunc
}.

(** [LucasEconomy.__init__(CRRA, DiscFac, DivProcess)] *)
Definition LucasEconomy_init (CRRA DiscFac : R) (DivProcess : DivProcess)
  : LucasEconomy :=
  {| CRRA := CRRA; DiscFac := DiscFac; DivProc := DivProcess;
     EqlogPfun := None |}.

(** [self.uP = lambda c: CRRAutilityP(c, self.CRRA)] *)
Definition uP (self : LucasEconomy) (c : R) : R := CRRAutilityP c (CRRA self).

(** [self.EqPfun = lambda d: self.EqlogPfun(np.log(d))]; the logarithm of a
    non-positive number is not a real. *)
Definition EqPfun (self : LucasEconomy) (d : R) : result R :=
  match EqlogPfun self with
  | Some f => if Rlt_dec 0 d then call f (ln d) else Err NotFinite
  | None => Err AttributeError
  end.

(** [LucasEconomy.priceOnePeriod(Pfunc_next, logDGrid)] *)
Definition priceOnePeriod (self : LucasEconomy) (Pfunc_next : Pfunc)
           (logDGrid : vector) : result Pfunc :=
  let dGrid_N := length logDGrid in
  let shock_N := nApprox (DivProc self) in
  (* Today's dividends *)
  let logD_now := tile_columns logDGrid shock_N in
  let d_now := mat_map exp logD_now in
  (* Tomorrow's dividends *)
  let Shk_next := tile_rows (X (ShkAppDstn (DivProc self))) dGrid_N in
  let Shk_next_pmf := tile_rows (pmf (ShkAppDstn (DivProc self))) dGrid_N in
  logD_next <- mat_op (total2 Rplus)
                 (mat_map (Rmult (alpha (DivProc self))) logD_now) Shk_next ;;
  let d_next := mat_map exp logD_next in
  (* Tomorrow's prices *)
  P_next <- call_mat Pfunc_next logD_next ;;
  (* The RHS of the pricing equation, pre-expectation *)
  ratio <- mat_op np_divide d_next d_now ;;
  let SDF := mat_map (Rmult (DiscFac self)) (mat_map (uP self) ratio) in
  Payoff_next <- mat_op (total2 Rplus) P_next d_next ;;
  (* Take expectation and discount *)
  weighted <- mat_op (total2 Rmult) SDF Payoff_next ;;
  summand <- mat_op (total2 Rmult) weighted Shk_next_pmf ;;
  let P_now := sum_axis1 summand in
  (* Create new interpolating price function *)
  let Pfunc_now := LinearInterp logDGrid P_now true in
  Ok Pfunc_now.

(** What [solve] prints when [disp] is set. *)
Inductive line : Type :=
| IterLine (it : Z) (norm : R)
    (* 'Iter:' + str(it) + '   Norm = ' + str(norm) *)
| Text (s : string).

(** The local variables of [solve] that the loop updates, and the output. *)
Record LoopState : Type := {
  Pf_0 : Pfunc;
  P_0 : vector;
  norm : R;
  it : Z;
  stdout : list line
}.

(** One pass through the body of the [while] loop. *)
Definition solve_body (self : LucasEconomy) (logDGrid : vector) (disp : bool)
           (st : LoopState) : result LoopState :=
  (* Apply the pricing equation *)
  Pf_next <- priceOnePeriod self (Pf_0 st) logDGrid ;;
  (* Find new prices on the grid *)
  P_next <- call_vec Pf_next logDGrid ;;
  (* Measure the change between price vectors *)
  diff <- vec_op (total2 Rminus) (P_0 st) P_next ;;
  let norm := np_linalg_norm diff in
  (* Update price function and vector *)
  let it := (it st + 1)%Z in
  Ok {| Pf_0 := Pf_next; P_0 := P_next; norm := norm; it := it;
        stdout := if disp then stdout st ++ [IterLine it norm]
                  else stdout st |}.

(** [while norm > tol and it < maxIter: ...] *)
Fixpoint solve_while (fuel : nat) (self : LucasEconomy) (logDGrid : vector)
         (tol : R) (maxIter : Z) (disp : bool) (st : LoopState)
  : result LoopState :=
  if Rgtb (norm st) tol && (it st <? maxIter)%Z then
    match fuel with
    | O => Err OutOfFuel
    | S fuel' =>
        st' <- solve_body self logDGrid disp st ;;
        solve_while fuel' self logDGrid tol maxIter disp st'
    end
  else Ok st.

(** The grid [solve] works on: the one passed, or [getLogdGrid()]. *)
Definition solve_grid (self : LucasEconomy) (logDGrid : option vector)
  : result vector :=
  match logDGrid with
  | Some g => Ok g
  | None => getLogdGrid (DivProc self) 100
  end.

(** The guess [solve] starts from: the one passed, or
    [ConstantFunction(0.0)]. *)
Definition solve_guess (Pfunc_0 : option Pfunc) : Pfunc :=
  match Pfunc_0 with
  | Some f => f
  | None => ConstantFunction 0
  end.

(** [solve] up to the end of the loop: the local variables at that point. *)
Definition solve_loop (self : LucasEconomy) (Pfunc_0 : option Pfunc)
           (logDGrid : option vector) (tol : R) (maxIter : Z) (disp : bool)
  : result LoopState :=
  (* Initialize the norm *)
  let norm := tol + 1 in
  let Pfunc_0 := solve_guess Pfunc_0 in
  logDGrid <- solve_grid self logDGrid ;;
  (* Initialize function and compute prices on the grid;
     [copy(Pfunc_0)] is the same value *)
  let Pf_0 := Pfunc_0 in
  P_0 <- call_vec Pf_0 logDGrid ;;
  solve_while (Z.to_nat maxIter) self logDGrid tol maxIter disp
    {| Pf_0 := Pf_0; P_0 := P_0; norm := norm; it := 0; stdout := [] |}.

(** What a call of [solve] leaves behind: its return value (always
    [None]), the economy with [EqlogPfun] assigned, and what it printed. *)
Record SolveOutcome : Type := {
  returned : unit;
  economy : LucasEconomy;
  printed : list line
}.

(** [LucasEconomy.solve(Pfunc_0 = None, logDGrid = None, tol = 1e-5,
    maxIter = 500, disp = False)] *)
Definition solve (self : LucasEconomy) (Pfunc_0 : option Pfunc)
           (logDGrid : option vector) (tol : R) (maxIter : Z) (disp : bool)
  : result SolveOutcome :=
  st <- solve_loop self Pfunc_0 logDGrid tol maxIter disp ;;
  let out :=
    if disp then
      if Rleb (norm st) tol
      then stdout st ++ [Text "Price function converged!"]
      else stdout st ++ [Text "Maximum iterations exceeded!"]
    else stdout st in
  Ok {| returned := tt;
        economy := {| CRRA := CRRA self; DiscFac := DiscFac self;
                      DivProc := DivProc self;
                      EqlogPfun := Some (Pf_0 st) |};
        printed := out |}.

Definition default_tol : R := 1 / 100000.
Definition default_maxIter : Z := 500.

(** ** Notions the properties are stated with *)

(** The right-hand side of the pricing equation as the specification words
    it: the discount factor times the expectation, over the shock support,
    of the marginal-utility ratio times next period's price plus
    dividend. *)
Definition pricing_rhs (self : LucasEconomy) (f : R -> R) (x : R) : R :=
  let a := alpha (DivProc self) in
  DiscFac self *
  Rsum (map (fun sp : R * R =>
               let (s, p) := sp in
               p * uP self (exp (a * x + s) / exp x)
                 * (f (a * x + s) + exp (a * x + s)))
            (combine (X (ShkAppDstn (DivProc self)))
                     (pmf (ShkAppDstn (DivProc self))))).

(** The discretized shock has [nApprox] nodes and as many probabilities,
    as [DivProcess.__init__] builds it. *)
Definition shocks_aligned (dp : DivProcess) : Prop :=
  length (X (ShkAppDstn dp)) = nApprox dp /\
  length (pmf (ShkAppDstn dp)) = nApprox dp.

(** A grid whose points strictly increase. *)
Fixpoint increasing (l : vector) : Prop :=
  match l with
  | [] => True
  | x :: t => match t with
              | [] => True
              | y :: _ => x < y /\ increasing t
              end
  end.

(** The segment [LinearInterp_eval] picks for [x]. *)
Definition segment (x_list : vector) (x : R) : nat :=
  Nat.max (np_searchsorted (removelast x_list) x) 1.

(** The line through the first two points of an interpolant. *)
Definition first_segment (x_list y_list : vector) (x : R) : R :=
  let x0 := nth 0 x_list 0 in
  let x1 := nth 1 x_list 0 in
  let y0 := nth 0 y_list 0 in
  let y1 := nth 1 y_list 0 in
  y0 + (x - x0) * ((y1 - y0) / (x1 - x0)).

(** The local variables of [solve] on entering the loop. *)
Definition solve_init (Pfunc_0 : option Pfunc) (P_0 : vector) (tol : R)
  : LoopState :=
  {| Pf_0 := solve_guess Pfunc_0; P_0 := P_0; norm := tol + 1; it := 0;
     stdout := [] |}.

(** The local variables after [k] passes through the loop body. *)
Fixpoint iterate (k : nat) (self : LucasEconomy) (logDGrid : vector)
         (disp : bool) (st : LoopState) : result LoopState :=
  match k with
  | O => Ok st
  | S k' =>
      st' <- iterate k' self logDGrid disp st ;;
      solve_body self logDGrid disp st'
  end.

(** The closed-form price of the tree under log utility,
    [P*(d) = d / theta] with [theta = 1 / beta - 1]. *)
Definition closed_form_log (beta d : R) : R := d / (1 / beta - 1).

(** The two-dimensional array whose entry in row [x] (a grid point) and
    column [s] (a shock node) is [F x s]. *)
Definition tabulate (grid nodes : vector) (F : R -> R -> R) : matrix :=
  map (fun x => map (fun s => F x s) nodes) grid.

(** A computation that ends before the loop model runs out of steps. *)
Definition finishes {A : Type} (r : result A) : Prop :=
  match r with
  | Err OutOfFuel => False
  | _ => True
  end.

(** The number a pricing function gives at [x], where it gives one. *)
Definition value (f : Pfunc) (x : R) : R :=
  match call f x with
  | Ok v => v
  | Err _ => 0
  end.

(** The prices the operator computes from [f] at the points of a grid,
    and how it changes the prices [P] the loop held before. *)
Definition next_prices (self : LucasEconomy) (f : Pfunc) (logDGrid : vector)
  : vector :=
  map (pricing_rhs self (value f)) logDGrid.

Definition price_change (P P' : vector) : vector :=
  map (fun ab : R * R => fst ab - snd ab) (combine P P').

(** The state the loop body leaves when every operation succeeds. *)
Definition next_state (self : LucasEconomy) (logDGrid : vector) (disp : bool)
           (st : LoopState) : LoopState :=
  let P_next := next_prices self (Pf_0 st) logDGrid in
  let n := np_linalg_norm (price_change (P_0 st) P_next) in
  {| Pf_0 := LinearInterp logDGrid P_next true;
     P_0 := P_next;
     norm := n;
     it := it st + 1;
     stdout := if disp then stdout st ++ [IterLine (it st + 1) n]
               else stdout st |}.

(** A pricing function that gives a number at every point the operator
    asks for. *)
Definition defined_on_transitions (self : LucasEconomy) (f : Pfunc)
           (logDGrid : vector) : Prop :=
  forall x s, In x logDGrid -> In s (X (ShkAppDstn (DivProc self))) ->
    exists v, call f (alpha (DivProc self) * x + s) = Ok v.

(** *** Example economies *)

(** [DivProcess(alpha = 1.0, shock_sd = 0.1, nApprox = 1)]: one shock node
    at the mean, so that dividends stay where they are. *)
Definition steady_process : DivProcess :=
  {| alpha := 1; shock_sd := 1 / 10; shock_mean := 0; nApprox := 1;
     ShkAppDstn := {| X := [0]; pmf := [1] |} |}.

(** [LucasEconomy(CRRA = 1, DiscFac = beta, DivProcess = steady_process)] *)
Definition steady_economy (beta : R) : LucasEconomy :=
  LucasEconomy_init 1 beta steady_process.

(** The grid of the dividend levels 1 and 2. *)
Definition two_point_grid : vector := [0; ln 2].

(** What [solve] leaves on the steady economy when the cap allows no pass
    of the loop. *)
Definition steady_untouched (beta : R) : SolveOutcome :=
  {| returned := tt;
     economy := {| CRRA := 1; DiscFac := beta; DivProc := steady_process;
                   EqlogPfun := Some (ConstantFunction 0) |};
     printed := [] |}.

(** The price at the dividend level 1 after [n] passes of the loop on the
    steady economy, from the zero function. *)
Fixpoint steady_price (beta : R) (n : nat) : R :=
  match n with
  | O => 0
  | S m => beta * (steady_price beta m + 1)
  end.

(** The local variables of [solve] after [n] passes on the steady economy,
    from the zero function on [two_point_grid], without display. *)
Definition steady_state (beta tol : R) (n : nat) : LoopState :=
  match n with
  | O => solve_init None [0; 0] tol
  | S _ =>
      {| Pf_0 := LinearInterp two_point_grid
                   [steady_price beta n; 2 * steady_price beta n] true;
         P_0 := [steady_price beta n; 2 * steady_price beta n];
         norm := sqrt (5 * (beta ^ n) ^ 2);
         it := Z.of_nat n;
         stdout := [] |}
  end.

(** [DivProcess(alpha = 0.0, shock_sd = 0.1, shock_mean = log(4),
    nApprox = 1)]: whatever today's dividend, tomorrow's is 4, a level
    above [two_point_grid]. *)
Definition jump_process : DivProcess :=
  {| alpha := 0; shock_sd := 1 / 10; shock_mean := ln 4; nApprox := 1;
     ShkAppDstn := {| X := [ln 4]; pmf := [1] |} |}.

(** [LucasEconomy(CRRA = 1, DiscFac = 0.8, DivProcess = jump_process)] *)
Definition jump_economy : LucasEconomy :=
  LucasEconomy_init 1 (4 / 5) jump_process.

(** [LinearInterp([0, log(2)], [2, 4], lower_extrap = True)]: the price
    twice the dividend on [two_point_grid]. *)
Definition jump_guess : Pfunc := LinearInterp two_point_grid [2; 4] true.

(** [DivProcess(alpha = 0.9, shock_sd = 0.1, nApprox = 1)] *)
Definition ar1_process : DivProcess :=
  {| alpha := 9 / 10; shock_sd := 1 / 10; shock_mean := 0; nApprox := 1;
     ShkAppDstn := {| X := [0]; pmf := [1] |} |}.

(** What one pass of [solve] on the steady economy leaves, from the zero
    function on [two_point_grid], without display. *)
Definition steady_outcome (beta : R) : SolveOutcome :=
  {| returned := tt;
     economy := {| CRRA := 1; DiscFac := beta; DivProc := steady_process;
                   EqlogPfun :=
                     Some (LinearInterp two_point_grid [beta; 2 * beta] true) |};
     printed := [] |}.

(** The unconditional standard deviation and mean of the log-dividend
    under the AR(1) process. *)
Definition uncond_sd (dp : DivProcess) : R :=
  shock_sd dp / sqrt (1 - alpha dp ^ 2).
Definition uncond_mean (dp : DivProcess) : R :=
  shock_mean dp / (1 - alpha dp).

(** [n] evenly spaced points from five unconditional standard deviations
    below the unconditional mean to five above it. *)
Definition symmetric_grid (dp : DivProcess) (n : nat) : vector :=
  map (fun i => uncond_mean dp - 5 * uncond_sd dp
                + INR i * (10 * uncond_sd dp / INR (n - 1)))
      (seq 0 n).

(** [LucasEconomy(CRRA = 2, DiscFac = 0.95, DivProcess = ar1_process)] *)
Definition ar1_economy : LucasEconomy :=
  LucasEconomy_init 2 (95 / 100) ar1_process.

(** The expectation of [h] over a discretized shock. *)
Definition expect (nodes weights : vector) (h : R -> R) : R :=
  Rsum (map (fun sp : R * R => snd sp * h (fst sp)) (combine nodes weights)).

(** The shock probabilities are non-negative and sum to one. *)
Definition probabilities (dp : DivProcess) : Prop :=
  (forall p, In p (pmf (ShkAppDstn dp)) -> 0 <= p)
  /\ Rsum (pmf (ShkAppDstn dp)) = 1.

(** The transition maps the grid into itself: from a grid point every
    shock node leads to a grid point. *)
Definition transition_closed (dp : DivProcess) (logDGrid : vector) : Prop :=
  forall x s, In x logDGrid -> In s (X (ShkAppDstn dp)) ->
    In (alpha dp * x + s) logDGrid.

(** The one-period operator under log utility, on price-dividend ratios
    [r]: a price [P] at log-dividend [x] has ratio [P / exp x]. *)
Definition ratio_operator (beta a : R) (nodes weights : vector) (r : R -> R)
           (x : R) : R :=
  beta * expect nodes weights (fun s => r (a * x + s) + 1).

(** How far a pricing function is from the closed form under log utility
    at the log-dividend [y], relative to the dividend [exp y]. *)
Definition relative_error (beta : R) (f : Pfunc) (y : R) : R :=
  Rabs (value f y - closed_form_log beta (exp y)) / exp y.

(** [DivProcess(alpha = 0.9, shock_sd = 0.1, nApprox = 2)], its two nodes
    one standard deviation below and above the mean with equal weights, and
    [LucasEconomy(CRRA = 1, DiscFac = 0.5, DivProcess = noisy_process)]. *)
Definition noisy_process : DivProcess :=
  {| alpha := 9 / 10; shock_sd := 1 / 10; shock_mean := 0; nApprox := 2;
     ShkAppDstn := {| X := [- (1 / 10); 1 / 10]; pmf := [1 / 2; 1 / 2] |} |}.

Definition noisy_economy : LucasEconomy :=
  LucasEconomy_init 1 (1 / 2) noisy_process.

(** *** The claims the code does not meet, as propositions *)

(** Non-convergence is reported: something computed from what [solve]
    leaves tells a run that stopped with the norm above the tolerance from
    one that converged. *)
Definition nonconvergence_reported : Prop :=
  exists report : result SolveOutcome -> bool,
    forall self Pfunc_0 logDGrid tol maxIter disp st,
      solve_loop self Pfunc_0 logDGrid tol maxIter disp = Ok st ->
      (norm st > tol ->
       report (solve self Pfunc_0 logDGrid tol maxIter disp) = true)
      /\ (norm st <= tol ->
          report (solve self Pfunc_0 logDGrid tol maxIter disp) = false).

(** The function a call of [solve] leaves is an interpolant over the grid
    the call worked on. *)
Definition final_function_on_grid : Prop :=
  forall self Pfunc_0 logDGrid tol maxIter disp out,
    solve self Pfunc_0 (Some logDGrid) tol maxIter disp = Ok out ->
    exists vals lower_extrap,
      EqlogPfun (economy out) = Some (LinearInterp logDGrid vals lower_extrap).

(** Parameters out of range: a discount factor outside (0, 1) or a
    negative shock standard deviation. *)
Definition malformed (self : LucasEconomy) : Prop :=
  ~ (0 < DiscFac self < 1) \/ shock_sd (DivProc self) < 0.

(** Malformed parameters make [solve] fail before any pass of its loop. *)
Definition malformed_parameters_rejected : Prop :=
  forall self Pfunc_0 logDGrid tol maxIter disp,
    malformed self ->
    exists e, solve self Pfunc_0 logDGrid tol maxIter disp = Err e.

(** Under log utility a converged solve is within the tolerance of the
    closed form at every grid point. *)
Definition converged_within_tolerance_of_closed_form : Prop :=
  forall self Pfunc_0 logDGrid tol maxIter disp st,
    CRRA self = 1 ->
    solve_loop self Pfunc_0 (Some logDGrid) tol maxIter disp = Ok st ->
    norm st <= tol ->
    forall x v, In x logDGrid -> call (Pf_0 st) x = Ok v ->
      Rabs (v - closed_form_log (DiscFac self) (exp x)) <= tol.

(** Every function [priceOnePeriod] returns gives a number at every point
    strictly below its grid, and so does every function [solve] leaves. *)
Definition operator_result_defined_below_grid : Prop :=
  forall self f logDGrid g x,
    priceOnePeriod self f logDGrid = Ok g ->
    logDGrid <> [] -> (forall y, In y logDGrid -> x < y) ->
    exists v, call g x = Ok v.

Definition solve_result_defined_below_grid : Prop :=
  forall self Pfunc_0 logDGrid tol maxIter disp out g x,
    solve self Pfunc_0 (Some logDGrid) tol maxIter disp = Ok out ->
    EqlogPfun (economy out) = Some g ->
    logDGrid <> [] -> (forall y, In y logDGrid -> x < y) ->
    exists v, call g x = Ok v.


(** [LinearInterp([0, log(2)], [2, 4])], with [lower_extrap] left at its
    default [False]: a guess with no value below [two_point_grid]. *)
Definition bounded_guess : Pfunc := LinearInterp two_point_grid [2; 4] false.

(** ** The analytical solutions the notebook tests the solver against *)

(** [theta = 1/Disc - 1], on Python floats: dividing by a zero [Disc]
    raises [ZeroDivisionError], which is [None] here. *)
Definition theta (Disc : R) : option R :=
  if Req_dec_T Disc 0 then None else Some (1 / Disc - 1).

(** [aSol = lambda d: d/theta], applied to an array of dividends. *)
Definition aSol (theta d : R) : result R := np_divide d theta.

(** [dTil = np.exp((shock_sd**2)/2*CRRA*(CRRA-1))] *)
Definition dTil (shock_sd CRRA : R) : R :=
  exp (shock_sd ^ 2 / 2 * CRRA * (CRRA - 1)).

(** [aSolIID = lambda d: d**CRRA * dTil * Disc/(1 - Disc)]; the notebook
    applies it to exponentials, which are positive, and [d ** CRRA] is
    [Rpower d CRRA] there. *)
Definition aSolIID (CRRA dTil Disc d : R) : result R :=
  np_divide (Rpower d CRRA * dTil * Disc) (1 - Disc).

(** ** The code of the notebook "Life Cycle Model: Theory vs Data" *)

(** [np.log]: [nan] or [-inf] on an argument that is not positive. *)
Definition np_log (x : R) : result R :=
  if Rlt_dec 0 x then Ok (ln x) else Err NotFinite.

(** What [savRteFunc] reads of a solved agent type: the interest factor
    [Rfree] and the list [solution] of the solutions by age, each with its
    consumption function [cFunc]. *)
Record ConsumerSolution : Type := {
  cFunc : Pfunc
}.

Record AgentType : Type := {
  Rfree : R;
  solution : list ConsumerSolution
}.

(** [savRteFunc(SomeType, m, t)], for one agent with normalized market
    resources [m] at age [t]. *)
Definition savRteFunc (SomeType : AgentType) (m : R) (t : nat) : result R :=
  (* Normalized by permanent labor income *)
  let inc := (Rfree SomeType - 1) * (m - 1) + 1 in
  (* Consumption (normalized) *)
  sol <- index (solution SomeType) t ;;
  cns <- call (cFunc sol) m ;;
  (* Flow of saving this period *)
  let sav := inc - cns in
  (* Saving Rate *)
  savRte <- np_divide sav inc ;;
  Ok savRte.

(** [aLvlGroNow = np.log((history['aNrm'][t] * history['pLvl'][t]) /
    history['aNrm'][t-1] * history['pLvl'][t-1])], for one agent: the
    quotient by last period's asset ratio is multiplied by last period's
    permanent income. *)
Definition aLvlGroNow (aNrm_t pLvl_t aNrm_prev pLvl_prev : R) : result R :=
  quotient <- np_divide (aNrm_t * pLvl_t) aNrm_prev ;;
  np_log (quotient * pLvl_prev).

(** [history['aLvl'] = history['aNrm'] * history['pLvl']] and
    [aGro41 = history['aLvl'][41] / history['aLvl'][40]], for one agent. *)
Definition aLvl (aNrm pLvl : R) : R := aNrm * pLvl.

Definition aGro41 (aLvl_41 aLvl_40 : R) : result R :=
  np_divide aLvl_41 aLvl_40.

(** [a[lo:hi]] on the first axis of an array: the entries from [lo] up to
    [hi], as many of them as there are; a slice never fails. *)
Definition np_slice {A : Type} (lo hi : nat) (a : list A) : list A :=
  firstn (hi - lo) (skipn lo a).

(** [np.sum(history['pLvl'][lo:hi,:] * history['TranShk'][lo:hi,:], 0)],
    for one agent: [pLvl] and [TranShk] are the agent's column of the two
    arrays, one entry for every simulated period. *)
Definition cumulative_income (pLvl TranShk : vector) (lo hi : nat)
  : result R :=
  income <- vec_op (total2 Rmult) (np_slice lo hi pLvl)
                   (np_slice lo hi TranShk) ;;
  Ok (Rsum income).

(** [lifetime_growth = cumulative_income_second_half /
    cumulative_income_first_half], with the halves [0:20] and [20:40]. *)
Definition lifetime_growth (pLvl TranShk : vector) : result R :=
  cumulative_income_first_half <- cumulative_income pLvl TranShk 0 20 ;;
  cumulative_income_second_half <- cumulative_income pLvl TranShk 20 40 ;;
  np_divide cumulative_income_second_half cumulative_income_first_half.

(** ** Notions the further properties are stated with *)

(** The states of two runs that hold the same function, prices, norm and
    pass count, whatever they printed. *)
Definition same_but_stdout (st1 st2 : LoopState) : Prop :=
  Pf_0 st1 = Pf_0 st2 /\ P_0 st1 = P_0 st2 /\ norm st1 = norm st2
  /\ it st1 = it st2.

(** The lines [solve] prints for its passes: the pass numbers from 1 on,
    each with the norm of that pass. *)
Definition pass_lines (norms : vector) : list line :=
  map (fun jn : nat * R => IterLine (Z.of_nat (fst jn)) (snd jn))
      (combine (seq 1 (length norms)) norms).

(** The moment of the discretized shock that the price of the tree under
    i.i.d. dividends depends on: the expectation of [exp ((1 - rho) * s)]. *)
Definition iid_moment (self : LucasEconomy) : R :=
  expect (X (ShkAppDstn (DivProc self))) (pmf (ShkAppDstn (DivProc self)))
         (fun s => exp ((1 - CRRA self) * s)).

(** Two fallible computations that fail alike or give related values. *)
Definition alike {A : Type} (rel : A -> A -> Prop) (r1 r2 : result A) : Prop :=
  match r1, r2 with
  | Ok a, Ok b => rel a b
  | Err e1, Err e2 => e1 = e2
  | _, _ => False
  end.

(** The prices after [k] applications of the pricing equation to the
    function [fv] of the log-dividend. *)
Fixpoint price_after (k : nat) (self : LucasEconomy) (fv : R -> R) : R -> R :=
  match k with
  | O => fv
  | S k' => pricing_rhs self (price_after k' self fv)
  end.

(** The dividend process of the notebook's test with one shock node,
    [DivProcess(alpha = 0.0, shock_mean = -shock_sd**2/2,
    shock_sd = shock_sd, nApprox = 1)], when the discretizer puts the node
    at the mean. *)
Definition one_node_iid (dp : DivProcess) : Prop :=
  alpha dp = 0
  /\ shock_mean dp = - shock_sd dp ^ 2 / 2
  /\ nApprox dp = 1%nat
  /\ X (ShkAppDstn dp) = [shock_mean dp]
  /\ pmf (ShkAppDstn dp) = [1].

(** The income of period [t]: permanent income times the transitory
    shock. *)
Definition income_at (pLvl TranShk : vector) (t : nat) : R :=
  nth t pLvl 0 * nth t TranShk 0.

(** *** Further example economies *)

(** [DivProcess(alpha = 0.0, shock_mean = -shock_sd**2/2, shock_sd = 0.1,
    nApprox = 1)], its one node at the mean, and
    [LucasEconomy(CRRA = 10, DiscFac = 0.9, DivProcess = iidDivs)]. *)
Definition iid_one_node_process : DivProcess :=
  {| alpha := 0; shock_sd := 1 / 10; shock_mean := - (1 / 10) ^ 2 / 2;
     nApprox := 1;
     ShkAppDstn := {| X := [- (1 / 10) ^ 2 / 2]; pmf := [1] |} |}.

Definition iid_one_node_economy : LucasEconomy :=
  LucasEconomy_init 10 (9 / 10) iid_one_node_process.

(** [DivProcess(alpha = 0.9, shock_sd = -0.1, nApprox = 1)] and
    [DivProcess(alpha = 0.9, shock_sd = 0.0, nApprox = 1)]: the constructor
    takes a negative and a zero standard deviation as it takes any other. *)
Definition falling_process : DivProcess :=
  {| alpha := 9 / 10; shock_sd := - (1 / 10); shock_mean := 0; nApprox := 1;
     ShkAppDstn := {| X := [0]; pmf := [1] |} |}.

Definition riskless_process : DivProcess :=
  {| alpha := 9 / 10; shock_sd := 0; shock_mean := 0; nApprox := 1;
     ShkAppDstn := {| X := [0]; pmf := [1] |} |}.

(** ** Theorems *)

(** *** The result monad and the array operations *)

Ltac monad_inv H :=
  match type of H with
  | bind ?m _ = Ok _ =>
      let E := fresh "E" in
      destruct m eqn:E; simpl in H; [ | discriminate H ]
  end.

Ltac monad_inv_as H E :=
  match type of H with
  | bind ?m _ = Ok _ => destruct m eqn:E; simpl in H; [ | discriminate H ]
  end.

Lemma mapM_map {A B C : Type} (f : B -> result C) (g : A -> B) (h : A -> C)
      (l : list A) :
  (forall x, In x l -> f (g x) = Ok (h x)) ->
  mapM f (map g l) = Ok (map h l).
Proof.
  induction l as [|a l IH]; intros Hf; simpl; [reflexivity|].
  rewrite (Hf a) by (left; reflexivity). simpl.
  rewrite IH by (intros x Hx; apply Hf; right; exact Hx).
  reflexivity.
Qed.

Lemma mapM_length {A B : Type} (f : A -> result B) (l : list A) (r : list B) :
  mapM f l = Ok r -> length r = length l.
Proof.
  revert r. induction l as [|a l IH]; intros r H; simpl in H.
  - inversion H. reflexivity.
  - monad_inv H. monad_inv H. inversion H. simpl. f_equal. eauto.
Qed.

Lemma mapM_In {A B : Type} (f : A -> result B) (l : list A) (r : list B) :
  mapM f l = Ok r -> forall x, In x l -> exists y, f x = Ok y.
Proof.
  revert r. induction l as [|a l IH]; intros r H x Hx; simpl in *.
  - contradiction.
  - monad_inv H. monad_inv H. destruct Hx as [<-|Hx]; eauto.
Qed.

Lemma zipM_map_map {A B C D : Type} (f : B -> C -> result D)
      (g1 : A -> B) (g2 : A -> C) (h : A -> D) (l : list A) :
  (forall x, In x l -> f (g1 x) (g2 x) = Ok (h x)) ->
  zipM f (map g1 l) (map g2 l) = Ok (map h l).
Proof.
  induction l as [|a l IH]; intros Hf; simpl; [reflexivity|].
  rewrite (Hf a) by (left; reflexivity). simpl.
  rewrite IH by (intros x Hx; apply Hf; right; exact Hx).
  reflexivity.
Qed.

Lemma zipM_map_l {A B C D : Type} (f : B -> C -> result D) (g : A -> B)
      (h : A * C -> D) (l : list A) (r : list C) :
  length l = length r ->
  (forall x y, In (x, y) (combine l r) -> f (g x) y = Ok (h (x, y))) ->
  zipM f (map g l) r = Ok (map h (combine l r)).
Proof.
  revert r. induction l as [|a l IH]; intros [|c r] Hlen Hf; simpl in *;
    try discriminate; [reflexivity|].
  rewrite (Hf a c) by (left; reflexivity). simpl.
  rewrite IH; [reflexivity | lia | intros x y Hxy; apply Hf; right; exact Hxy].
Qed.

Lemma zipM_length {A B C : Type} (f : A -> B -> result C) (a : list A)
      (b : list B) (r : list C) :
  zipM f a b = Ok r -> length a = length b /\ length r = length a.
Proof.
  revert b r. induction a as [|x a IH]; intros [|y b] r H; simpl in H;
    try discriminate.
  - inversion H. split; reflexivity.
  - monad_inv H. monad_inv H. inversion H. simpl.
    destruct (IH _ _ E0) as [Hab Hr]. split; congruence.
Qed.

Lemma repeat_as_map {A B : Type} (c : B) (l : list A) :
  repeat c (length l) = map (fun _ => c) l.
Proof. induction l; simpl; congruence. Qed.

Lemma Rsum_scale (c : R) {A : Type} (g : A -> R) (l : list A) :
  Rsum (map (fun a => c * g a) l) = c * Rsum (map g l).
Proof.
  unfold Rsum. induction l as [|a l IH]; simpl; [ring|].
  rewrite IH. ring.
Qed.

(** *** Arrays indexed by grid point and shock node *)

Section Tabulate.

Variables grid nodes : vector.

Lemma tile_columns_tabulate :
  tile_columns grid (length nodes) = tabulate grid nodes (fun x _ => x).
Proof.
  unfold tile_columns, tabulate. apply map_ext. intros x.
  apply repeat_as_map.
Qed.

Lemma tile_rows_tabulate :
  tile_rows nodes (length grid) = tabulate grid nodes (fun _ s => s).
Proof.
  unfold tile_rows, tabulate. rewrite repeat_as_map.
  apply map_ext. intros _. symmetry. apply map_id.
Qed.

Lemma mat_map_tabulate (g : R -> R) (F : R -> R -> R) :
  mat_map g (tabulate grid nodes F) = tabulate grid nodes (fun x s => g (F x s)).
Proof.
  unfold mat_map, tabulate. rewrite map_map. apply map_ext. intros x.
  apply map_map.
Qed.

Lemma mat_op_tabulate (op : R -> R -> result R) (F G H : R -> R -> R) :
  (forall x s, In x grid -> In s nodes -> op (F x s) (G x s) = Ok (H x s)) ->
  mat_op op (tabulate grid nodes F) (tabulate grid nodes G)
  = Ok (tabulate grid nodes H).
Proof.
  intros Hop. unfold mat_op, tabulate. apply zipM_map_map. intros x Hx.
  unfold vec_op. apply zipM_map_map. intros s Hs. apply Hop; assumption.
Qed.

Lemma call_mat_tabulate (f : Pfunc) (fv : R -> R) (F : R -> R -> R) :
  (forall x s, In x grid -> In s nodes -> call f (F x s) = Ok (fv (F x s))) ->
  call_mat f (tabulate grid nodes F)
  = Ok (tabulate grid nodes (fun x s => fv (F x s))).
Proof.
  intros Hf. unfold call_mat, tabulate. apply mapM_map. intros x Hx.
  unfold call_vec. apply mapM_map. intros s Hs. apply Hf; assumption.
Qed.

Lemma mat_op_weights (F : R -> R -> R) (weights : vector) :
  length nodes = length weights ->
  mat_op (total2 Rmult) (tabulate grid nodes F)
         (tile_rows weights (length grid))
  = Ok (map (fun x => map (fun sp : R * R => F x (fst sp) * snd sp)
                          (combine nodes weights)) grid).
Proof.
  intros Hlen. unfold mat_op, tabulate, tile_rows. rewrite repeat_as_map.
  apply zipM_map_map. intros x _. unfold vec_op.
  apply zipM_map_l; [exact Hlen | reflexivity].
Qed.

End Tabulate.

(** *** The one-period pricing operator *)

Lemma exp_neq_0 (x : R) : exp x <> 0.
Proof. pose proof (exp_pos x). lra. Qed.

Lemma np_divide_ok (a b : R) : b <> 0 -> np_divide a b = Ok (a / b).
Proof.
  intros Hb. unfold np_divide. destruct (Req_dec_T b 0); [contradiction|].
  reflexivity.
Qed.

Lemma priceOnePeriod_values (self : LucasEconomy) (f : Pfunc) (fv : R -> R)
      (logDGrid : vector) :
  shocks_aligned (DivProc self) ->
  (forall x s, In x logDGrid -> In s (X (ShkAppDstn (DivProc self))) ->
     call f (alpha (DivProc self) * x + s)
     = Ok (fv (alpha (DivProc self) * x + s))) ->
  priceOnePeriod self f logDGrid
  = Ok (LinearInterp logDGrid (map (pricing_rhs self fv) logDGrid) true).
Proof.
  intros [HX Hp] Hf. unfold priceOnePeriod.
  rewrite <- HX.
  rewrite tile_columns_tabulate, tile_rows_tabulate.
  rewrite !mat_map_tabulate.
  rewrite (mat_op_tabulate _ _ _ _ _
             (fun x s => alpha (DivProc self) * x + s))
    by reflexivity.
  simpl. rewrite !mat_map_tabulate.
  rewrite (call_mat_tabulate _ _ f fv) by exact Hf.
  simpl.
  rewrite (mat_op_tabulate _ _ np_divide _ _
             (fun x s => exp (alpha (DivProc self) * x + s) / exp x))
    by (intros; apply np_divide_ok, exp_neq_0).
  simpl. rewrite !mat_map_tabulate.
  rewrite (mat_op_tabulate _ _ (total2 Rplus) _ _
             (fun x s => fv (alpha (DivProc self) * x + s)
                         + exp (alpha (DivProc self) * x + s)))
    by reflexivity.
  simpl.
  rewrite (mat_op_tabulate _ _ (total2 Rmult) _ _
             (fun x s => DiscFac self
                           * uP self (exp (alpha (DivProc self) * x + s) / exp x)
                         * (fv (alpha (DivProc self) * x + s)
                            + exp (alpha (DivProc self) * x + s))))
    by reflexivity.
  simpl.
  rewrite mat_op_weights by congruence.
  simpl. do 2 f_equal. unfold sum_axis1. rewrite map_map.
  apply map_ext. intros x. unfold pricing_rhs.
  rewrite <- Rsum_scale. f_equal. apply map_ext. intros [s p]. simpl. ring.
Qed.

(** *** Evaluation of a piecewise-linear interpolant *)

Lemma index_nth (l : vector) (i : nat) :
  (i < length l)%nat -> index l i = Ok (nth i l 0).
Proof.
  intros Hi. unfold index.
  destruct (nth_error l i) as [a|] eqn:E.
  - f_equal. symmetry. apply nth_error_nth. exact E.
  - apply nth_error_None in E. lia.
Qed.

Lemma increasing_tail (x : R) (t : vector) :
  increasing (x :: t) -> increasing t.
Proof. destruct t as [|y t]; simpl; tauto. Qed.

Lemma increasing_head_lt (x : R) (t : vector) :
  increasing (x :: t) -> forall j, (j < length t)%nat -> x < nth j t 0.
Proof.
  revert x. induction t as [|y t IH]; intros x Hinc j Hj; simpl in Hj; [lia|].
  destruct Hinc as [Hxy Hinc]. destruct j as [|j]; simpl; [exact Hxy|].
  apply Rlt_trans with y; [exact Hxy|]. apply IH; [exact Hinc | lia].
Qed.

Lemma increasing_nth (l : vector) (k j : nat) :
  increasing l -> (k < j)%nat -> (j < length l)%nat ->
  nth k l 0 < nth j l 0.
Proof.
  revert k j. induction l as [|x t IH]; intros k j Hinc Hkj Hj; simpl in Hj;
    [lia|].
  destruct j as [|j]; [lia|]. destruct k as [|k]; simpl.
  - apply increasing_head_lt; [exact Hinc | lia].
  - apply IH; [eapply increasing_tail; exact Hinc | lia | lia].
Qed.

Lemma np_searchsorted_le (l : vector) (x : R) :
  (np_searchsorted l x <= length l)%nat.
Proof.
  induction l as [|h t IH]; simpl; [lia|].
  destruct (Rlt_dec h x); lia.
Qed.

(** On any array, the search stops at the first entry that is not below
    the value. *)
Lemma np_searchsorted_first (l : vector) (x : R) (j : nat) :
  (j <= length l)%nat ->
  (forall k, (k < j)%nat -> nth k l 0 < x) ->
  ((j < length l)%nat -> ~ nth j l 0 < x) ->
  np_searchsorted l x = j.
Proof.
  revert j. induction l as [|h t IH]; intros j Hj Hbelow Hstop; simpl in *.
  - lia.
  - destruct (Rlt_dec h x) as [Hlt|Hge].
    + destruct j as [|j].
      * exfalso. apply Hstop; [lia | exact Hlt].
      * f_equal. apply IH; [lia | |].
        -- intros k Hk. apply (Hbelow (S k)). lia.
        -- intros Hlen. apply (Hstop ltac:(lia)).
    + destruct j as [|j]; [reflexivity|].
      exfalso. apply Hge. apply (Hbelow O). lia.
Qed.

Lemma removelast_length {A : Type} (l : list A) :
  length (removelast l) = (length l - 1)%nat.
Proof.
  induction l as [|a l IH]; [reflexivity|].
  destruct l as [|b l]; [reflexivity|].
  change (removelast (a :: b :: l)) with (a :: removelast (b :: l)).
  simpl length in *. lia.
Qed.

Lemma removelast_nth (l : vector) (k : nat) :
  (k < length l - 1)%nat -> nth k (removelast l) 0 = nth k l 0.
Proof.
  revert k. induction l as [|a l IH]; intros k Hk; [simpl in Hk; lia|].
  destruct l as [|b l]; [simpl in Hk; lia|].
  change (removelast (a :: b :: l)) with (a :: removelast (b :: l)).
  destruct k as [|k]; [reflexivity|].
  simpl nth. apply IH. simpl length in *. lia.
Qed.

Lemma segment_bounds (x_list : vector) (x : R) :
  (2 <= length x_list)%nat ->
  (1 <= segment x_list x)%nat /\ (segment x_list x < length x_list)%nat.
Proof.
  intros Hlen. unfold segment.
  pose proof (np_searchsorted_le (removelast x_list) x) as Hle.
  rewrite removelast_length in Hle. lia.
Qed.

(** With [lower_extrap] set, on an increasing grid of at least two points,
    evaluation never fails and gives the line through the two ends of the
    chosen segment. *)
Lemma LinearInterp_eval_segment (x_list y_list : vector) (x : R) :
  increasing x_list -> (2 <= length x_list)%nat ->
  length y_list = length x_list ->
  let i := segment x_list x in
  let t := (x - nth (i - 1) x_list 0)
           / (nth i x_list 0 - nth (i - 1) x_list 0) in
  LinearInterp_eval x_list y_list true x
  = Ok ((1 - t) * nth (i - 1) y_list 0 + t * nth i y_list 0).
Proof.
  intros Hinc Hlen Hy i t.
  destruct (segment_bounds x_list x Hlen) as [H1 Hi]. fold i in H1, Hi.
  unfold LinearInterp_eval. fold (segment x_list x). fold i.
  rewrite !index_nth by lia. simpl.
  rewrite np_divide_ok.
  - simpl. reflexivity.
  - assert (nth (i - 1) x_list 0 < nth i x_list 0)
      by (apply increasing_nth; [exact Hinc | lia | lia]).
    lra.
Qed.

Lemma segment_at_grid (x_list : vector) (j : nat) :
  increasing x_list -> (j < length x_list)%nat ->
  segment x_list (nth j x_list 0) = Nat.max j 1.
Proof.
  intros Hinc Hj. unfold segment. f_equal.
  apply np_searchsorted_first.
  - rewrite removelast_length. lia.
  - intros k Hk. rewrite removelast_nth by lia.
    apply increasing_nth; [exact Hinc | lia | lia].
  - rewrite removelast_length. intros Hlt.
    rewrite removelast_nth by lia. apply Rlt_irrefl.
Qed.

Lemma segment_below_grid (x_list : vector) (x : R) :
  x < nth 0 x_list 0 -> segment x_list x = 1%nat.
Proof.
  intros Hx. unfold segment.
  rewrite (np_searchsorted_first _ _ O); [reflexivity | lia | intros; lia |].
  rewrite removelast_length. intros Hlt.
  rewrite removelast_nth by lia. lra.
Qed.

(** The interpolant passes through its own points. *)
Lemma LinearInterp_at_grid (x_list y_list : vector) (j : nat) :
  increasing x_list -> (2 <= length x_list)%nat ->
  length y_list = length x_list -> (j < length x_list)%nat ->
  call (LinearInterp x_list y_list true) (nth j x_list 0)
  = Ok (nth j y_list 0).
Proof.
  intros Hinc Hlen Hy Hj. simpl.
  rewrite LinearInterp_eval_segment by assumption.
  rewrite segment_at_grid by assumption.
  destruct j as [|j].
  - change (Nat.max 0 1) with 1%nat. simpl Nat.sub.
    assert (nth 0 x_list 0 < nth 1 x_list 0)
      by (apply increasing_nth; [exact Hinc | lia | lia]).
    f_equal. field. lra.
  - replace (Nat.max (S j) 1) with (S j) by lia.
    replace (S j - 1)%nat with j by lia.
    assert (nth j x_list 0 < nth (S j) x_list 0)
      by (apply increasing_nth; [exact Hinc | lia | lia]).
    f_equal. field. lra.
Qed.

Lemma mapM_nth (f : R -> result R) (l r : vector) :
  length r = length l ->
  (forall j, (j < length l)%nat -> f (nth j l 0) = Ok (nth j r 0)) ->
  mapM f l = Ok r.
Proof.
  revert r. induction l as [|a l IH]; intros [|b r] Hlen Hf; simpl in Hlen;
    try discriminate; [reflexivity|].
  simpl. pose proof (Hf O ltac:(simpl; lia)) as H0. simpl in H0.
  rewrite H0. simpl.
  rewrite (IH r); [reflexivity | lia |].
  intros j Hj. apply (Hf (S j)). simpl. lia.
Qed.

Lemma call_vec_at_grid (x_list y_list : vector) :
  increasing x_list -> (2 <= length x_list)%nat ->
  length y_list = length x_list ->
  call_vec (LinearInterp x_list y_list true) x_list = Ok y_list.
Proof.
  intros Hinc Hlen Hy. unfold call_vec. apply mapM_nth; [exact Hy|].
  intros j Hj. apply LinearInterp_at_grid; assumption.
Qed.

(** Below the grid the value is the first segment, extended. *)
Lemma LinearInterp_below_grid (x_list y_list : vector) (x : R) :
  increasing x_list -> (2 <= length x_list)%nat ->
  length y_list = length x_list -> x < nth 0 x_list 0 ->
  call (LinearInterp x_list y_list true) x
  = Ok (first_segment x_list y_list x).
Proof.
  intros Hinc Hlen Hy Hx. simpl.
  rewrite LinearInterp_eval_segment by assumption.
  rewrite segment_below_grid by exact Hx. simpl Nat.sub.
  assert (nth 0 x_list 0 < nth 1 x_list 0)
    by (apply increasing_nth; [exact Hinc | lia | lia]).
  unfold first_segment. f_equal. field. lra.
Qed.

(** Without [lower_extrap] the same point is outside the domain. *)
Lemma LinearInterp_no_extrap_below (x_list y_list : vector) (x : R) :
  increasing x_list -> (2 <= length x_list)%nat ->
  length y_list = length x_list -> x < nth 0 x_list 0 ->
  call (LinearInterp x_list y_list false) x = Err NotFinite.
Proof.
  intros Hinc Hlen Hy Hx. simpl. unfold LinearInterp_eval.
  fold (segment x_list x).
  destruct (segment_bounds x_list x Hlen) as [H1 Hi].
  rewrite !index_nth by lia. simpl.
  rewrite np_divide_ok.
  - simpl. unfold Rltb. destruct (Rlt_dec x (nth 0 x_list 0)); [reflexivity|].
    contradiction.
  - assert (nth (segment x_list x - 1) x_list 0 < nth (segment x_list x) x_list 0)
      by (apply increasing_nth; [exact Hinc | lia | lia]).
    lra.
Qed.

Lemma call_LinearInterp_total (x_list y_list : vector) (x : R) :
  increasing x_list -> (2 <= length x_list)%nat ->
  length y_list = length x_list ->
  exists v, call (LinearInterp x_list y_list true) x = Ok v.
Proof.
  intros Hinc Hlen Hy. simpl. eexists.
  apply LinearInterp_eval_segment; assumption.
Qed.

(** *** The shape of what the operator returns *)

Lemma mat_op_length (op : R -> R -> result R) (a b r : matrix) :
  mat_op op a b = Ok r -> length a = length b /\ length r = length a.
Proof. apply zipM_length. Qed.

Lemma mat_map_length (f : R -> R) (m : matrix) :
  length (mat_map f m) = length m.
Proof. apply length_map. Qed.

Lemma priceOnePeriod_shape (self : LucasEconomy) (f g : Pfunc)
      (logDGrid : vector) :
  priceOnePeriod self f logDGrid = Ok g ->
  exists vals, g = LinearInterp logDGrid vals true
               /\ length vals = length logDGrid.
Proof.
  unfold priceOnePeriod. intros H.
  monad_inv_as H Hnext. monad_inv_as H Hcall. monad_inv_as H Hratio.
  monad_inv_as H Hpay. monad_inv_as H Hweighted. monad_inv_as H Hsummand.
  inversion H; subst g. eexists. split; [reflexivity|].
  unfold sum_axis1. rewrite length_map.
  apply mat_op_length in Hnext, Hratio, Hweighted, Hsummand.
  rewrite !mat_map_length in *. unfold tile_columns in *.
  rewrite length_map in *. unfold matrix, vector in *. lia.
Qed.

(** *** The loop of [solve] *)

Lemma solve_body_inv (self : LucasEconomy) (logDGrid : vector) (disp : bool)
      (st st' : LoopState) :
  solve_body self logDGrid disp st = Ok st' ->
  priceOnePeriod self (Pf_0 st) logDGrid = Ok (Pf_0 st')
  /\ call_vec (Pf_0 st') logDGrid = Ok (P_0 st')
  /\ (exists diff, vec_op (total2 Rminus) (P_0 st) (P_0 st') = Ok diff
                   /\ norm st' = np_linalg_norm diff)
  /\ it st' = (it st + 1)%Z
  /\ stdout st' = (if disp then stdout st ++ [IterLine (it st') (norm st')]
                   else stdout st).
Proof.
  unfold solve_body. intros H.
  monad_inv H. monad_inv H. monad_inv H. inversion H; subst st'; simpl.
  repeat split; eauto.
Qed.

Lemma solve_body_interp (self : LucasEconomy) (logDGrid : vector) (disp : bool)
      (st st' : LoopState) :
  solve_body self logDGrid disp st = Ok st' ->
  exists vals, Pf_0 st' = LinearInterp logDGrid vals true
               /\ length vals = length logDGrid.
Proof.
  intros H. apply solve_body_inv in H. destruct H as [H _].
  apply priceOnePeriod_shape in H. exact H.
Qed.

(** Peeling the first pass instead of the last. *)
Lemma iterate_front (k : nat) (self : LucasEconomy) (logDGrid : vector)
      (disp : bool) (st : LoopState) :
  iterate (S k) self logDGrid disp st
  = (st1 <- solve_body self logDGrid disp st ;;
     iterate k self logDGrid disp st1).
Proof.
  induction k as [|k IH].
  - simpl. destruct (solve_body self logDGrid disp st); reflexivity.
  - change (iterate (S (S k)) self logDGrid disp st)
      with (st' <- iterate (S k) self logDGrid disp st ;;
            solve_body self logDGrid disp st').
    rewrite IH. destruct (solve_body self logDGrid disp st); reflexivity.
Qed.

Lemma iterate_it (k : nat) (self : LucasEconomy) (logDGrid : vector)
      (disp : bool) (st st' : LoopState) :
  iterate k self logDGrid disp st = Ok st' ->
  it st' = (it st + Z.of_nat k)%Z.
Proof.
  revert st'. induction k as [|k IH]; intros st' H.
  - simpl in H. inversion H. lia.
  - simpl in H. monad_inv H. apply solve_body_inv in H.
    destruct H as (_ & _ & _ & Hit & _). rewrite Hit, (IH _ eq_refl). lia.
Qed.

(** An earlier pass of a run that succeeded has succeeded as well. *)
Lemma iterate_prefix (k j : nat) (self : LucasEconomy) (logDGrid : vector)
      (disp : bool) (st st' : LoopState) :
  iterate k self logDGrid disp st = Ok st' -> (j <= k)%nat ->
  exists stj, iterate j self logDGrid disp st = Ok stj.
Proof.
  revert st'. induction k as [|k IH]; intros st' H Hj.
  - assert (j = O) by lia. subst j. eauto.
  - destruct (Nat.eq_dec j (S k)) as [->|Hne]; [eauto|].
    simpl in H. monad_inv_as H Hprev. apply (IH a eq_refl). lia.
Qed.

Lemma loop_guard_false (n tol : R) (i maxIter : Z) :
  Rgtb n tol && (i <? maxIter)%Z = false <-> n <= tol \/ (maxIter <= i)%Z.
Proof.
  unfold Rgtb. destruct (Rgt_dec n tol) as [Hgt|Hle]; simpl.
  - destruct (Z.ltb_spec i maxIter) as [Hlt|Hge]; split; intros Hg;
      try discriminate; try reflexivity; try (right; assumption).
    destruct Hg; [lra | lia].
  - split; [intros _; left; lra | reflexivity].
Qed.

Lemma loop_guard_true (n tol : R) (i maxIter : Z) :
  Rgtb n tol && (i <? maxIter)%Z = true <-> n > tol /\ (i < maxIter)%Z.
Proof.
  unfold Rgtb. destruct (Rgt_dec n tol) as [Hgt|Hle]; simpl.
  - rewrite Z.ltb_lt. tauto.
  - split; [discriminate | tauto].
Qed.

(** Only the loop model can run out of steps: no operation does. *)
Lemma bind_finishes {A B : Type} (m : result A) (k : A -> result B) :
  finishes m -> (forall a, m = Ok a -> finishes (k a)) -> finishes (bind m k).
Proof.
  intros Hm Hk. destruct m as [a|e]; simpl; [apply Hk; reflexivity|].
  exact Hm.
Qed.

Lemma mapM_finishes {A B : Type} (f : A -> result B) (l : list A) :
  (forall x, finishes (f x)) -> finishes (mapM f l).
Proof.
  intros Hf. induction l as [|a l IH]; simpl; [exact I|].
  apply bind_finishes; [apply Hf|]. intros b _.
  apply bind_finishes; [exact IH|]. intros bs _. exact I.
Qed.

Lemma zipM_finishes {A B C : Type} (f : A -> B -> result C) (a : list A)
      (b : list B) :
  (forall x y, finishes (f x y)) -> finishes (zipM f a b).
Proof.
  intros Hf. revert b. induction a as [|x a IH]; intros [|y b]; simpl;
    try exact I.
  apply bind_finishes; [apply Hf|]. intros z _.
  apply bind_finishes; [apply IH|]. intros zs _. exact I.
Qed.

Lemma index_finishes {A : Type} (l : list A) (i : nat) : finishes (index l i).
Proof. unfold index. destruct (nth_error l i); exact I. Qed.

Lemma np_divide_finishes (a b : R) : finishes (np_divide a b).
Proof. unfold np_divide. destruct (Req_dec_T b 0); exact I. Qed.

Lemma np_sqrt_finishes (a : R) : finishes (np_sqrt a).
Proof. unfold np_sqrt. destruct (Rlt_dec a 0); exact I. Qed.

Lemma total2_finishes (op : R -> R -> R) (a b : R) : finishes (total2 op a b).
Proof. exact I. Qed.

Lemma Ok_finishes {A : Type} (a : A) : finishes (Ok a).
Proof. exact I. Qed.

Lemma vec_op_finishes (op : R -> R -> result R) (a b : vector) :
  (forall x y, finishes (op x y)) -> finishes (vec_op op a b).
Proof. apply zipM_finishes. Qed.

Lemma mat_op_finishes (op : R -> R -> result R) (a b : matrix) :
  (forall x y, finishes (op x y)) -> finishes (mat_op op a b).
Proof.
  intros Hop. apply zipM_finishes. intros x y. apply vec_op_finishes.
  exact Hop.
Qed.

Create HintDb finishes.
#[local] Hint Resolve Ok_finishes index_finishes np_divide_finishes
  np_sqrt_finishes total2_finishes mapM_finishes zipM_finishes
  vec_op_finishes mat_op_finishes : finishes.

Ltac finishes_step :=
  apply bind_finishes; [solve [auto with finishes] | intros ? _].

Lemma call_finishes (f : Pfunc) (x : R) : finishes (call f x).
Proof.
  destruct f as [v|xs ys ext|g]; simpl.
  - exact I.
  - unfold LinearInterp_eval. repeat finishes_step.
    destruct (negb ext && Rltb x _); exact I.
  - destruct (g x); exact I.
Qed.

Lemma call_vec_finishes (f : Pfunc) (v : vector) : finishes (call_vec f v).
Proof. apply mapM_finishes. apply call_finishes. Qed.

Lemma call_mat_finishes (f : Pfunc) (m : matrix) : finishes (call_mat f m).
Proof. apply mapM_finishes. apply call_vec_finishes. Qed.

#[local] Hint Resolve call_finishes call_vec_finishes call_mat_finishes
  : finishes.

Lemma priceOnePeriod_finishes (self : LucasEconomy) (f : Pfunc)
      (logDGrid : vector) :
  finishes (priceOnePeriod self f logDGrid).
Proof.
  unfold priceOnePeriod. repeat finishes_step. exact I.
Qed.

Lemma solve_body_finishes (self : LucasEconomy) (logDGrid : vector)
      (disp : bool) (st : LoopState) :
  finishes (solve_body self logDGrid disp st).
Proof.
  unfold solve_body.
  apply bind_finishes; [apply priceOnePeriod_finishes | intros ? _].
  repeat finishes_step. exact I.
Qed.

(** The loop never needs more passes than the cap allows. *)
Lemma solve_while_fuel (fuel : nat) (self : LucasEconomy) (logDGrid : vector)
      (tol : R) (maxIter : Z) (disp : bool) (st : LoopState) :
  (Z.to_nat (maxIter - it st) <= fuel)%nat ->
  finishes (solve_while fuel self logDGrid tol maxIter disp st).
Proof.
  revert st. induction fuel as [|fuel IH]; intros st Hfuel; simpl.
  - destruct (Rgtb (norm st) tol && (it st <? maxIter)%Z) eqn:G;
      [|exact I].
    apply loop_guard_true in G. lia.
  - destruct (Rgtb (norm st) tol && (it st <? maxIter)%Z) eqn:G;
      [|exact I].
    apply bind_finishes; [apply solve_body_finishes|]. intros st1 B.
    apply IH. apply solve_body_inv in B.
    destruct B as (_ & _ & _ & Hit & _). lia.
Qed.

(** What the loop leaves: the state after some number [k] of passes, all
    earlier states having failed the exit test, and the last one passing
    it. *)
Lemma solve_while_iterate (fuel : nat) (self : LucasEconomy)
      (logDGrid : vector) (tol : R) (maxIter : Z) (disp : bool)
      (st st' : LoopState) :
  solve_while fuel self logDGrid tol maxIter disp st = Ok st' ->
  exists k,
    iterate k self logDGrid disp st = Ok st'
    /\ (forall j, (j < k)%nat ->
          exists stj, iterate j self logDGrid disp st = Ok stj
                      /\ norm stj > tol /\ (it stj < maxIter)%Z)
    /\ (norm st' <= tol \/ (maxIter <= it st')%Z).
Proof.
  revert st. induction fuel as [|fuel IH]; intros st H; simpl in H.
  - destruct (Rgtb (norm st) tol && (it st <? maxIter)%Z) eqn:G;
      [discriminate|].
    inversion H; subst st'. exists O. split; [reflexivity|].
    split; [intros j Hj; lia|]. apply loop_guard_false. exact G.
  - destruct (Rgtb (norm st) tol && (it st <? maxIter)%Z) eqn:G.
    + monad_inv H. rename a into st1.
      destruct (IH _ H) as (k & Hk & Hbefore & Hexit).
      exists (S k). split; [rewrite iterate_front, E; exact Hk|].
      split; [|exact Hexit].
      intros [|j] Hj.
      * exists st. split; [reflexivity|]. apply loop_guard_true. exact G.
      * destruct (Hbefore j ltac:(lia)) as (stj & Hj1 & Hj2).
        exists stj. split; [rewrite iterate_front, E; exact Hj1 | exact Hj2].
    + inversion H; subst st'. exists O. split; [reflexivity|].
      split; [intros j Hj; lia|]. apply loop_guard_false. exact G.
Qed.

(** *** One pass of the loop, when nothing fails *)

Lemma call_value (f : Pfunc) (x v : R) : call f x = Ok v -> value f x = v.
Proof. unfold value. intros ->. reflexivity. Qed.

Lemma zipM_total2 (op : R -> R -> R) (a b : vector) :
  length a = length b ->
  zipM (total2 op) a b
  = Ok (map (fun ab : R * R => op (fst ab) (snd ab)) (combine a b)).
Proof.
  intros Hlen. rewrite <- (map_id a) at 1.
  apply zipM_map_l; [exact Hlen | reflexivity].
Qed.

Lemma next_prices_length (self : LucasEconomy) (f : Pfunc) (g : vector) :
  length (next_prices self f g) = length g.
Proof. apply length_map. Qed.

Lemma priceOnePeriod_next_prices (self : LucasEconomy) (f : Pfunc)
      (logDGrid : vector) :
  shocks_aligned (DivProc self) ->
  defined_on_transitions self f logDGrid ->
  priceOnePeriod self f logDGrid
  = Ok (LinearInterp logDGrid (next_prices self f logDGrid) true).
Proof.
  intros Hal Hdef. apply priceOnePeriod_values; [exact Hal|].
  intros x s Hx Hs. destruct (Hdef x s Hx Hs) as [v Hv].
  rewrite Hv. f_equal. symmetry. apply call_value. exact Hv.
Qed.

Lemma solve_body_next_state (self : LucasEconomy) (logDGrid : vector)
      (disp : bool) (st : LoopState) :
  shocks_aligned (DivProc self) ->
  increasing logDGrid -> (2 <= length logDGrid)%nat ->
  defined_on_transitions self (Pf_0 st) logDGrid ->
  length (P_0 st) = length logDGrid ->
  solve_body self logDGrid disp st = Ok (next_state self logDGrid disp st).
Proof.
  intros Hal Hinc Hlen Hdef HP. unfold solve_body.
  rewrite priceOnePeriod_next_prices by assumption. simpl.
  rewrite call_vec_at_grid
    by (try assumption; apply next_prices_length). simpl.
  unfold vec_op. rewrite zipM_total2
    by (rewrite next_prices_length; exact HP).
  reflexivity.
Qed.

Lemma LinearInterp_defined_on_transitions (self : LucasEconomy)
      (logDGrid vals grid' : vector) :
  increasing logDGrid -> (2 <= length logDGrid)%nat ->
  length vals = length logDGrid ->
  defined_on_transitions self (LinearInterp logDGrid vals true) grid'.
Proof.
  intros Hinc Hlen Hv x s _ _. apply call_LinearInterp_total; assumption.
Qed.

Lemma ConstantFunction_defined_on_transitions (self : LucasEconomy)
      (c : R) (logDGrid : vector) :
  defined_on_transitions self (ConstantFunction c) logDGrid.
Proof. intros x s _ _. exists c. reflexivity. Qed.

Lemma call_vec_ConstantFunction (c : R) (v : vector) :
  call_vec (ConstantFunction c) v = Ok (map (fun _ => c) v).
Proof.
  unfold call_vec. rewrite <- (map_id v) at 1.
  apply mapM_map. reflexivity.
Qed.

(** On an increasing grid of two points or more, with aligned shocks, the
    loop runs to its end from any state whose function is defined where
    the operator needs it. *)
Lemma solve_while_total (fuel : nat) (self : LucasEconomy)
      (logDGrid : vector) (tol : R) (maxIter : Z) (disp : bool)
      (st : LoopState) :
  shocks_aligned (DivProc self) ->
  increasing logDGrid -> (2 <= length logDGrid)%nat ->
  defined_on_transitions self (Pf_0 st) logDGrid ->
  length (P_0 st) = length logDGrid ->
  (Z.to_nat (maxIter - it st) <= fuel)%nat ->
  exists st', solve_while fuel self logDGrid tol maxIter disp st = Ok st'.
Proof.
  intros Hal Hinc Hlen. revert st.
  induction fuel as [|fuel IH]; intros st Hdef HP Hfuel; simpl.
  - destruct (Rgtb (norm st) tol && (it st <? maxIter)%Z) eqn:G; [|eauto].
    apply loop_guard_true in G. lia.
  - destruct (Rgtb (norm st) tol && (it st <? maxIter)%Z) eqn:G; [|eauto].
    rewrite solve_body_next_state by assumption. simpl.
    apply IH; simpl.
    + apply LinearInterp_defined_on_transitions;
        [assumption | assumption | apply next_prices_length].
    + apply next_prices_length.
    + lia.
Qed.

Lemma solve_loop_inv (self : LucasEconomy) (Pfunc_0 : option Pfunc)
      (logDGrid : option vector) (tol : R) (maxIter : Z) (disp : bool)
      (st : LoopState) :
  solve_loop self Pfunc_0 logDGrid tol maxIter disp = Ok st ->
  exists g P0,
    solve_grid self logDGrid = Ok g
    /\ call_vec (solve_guess Pfunc_0) g = Ok P0
    /\ solve_while (Z.to_nat maxIter) self g tol maxIter disp
         (solve_init Pfunc_0 P0 tol) = Ok st.
Proof.
  unfold solve_loop. intros H.
  monad_inv_as H Hg. monad_inv_as H HP. eauto.
Qed.

Lemma solve_inv (self : LucasEconomy) (Pfunc_0 : option Pfunc)
      (logDGrid : option vector) (tol : R) (maxIter : Z) (disp : bool)
      (out : SolveOutcome) :
  solve self Pfunc_0 logDGrid tol maxIter disp = Ok out ->
  exists st,
    solve_loop self Pfunc_0 logDGrid tol maxIter disp = Ok st
    /\ returned out = tt
    /\ EqlogPfun (economy out) = Some (Pf_0 st)
    /\ CRRA (economy out) = CRRA self
    /\ DiscFac (economy out) = DiscFac self
    /\ DivProc (economy out) = DivProc self
    /\ printed out
       = (if disp then
            stdout st ++ [Text (if Rleb (norm st) tol
                                then "Price function converged!"
                                else "Maximum iterations exceeded!")]
          else stdout st).
Proof.
  unfold solve. intros H. monad_inv_as H Hloop. inversion H; subst out.
  exists a. simpl. repeat split; try reflexivity.
  destruct disp; [|reflexivity]. destruct (Rleb (norm a) tol); reflexivity.
Qed.

Lemma getLogdGrid_finishes (dp : DivProcess) (n : nat) :
  finishes (getLogdGrid dp n).
Proof. unfold getLogdGrid. repeat finishes_step. exact I. Qed.

Lemma solve_loop_finishes (self : LucasEconomy) (Pfunc_0 : option Pfunc)
      (logDGrid : option vector) (tol : R) (maxIter : Z) (disp : bool) :
  finishes (solve_loop self Pfunc_0 logDGrid tol maxIter disp).
Proof.
  unfold solve_loop.
  apply bind_finishes.
  { destruct logDGrid; simpl; [exact I | apply getLogdGrid_finishes]. }
  intros g _. finishes_step.
  apply solve_while_fuel. simpl. lia.
Qed.

(** The shape of a run of [solve]: [k] passes, none of the states before
    the last one passing the exit test on the norm, and the last one
    passing it or reaching the cap. *)
Lemma solve_loop_run (self : LucasEconomy) (Pfunc_0 : option Pfunc)
      (logDGrid : option vector) (tol : R) (maxIter : Z) (disp : bool)
      (st : LoopState) :
  solve_loop self Pfunc_0 logDGrid tol maxIter disp = Ok st ->
  exists g P0 k,
    solve_grid self logDGrid = Ok g
    /\ call_vec (solve_guess Pfunc_0) g = Ok P0
    /\ iterate k self g disp (solve_init Pfunc_0 P0 tol) = Ok st
    /\ it st = Z.of_nat k
    /\ (forall j, (j < k)%nat ->
          exists stj, iterate j self g disp (solve_init Pfunc_0 P0 tol) = Ok stj
                      /\ norm stj > tol /\ (Z.of_nat j < maxIter)%Z)
    /\ (norm st <= tol \/ (maxIter <= Z.of_nat k)%Z).
Proof.
  intros H. apply solve_loop_inv in H. destruct H as (g & P0 & Hg & HP & Hw).
  apply solve_while_iterate in Hw. destruct Hw as (k & Hk & Hbefore & Hexit).
  pose proof (iterate_it _ _ _ _ _ _ Hk) as Hit. simpl in Hit.
  exists g, P0, k. repeat split; try assumption.
  - intros j Hj. destruct (Hbefore j Hj) as (stj & Hj1 & Hj2 & Hj3).
    exists stj. pose proof (iterate_it _ _ _ _ _ _ Hj1) as Hitj.
    simpl in Hitj. repeat split; try assumption. lia.
  - rewrite <- Hit. exact Hexit.
Qed.

(** With a positive cap the loop body runs at least once. *)
Lemma solve_loop_first_pass (self : LucasEconomy) (Pfunc_0 : option Pfunc)
      (g P0 : vector) (tol : R) (maxIter : Z) (disp : bool) (k : nat)
      (st : LoopState) :
  (0 < maxIter)%Z ->
  iterate k self g disp (solve_init Pfunc_0 P0 tol) = Ok st ->
  norm st <= tol \/ (maxIter <= Z.of_nat k)%Z ->
  (1 <= k)%nat.
Proof.
  intros Hmax Hk Hexit. destruct k as [|k]; [|lia].
  simpl in Hk. inversion Hk; subst st. simpl in Hexit.
  destruct Hexit; [lra | lia].
Qed.

Lemma iterate_interp (k : nat) (self : LucasEconomy) (g : vector)
      (disp : bool) (st stk : LoopState) :
  (1 <= k)%nat -> iterate k self g disp st = Ok stk ->
  exists vals, Pf_0 stk = LinearInterp g vals true
               /\ length vals = length g.
Proof.
  intros Hk H. destruct k as [|k]; [lia|].
  simpl in H. monad_inv_as H Hprev.
  eapply solve_body_interp. exact H.
Qed.

(** *** The example economies *)

Lemma ln_2_pos : 0 < ln 2.
Proof. pose proof ln_lt_2. lra. Qed.

Lemma two_point_grid_increasing : increasing two_point_grid.
Proof. simpl. split; [apply ln_2_pos | exact I]. Qed.

Lemma steady_aligned (beta : R) : shocks_aligned (DivProc (steady_economy beta)).
Proof. split; reflexivity. Qed.

Lemma uP_1 (self : LucasEconomy) : uP self 1 = 1.
Proof.
  unfold uP, CRRAutilityP, Rpower. rewrite ln_1, Rmult_0_r. apply exp_0.
Qed.

Lemma pricing_rhs_steady (beta : R) (fv : R -> R) (x : R) :
  pricing_rhs (steady_economy beta) fv x = beta * (fv x + exp x).
Proof.
  unfold pricing_rhs. simpl.
  replace (1 * x + 0) with x by ring.
  replace (exp x / exp x) with 1 by (field; apply exp_neq_0).
  rewrite uP_1. unfold Rsum. simpl. ring.
Qed.

Lemma next_prices_steady_zero (beta : R) :
  next_prices (steady_economy beta) (ConstantFunction 0) two_point_grid
  = [beta; 2 * beta].
Proof.
  unfold next_prices, two_point_grid. simpl.
  rewrite !pricing_rhs_steady. unfold value. simpl.
  rewrite exp_0, exp_ln by lra. f_equal; [ring|]. f_equal. ring.
Qed.

Lemma solve_while_exit (fuel : nat) (self : LucasEconomy) (g : vector)
      (tol : R) (maxIter : Z) (disp : bool) (st : LoopState) :
  norm st <= tol \/ (maxIter <= it st)%Z ->
  solve_while fuel self g tol maxIter disp st = Ok st.
Proof.
  intros H. apply loop_guard_false in H.
  destruct fuel; simpl; rewrite H; reflexivity.
Qed.

Lemma steady_first_norm (beta tol : R) (disp : bool) :
  norm (next_state (steady_economy beta) two_point_grid disp
          (solve_init None [0; 0] tol))
  = sqrt (5 * beta ^ 2).
Proof.
  unfold next_state, solve_init, solve_guess. cbn [norm Pf_0 P_0].
  rewrite next_prices_steady_zero.
  unfold price_change, np_linalg_norm, Rsum, Rsqr. simpl.
  f_equal. ring.
Qed.

(** [solve] stops after its first pass when that pass meets the tolerance
    or the cap is one. *)
Lemma solve_loop_first_pass_exit (self : LucasEconomy)
      (Pfunc_0 : option Pfunc) (logDGrid P0 : vector) (tol : R) (maxIter : Z)
      (disp : bool) :
  shocks_aligned (DivProc self) ->
  increasing logDGrid -> (2 <= length logDGrid)%nat ->
  defined_on_transitions self (solve_guess Pfunc_0) logDGrid ->
  call_vec (solve_guess Pfunc_0) logDGrid = Ok P0 ->
  (1 <= maxIter)%Z ->
  norm (next_state self logDGrid disp (solve_init Pfunc_0 P0 tol)) <= tol
  \/ maxIter = 1%Z ->
  solve_loop self Pfunc_0 (Some logDGrid) tol maxIter disp
  = Ok (next_state self logDGrid disp (solve_init Pfunc_0 P0 tol)).
Proof.
  intros Hal Hinc Hlen Hdef HP Hmax Hexit.
  unfold solve_loop, solve_grid. cbn [bind]. rewrite HP. cbn [bind].
  change {| Pf_0 := solve_guess Pfunc_0; P_0 := P0; norm := tol + 1;
            it := 0; stdout := [] |} with (solve_init Pfunc_0 P0 tol).
  set (st0 := solve_init Pfunc_0 P0 tol) in *.
  destruct (Z.to_nat maxIter) as [|fuel] eqn:Hfuel; [lia|].
  unfold solve_while at 1.
  assert (G : Rgtb (norm st0) tol && (it st0 <? maxIter)%Z = true)
    by (apply loop_guard_true; simpl; split; [lra | lia]).
  rewrite G.
  rewrite solve_body_next_state;
    [ | assumption | assumption | assumption | exact Hdef
      | apply (mapM_length _ _ _ HP) ].
  cbn [bind]. fold solve_while. apply solve_while_exit.
  destruct Hexit as [Hn|Hc]; [left; exact Hn | right; simpl; lia].
Qed.

(** [solve] on the steady economy from the zero function stops after its
    first pass when that pass meets the tolerance or the cap is one. *)
Lemma steady_first_pass_exit (beta tol : R) (maxIter : Z) (disp : bool) :
  (1 <= maxIter)%Z ->
  sqrt (5 * beta ^ 2) <= tol \/ maxIter = 1%Z ->
  solve_loop (steady_economy beta) None (Some two_point_grid) tol maxIter disp
  = Ok (next_state (steady_economy beta) two_point_grid disp
          (solve_init None [0; 0] tol)).
Proof.
  intros Hmax Hexit. apply solve_loop_first_pass_exit.
  - apply steady_aligned.
  - apply two_point_grid_increasing.
  - simpl. lia.
  - apply ConstantFunction_defined_on_transitions.
  - reflexivity.
  - exact Hmax.
  - rewrite steady_first_norm. exact Hexit.
Qed.

(** One pass of [solve] on the steady economy from the zero function. *)
Lemma steady_one_pass (beta tol : R) (disp : bool) :
  solve_loop (steady_economy beta) None (Some two_point_grid) tol 1 disp
  = Ok (next_state (steady_economy beta) two_point_grid disp
          (solve_init None [0; 0] tol)).
Proof. apply steady_first_pass_exit; [lia | right; reflexivity]. Qed.

Lemma steady_solve_first_pass (beta tol : R) (maxIter : Z) :
  (1 <= maxIter)%Z ->
  sqrt (5 * beta ^ 2) <= tol \/ maxIter = 1%Z ->
  solve (steady_economy beta) None (Some two_point_grid) tol maxIter false
  = Ok (steady_outcome beta).
Proof.
  intros Hmax Hexit.
  unfold solve. rewrite steady_first_pass_exit by assumption. cbn [bind].
  unfold next_state, solve_init, solve_guess. cbn [Pf_0 P_0 stdout].
  rewrite next_prices_steady_zero. reflexivity.
Qed.

Lemma steady_solve (beta tol : R) :
  solve (steady_economy beta) None (Some two_point_grid) tol 1 false
  = Ok (steady_outcome beta).
Proof. apply steady_solve_first_pass; [lia | right; reflexivity]. Qed.

(** With a cap of zero the loop of [solve] is not entered. *)
Lemma steady_no_pass (beta tol : R) :
  solve (steady_economy beta) None (Some two_point_grid) tol 0 false
  = Ok (steady_untouched beta).
Proof.
  unfold solve, solve_loop, solve_grid, solve_guess. cbn [bind].
  rewrite call_vec_ConstantFunction. cbn [bind].
  rewrite solve_while_exit by (right; simpl; lia).
  reflexivity.
Qed.

Lemma sqrt_bounds (a x b : R) :
  0 <= a -> 0 <= b -> a * a <= x -> x <= b * b -> a <= sqrt x <= b.
Proof.
  intros Ha Hb Hax Hxb. split.
  - rewrite <- (sqrt_square a) by exact Ha. apply sqrt_le_1_alt. exact Hax.
  - rewrite <- (sqrt_square b) by exact Hb. apply sqrt_le_1_alt. exact Hxb.
Qed.

(** *** The one-period operator computes the pricing equation *)

(** C2.  For every candidate function [f], grid and grid point [x], the
    value [priceOnePeriod] computes at [x] is the discount factor times the
    sum over the shock nodes of [pmf_k * u'(exp(alpha x + s_k) / exp x) *
    (f(alpha x + s_k) + exp(alpha x + s_k))], with [u'] the CRRA marginal
    utility [c ^ (- CRRA)]; what it returns is the piecewise-linear
    interpolant, with lower extrapolation, of exactly these values over the
    grid, which on an increasing grid takes these values at the grid
    points. *)
Theorem priceOnePeriod_pricing_equation
        (self : LucasEconomy) (f : Pfunc) (fv : R -> R) (logDGrid : vector) :
  shocks_aligned (DivProc self) ->
  (forall x s, In x logDGrid -> In s (X (ShkAppDstn (DivProc self))) ->
     call f (alpha (DivProc self) * x + s)
     = Ok (fv (alpha (DivProc self) * x + s))) ->
  priceOnePeriod self f logDGrid
  = Ok (LinearInterp logDGrid (map (pricing_rhs self fv) logDGrid) true)
  /\ (forall c, uP self c = Rpower c (- CRRA self))
  /\ (increasing logDGrid -> (2 <= length logDGrid)%nat ->
      forall j, (j < length logDGrid)%nat ->
        call (LinearInterp logDGrid (map (pricing_rhs self fv) logDGrid) true)
             (nth j logDGrid 0)
        = Ok (pricing_rhs self fv (nth j logDGrid 0))).
Proof.
  intros Hal Hf. split; [apply priceOnePeriod_values; assumption|].
  split; [reflexivity|].
  intros Hinc Hlen j Hj.
  rewrite LinearInterp_at_grid;
    [ | assumption | assumption | apply length_map | assumption ].
  f_equal. rewrite <- (map_nth (pricing_rhs self fv)).
  apply nth_indep. rewrite length_map. exact Hj.
Qed.

Lemma priceOnePeriod_pricing_equation_witness :
  priceOnePeriod (steady_economy (1 / 2)) (ConstantFunction 0) two_point_grid
  = Ok (LinearInterp two_point_grid
          (map (pricing_rhs (steady_economy (1 / 2)) (fun _ => 0))
               two_point_grid) true).
Proof.
  apply (priceOnePeriod_pricing_equation (steady_economy (1 / 2))
           (ConstantFunction 0) (fun _ => 0) two_point_grid).
  - apply steady_aligned.
  - intros x s _ _. reflexivity.
Defined.

(** *** Termination of [solve] *)

(** The norm a pass records is the Euclidean norm of the change in the
    prices at the grid points, written out. *)
Lemma solve_body_euclidean (self : LucasEconomy) (logDGrid : vector)
      (disp : bool) (st st' : LoopState) :
  solve_body self logDGrid disp st = Ok st' ->
  length (P_0 st) = length (P_0 st')
  /\ norm st'
     = sqrt (fold_right Rplus 0
               (map (fun ab : R * R => Rsqr (fst ab - snd ab))
                    (combine (P_0 st) (P_0 st')))).
Proof.
  intros H. apply solve_body_inv in H.
  destruct H as (_ & _ & (diff & Hdiff & Hnorm) & _).
  unfold vec_op in Hdiff. pose proof (zipM_length _ _ _ _ Hdiff) as [Hlen _].
  split; [exact Hlen|].
  rewrite (zipM_total2 Rminus _ _ Hlen) in Hdiff. inversion Hdiff; subst diff.
  rewrite Hnorm. unfold np_linalg_norm, Rsum. rewrite map_map. reflexivity.
Qed.

(** The prices a state of the loop holds are its function at the grid. *)
Lemma iterate_prices (k : nat) (self : LucasEconomy) (g P0 : vector)
      (Pfunc_0 : option Pfunc) (tol : R) (disp : bool) (st : LoopState) :
  call_vec (solve_guess Pfunc_0) g = Ok P0 ->
  iterate k self g disp (solve_init Pfunc_0 P0 tol) = Ok st ->
  call_vec (Pf_0 st) g = Ok (P_0 st).
Proof.
  intros HP Hk. destruct k as [|k].
  - simpl in Hk. inversion Hk; subst st. exact HP.
  - simpl in Hk. monad_inv Hk. apply solve_body_inv in Hk. apply Hk.
Qed.

(** C4.  For every guess, grid, tolerance and non-negative cap [maxIter],
    [solve] terminates: its loop makes some number [k] of passes with
    [k <= maxIter].  Each pass applies the one-period operator once, to the
    function the pass before left, evaluates the new function at the grid,
    and records the Euclidean norm of the difference between the previous
    and the new grid evaluations: the square root of the sum of the squares
    of the differences.  After each of the passes before the last the norm
    was still above the tolerance, and the loop stops at the first pass
    after which the norm is at or below the tolerance, or else at pass
    [maxIter]. *)
Theorem solve_terminates_within_cap
        (self : LucasEconomy) (Pfunc_0 : option Pfunc)
        (logDGrid : option vector) (tol : R) (maxIter : Z) (disp : bool) :
  (0 <= maxIter)%Z ->
  finishes (solve self Pfunc_0 logDGrid tol maxIter disp)
  /\ forall st,
       solve_loop self Pfunc_0 logDGrid tol maxIter disp = Ok st ->
       exists g P0 k,
         solve_grid self logDGrid = Ok g
         /\ call_vec (solve_guess Pfunc_0) g = Ok P0
         /\ iterate k self g disp
              {| Pf_0 := solve_guess Pfunc_0; P_0 := P0; norm := tol + 1;
                 it := 0; stdout := [] |} = Ok st
         /\ it st = Z.of_nat k
         /\ (Z.of_nat k <= maxIter)%Z
         /\ (forall j, (j < k)%nat ->
               exists stj stj',
                 iterate j self g disp (solve_init Pfunc_0 P0 tol) = Ok stj
                 /\ norm stj > tol
                 /\ iterate (S j) self g disp (solve_init Pfunc_0 P0 tol)
                    = Ok stj'
                 /\ priceOnePeriod self (Pf_0 stj) g = Ok (Pf_0 stj')
                 /\ call_vec (Pf_0 stj) g = Ok (P_0 stj)
                 /\ call_vec (Pf_0 stj') g = Ok (P_0 stj')
                 /\ length (P_0 stj) = length (P_0 stj')
                 /\ norm stj'
                    = sqrt (fold_right Rplus 0
                              (map (fun ab : R * R => Rsqr (fst ab - snd ab))
                                   (combine (P_0 stj) (P_0 stj'))))
                 /\ ((S j < k)%nat -> norm stj' > tol))
         /\ (norm st <= tol \/ Z.of_nat k = maxIter).
Proof.
  intros Hmax. split.
  { unfold solve. apply bind_finishes; [apply solve_loop_finishes|].
    intros st _. exact I. }
  intros st H. apply solve_loop_run in H.
  destruct H as (g & P0 & k & Hg & HP & Hk & Hit & Hbefore & Hexit).
  assert (Hcap : (Z.of_nat k <= maxIter)%Z).
  { destruct k as [|k]; [simpl; exact Hmax|].
    destruct (Hbefore k ltac:(lia)) as (stj & _ & _ & Hlt). lia. }
  exists g, P0, k. repeat split; try assumption.
  - intros j Hj. destruct (Hbefore j Hj) as (stj & Hj1 & Hj2 & _).
    destruct (iterate_prefix _ (S j) _ _ _ _ _ Hk ltac:(lia)) as [stj' Hj'].
    exists stj, stj'.
    pose proof Hj' as Hbody. simpl in Hbody. rewrite Hj1 in Hbody.
    cbn [bind] in Hbody.
    pose proof (solve_body_euclidean _ _ _ _ _ Hbody) as [Hlen Hnorm].
    pose proof (iterate_prices _ _ _ _ _ _ _ _ HP Hj1) as Hprev.
    apply solve_body_inv in Hbody.
    destruct Hbody as (Hprice & Hnext & _).
    repeat split; try assumption.
    intros Hlater. destruct (Hbefore (S j) Hlater) as (st2 & H2 & Hgt & _).
    rewrite Hj' in H2. inversion H2; subst st2. exact Hgt.
  - destruct Hexit as [Hn|Hc]; [left; exact Hn | right; lia].
Qed.

Lemma solve_terminates_within_cap_witness :
  let self := steady_economy (1 / 2) in
  let st := next_state self two_point_grid false (solve_init None [0; 0] 1) in
  exists g P0 k,
    solve_grid self (Some two_point_grid) = Ok g
    /\ call_vec (solve_guess None) g = Ok P0
    /\ iterate k self g false
         {| Pf_0 := solve_guess None; P_0 := P0; norm := 1 + 1;
            it := 0; stdout := [] |} = Ok st
    /\ it st = Z.of_nat k
    /\ (Z.of_nat k <= 1)%Z
    /\ (forall j, (j < k)%nat ->
          exists stj stj',
            iterate j self g false (solve_init None P0 1) = Ok stj
            /\ norm stj > 1
            /\ iterate (S j) self g false (solve_init None P0 1) = Ok stj'
            /\ priceOnePeriod self (Pf_0 stj) g = Ok (Pf_0 stj')
            /\ call_vec (Pf_0 stj) g = Ok (P_0 stj)
            /\ call_vec (Pf_0 stj') g = Ok (P_0 stj')
            /\ length (P_0 stj) = length (P_0 stj')
            /\ norm stj'
               = sqrt (fold_right Rplus 0
                         (map (fun ab : R * R => Rsqr (fst ab - snd ab))
                              (combine (P_0 stj) (P_0 stj'))))
            /\ ((S j < k)%nat -> norm stj' > 1))
    /\ (norm st <= 1 \/ Z.of_nat k = 1%Z).
Proof.
  exact (proj2 (solve_terminates_within_cap (steady_economy (1 / 2)) None
                  (Some two_point_grid) 1 1 false ltac:(lia))
               _ (steady_one_pass (1 / 2) 1 false)).
Defined.

(** *** The grid is fixed during a solve *)

(** C5, the claim as stated fails.  With a cap of zero the loop is not
    entered, and what [solve] leaves is the initial guess, here the
    constant-zero function, which is no interpolant over the grid. *)
Lemma final_function_without_pass :
  solve (steady_economy (1 / 2)) None (Some two_point_grid) default_tol 0 false
  = Ok (steady_untouched (1 / 2))
  /\ EqlogPfun (economy (steady_untouched (1 / 2))) = Some (ConstantFunction 0)
  /\ ~ final_function_on_grid.
Proof.
  split; [apply steady_no_pass|]. split; [reflexivity|].
  intros Hclaim.
  destruct (Hclaim _ _ _ _ _ _ _ (steady_no_pass (1 / 2) default_tol))
    as (vals & ext & H).
  discriminate H.
Qed.

(** C5, as amended.  During a call of [solve], the function every pass of
    the loop produces is an interpolant over the grid the call started
    with, with one value per grid point: only the values differ from pass
    to pass.  The function the call leaves in [EqlogPfun] is the one the
    last pass produced, hence such an interpolant, whenever the cap allows
    a pass ([maxIter >= 1]); with no pass it is the initial guess
    itself. *)
Theorem solve_keeps_grid
        (self : LucasEconomy) (Pfunc_0 : option Pfunc)
        (logDGrid : option vector) (tol : R) (maxIter : Z) (disp : bool)
        (out : SolveOutcome) :
  solve self Pfunc_0 logDGrid tol maxIter disp = Ok out ->
  exists g P0,
    solve_grid self logDGrid = Ok g
    /\ call_vec (solve_guess Pfunc_0) g = Ok P0
    /\ (forall k stk, (1 <= k)%nat ->
          iterate k self g disp (solve_init Pfunc_0 P0 tol) = Ok stk ->
          exists vals, Pf_0 stk = LinearInterp g vals true
                       /\ length vals = length g)
    /\ (exists k st,
          iterate k self g disp (solve_init Pfunc_0 P0 tol) = Ok st
          /\ EqlogPfun (economy out) = Some (Pf_0 st))
    /\ ((0 < maxIter)%Z ->
        exists vals, EqlogPfun (economy out) = Some (LinearInterp g vals true)
                     /\ length vals = length g)
    /\ ((maxIter <= 0)%Z ->
        EqlogPfun (economy out) = Some (solve_guess Pfunc_0)).
Proof.
  intros H. apply solve_inv in H. destruct H as (st & Hloop & _ & HEq & _).
  apply solve_loop_run in Hloop.
  destruct Hloop as (g & P0 & k & Hg & HP & Hk & Hit & Hbefore & Hexit).
  exists g, P0. repeat split; try assumption.
  - intros j stj Hj Hstj. eapply iterate_interp; eassumption.
  - exists k, st. split; assumption.
  - intros Hmax. rewrite HEq.
    assert (Hk1 : (1 <= k)%nat)
      by (eapply solve_loop_first_pass; eassumption).
    destruct (iterate_interp _ _ _ _ _ _ Hk1 Hk) as (vals & Hv & Hl).
    exists vals. rewrite Hv. split; [reflexivity | exact Hl].
  - intros Hmax. rewrite HEq. destruct k as [|k].
    + simpl in Hk. inversion Hk. reflexivity.
    + destruct (Hbefore k ltac:(lia)) as (stj & _ & _ & Hlt). lia.
Qed.

Lemma solve_keeps_grid_witness :
  exists g P0,
    solve_grid (steady_economy (1 / 2)) (Some two_point_grid) = Ok g
    /\ call_vec (solve_guess None) g = Ok P0
    /\ (forall k stk, (1 <= k)%nat ->
          iterate k (steady_economy (1 / 2)) g false
                  (solve_init None P0 default_tol) = Ok stk ->
          exists vals, Pf_0 stk = LinearInterp g vals true
                       /\ length vals = length g)
    /\ (exists k st,
          iterate k (steady_economy (1 / 2)) g false
                  (solve_init None P0 default_tol) = Ok st
          /\ EqlogPfun (economy (steady_outcome (1 / 2))) = Some (Pf_0 st))
    /\ ((0 < 1)%Z ->
        exists vals,
          EqlogPfun (economy (steady_outcome (1 / 2)))
          = Some (LinearInterp g vals true)
          /\ length vals = length g)
    /\ ((1 <= 0)%Z ->
        EqlogPfun (economy (steady_outcome (1 / 2)))
        = Some (solve_guess None)).
Proof.
  apply (solve_keeps_grid (steady_economy (1 / 2)) None (Some two_point_grid)
           default_tol 1 false (steady_outcome (1 / 2))).
  apply steady_solve.
Defined.

(** *** The two faces of the solution *)

(** C6.  After [solve] the solution is kept as [EqlogPfun], a function of
    the log-dividend, and seen through [EqPfun] as a function of the
    dividend level; the two agree under exponentiation: [EqPfun (exp x)] is
    [EqlogPfun x] for every real [x], and [EqPfun d] is [EqlogPfun (ln d)]
    for every [d > 0]. *)
Theorem EqPfun_agrees_with_EqlogPfun
        (self : LucasEconomy) (Pfunc_0 : option Pfunc)
        (logDGrid : option vector) (tol : R) (maxIter : Z) (disp : bool)
        (out : SolveOutcome) :
  solve self Pfunc_0 logDGrid tol maxIter disp = Ok out ->
  exists f,
    EqlogPfun (economy out) = Some f
    /\ (forall x, EqPfun (economy out) (exp x) = call f x)
    /\ (forall d, 0 < d -> EqPfun (economy out) d = call f (ln d)).
Proof.
  intros H. apply solve_inv in H. destruct H as (st & _ & _ & HEq & _).
  exists (Pf_0 st). split; [exact HEq|]. unfold EqPfun. rewrite HEq. split.
  - intros x. destruct (Rlt_dec 0 (exp x)) as [_|Hn].
    + rewrite ln_exp. reflexivity.
    + exfalso. apply Hn. apply exp_pos.
  - intros d Hd. destruct (Rlt_dec 0 d); [reflexivity | contradiction].
Qed.

Lemma EqPfun_agrees_with_EqlogPfun_witness :
  exists f,
    EqlogPfun (economy (steady_outcome (1 / 2))) = Some f
    /\ (forall x, EqPfun (economy (steady_outcome (1 / 2))) (exp x) = call f x)
    /\ (forall d, 0 < d ->
          EqPfun (economy (steady_outcome (1 / 2))) d = call f (ln d)).
Proof.
  apply (EqPfun_agrees_with_EqlogPfun (steady_economy (1 / 2)) None
           (Some two_point_grid) default_tol 1 false).
  apply steady_solve.
Defined.

(** *** Extrapolation below the grid *)

(** From the lower bound of its grid upwards an interpolant gives the same
    value with and without lower extrapolation. *)
Lemma LinearInterp_eval_not_below (x_list y_list : vector) (x : R) :
  nth 0 x_list 0 <= x ->
  LinearInterp_eval x_list y_list false x
  = LinearInterp_eval x_list y_list true x.
Proof.
  intros Hx. unfold LinearInterp_eval.
  repeat match goal with
         | |- bind ?m _ = bind ?m _ =>
             destruct m eqn:?; cbn [bind]; [ | reflexivity ]
         end.
  match goal with
  | H : index x_list 0 = Ok ?m |- _ =>
      assert (Hmin : m = nth 0 x_list 0)
        by (destruct x_list; unfold index in H; simpl in H;
            [discriminate H | inversion H; reflexivity]);
      rewrite Hmin
  end.
  unfold Rltb.
  destruct (Rlt_dec x (nth 0 x_list 0)) as [Hlt|_]; [lra|].
  rewrite andb_false_r. reflexivity.
Qed.

Lemma bounded_guess_on_grid : call_vec bounded_guess two_point_grid = Ok [2; 4].
Proof.
  pose proof ln_2_pos as H2.
  transitivity (call_vec (LinearInterp two_point_grid [2; 4] true)
                         two_point_grid).
  - unfold call_vec, bounded_guess, two_point_grid. cbn [mapM call].
    rewrite !LinearInterp_eval_not_below by (simpl; lra). reflexivity.
  - apply call_vec_at_grid;
      [apply two_point_grid_increasing | simpl; lia | reflexivity].
Qed.

(** C7, the claim as stated fails, twice.  Over a grid of a single point
    the function [priceOnePeriod] returns has no segment to extend, and
    evaluating it, below the grid as anywhere, is an index error.  And with
    a cap of zero [solve] leaves the guess as it was: a guess without lower
    extrapolation is then out of its domain below the grid. *)
Lemma below_grid_out_of_domain :
  priceOnePeriod (steady_economy (1 / 2)) (ConstantFunction 0) [0]
  = Ok (LinearInterp [0] [1 / 2] true)
  /\ call (LinearInterp [0] [1 / 2] true) (-1) = Err IndexError
  /\ ~ operator_result_defined_below_grid
  /\ (exists out,
        solve (steady_economy (1 / 2)) (Some bounded_guess)
              (Some two_point_grid) default_tol 0 false = Ok out
        /\ EqlogPfun (economy out) = Some bounded_guess)
  /\ call bounded_guess (-1) = Err NotFinite
  /\ ~ solve_result_defined_below_grid.
Proof.
  assert (Hone : priceOnePeriod (steady_economy (1 / 2)) (ConstantFunction 0)
                                [0]
                 = Ok (LinearInterp [0] [1 / 2] true)).
  { rewrite (priceOnePeriod_values _ _ (fun _ => 0) [0]
               (steady_aligned (1 / 2)))
      by (intros; reflexivity).
    cbn [map]. rewrite pricing_rhs_steady, exp_0.
    do 3 f_equal. lra. }
  assert (Hidx : call (LinearInterp [0] [1 / 2] true) (-1) = Err IndexError)
    by reflexivity.
  assert (Hsolve : solve (steady_economy (1 / 2)) (Some bounded_guess)
                         (Some two_point_grid) default_tol 0 false
                   = Ok {| returned := tt;
                           economy := {| CRRA := 1; DiscFac := 1 / 2;
                                         DivProc := steady_process;
                                         EqlogPfun := Some bounded_guess |};
                           printed := [] |}).
  { unfold solve, solve_loop, solve_grid, solve_guess. cbn [bind].
    rewrite bounded_guess_on_grid. cbn [bind].
    rewrite solve_while_exit by (right; simpl; lia).
    reflexivity. }
  assert (Hout : call bounded_guess (-1) = Err NotFinite).
  { apply LinearInterp_no_extrap_below;
      [apply two_point_grid_increasing | simpl; lia | reflexivity
       | simpl; lra]. }
  split; [exact Hone|]. split; [exact Hidx|]. split.
  { intros Hclaim.
    destruct (Hclaim _ _ _ _ (-1) Hone ltac:(discriminate)) as [v Hv].
    - intros y [Hy|[]]. subst y. lra.
    - rewrite Hidx in Hv. discriminate Hv. }
  split; [eexists; split; [exact Hsolve | reflexivity]|].
  split; [exact Hout|].
  intros Hclaim.
  destruct (Hclaim _ _ _ _ _ _ _ bounded_guess (-1) Hsolve eq_refl
              ltac:(discriminate)) as [v Hv].
  - pose proof ln_2_pos. intros y [Hy|[Hy|[]]]; subst y; lra.
  - rewrite Hout in Hv. discriminate Hv.
Qed.

(** C7, as amended.  Over an increasing grid of two points or more, the
    function [priceOnePeriod] returns is built with lower extrapolation: at
    a log-dividend strictly below the first point of the grid it gives the
    value of its first segment extended, where the same interpolant without
    lower extrapolation is out of its domain.  This carries over to [solve]
    whenever the cap allows a pass of the loop ([maxIter >= 1]): what it
    leaves in [EqlogPfun] is then a function [priceOnePeriod] returned for
    the grid, and gives that value below it.  With no pass [solve] leaves
    the guess as it was. *)
Theorem priceOnePeriod_extrapolates_below
        (self : LucasEconomy) (logDGrid : vector) (x : R) :
  increasing logDGrid -> (2 <= length logDGrid)%nat ->
  x < nth 0 logDGrid 0 ->
  (forall f g, priceOnePeriod self f logDGrid = Ok g ->
     exists vals,
       g = LinearInterp logDGrid vals true
       /\ call g x = Ok (first_segment logDGrid vals x)
       /\ call (LinearInterp logDGrid vals false) x = Err NotFinite)
  /\ (forall Pfunc_0 tol maxIter disp out,
        solve self Pfunc_0 (Some logDGrid) tol maxIter disp = Ok out ->
        ((0 < maxIter)%Z ->
         exists f vals,
           priceOnePeriod self f logDGrid
           = Ok (LinearInterp logDGrid vals true)
           /\ EqlogPfun (economy out) = Some (LinearInterp logDGrid vals true)
           /\ call (LinearInterp logDGrid vals true) x
              = Ok (first_segment logDGrid vals x))
        /\ ((maxIter <= 0)%Z ->
            EqlogPfun (economy out) = Some (solve_guess Pfunc_0))).
Proof.
  intros Hinc Hlen Hx. split.
  - intros f g H. apply priceOnePeriod_shape in H.
    destruct H as (vals & Hg & Hl). exists vals. subst g.
    split; [reflexivity|]. split.
    + apply LinearInterp_below_grid; assumption.
    + apply LinearInterp_no_extrap_below; assumption.
  - intros Pfunc_0 tol maxIter disp out H.
    apply solve_inv in H. destruct H as (st & Hloop & _ & HEq & _).
    apply solve_loop_run in Hloop.
    destruct Hloop as (g & P0 & k & Hg & HP & Hk & Hit & Hbefore & Hexit).
    simpl in Hg. inversion Hg; subst g. rewrite HEq. split.
    + intros Hmax.
      assert (Hk1 : (1 <= k)%nat)
        by (eapply solve_loop_first_pass; eassumption).
      destruct k as [|k]; [lia|].
      simpl in Hk. monad_inv_as Hk Hprev.
      apply solve_body_inv in Hk. destruct Hk as (Hprice & _).
      pose proof Hprice as Hshape. apply priceOnePeriod_shape in Hshape.
      destruct Hshape as (vals & Hv & Hl).
      eexists. exists vals. rewrite <- Hv.
      split; [exact Hprice|]. split; [reflexivity|].
      rewrite Hv. apply LinearInterp_below_grid; assumption.
    + intros Hmax. destruct k as [|k].
      * simpl in Hk. inversion Hk; subst st. reflexivity.
      * destruct (Hbefore k ltac:(lia)) as (stj & _ & _ & Hlt). lia.
Qed.

Lemma priceOnePeriod_extrapolates_below_witness :
  (exists vals,
      priceOnePeriod (steady_economy (1 / 2)) (ConstantFunction 0)
                     two_point_grid
      = Ok (LinearInterp two_point_grid vals true)
      /\ call (LinearInterp two_point_grid vals true) (-1)
         = Ok (first_segment two_point_grid vals (-1))
      /\ call (LinearInterp two_point_grid vals false) (-1) = Err NotFinite)
  /\ (exists f vals,
        priceOnePeriod (steady_economy (1 / 2)) f two_point_grid
        = Ok (LinearInterp two_point_grid vals true)
        /\ EqlogPfun (economy (steady_outcome (1 / 2)))
           = Some (LinearInterp two_point_grid vals true)
        /\ call (LinearInterp two_point_grid vals true) (-1)
           = Ok (first_segment two_point_grid vals (-1))).
Proof.
  destruct (priceOnePeriod_extrapolates_below (steady_economy (1 / 2))
              two_point_grid (-1) two_point_grid_increasing
              ltac:(simpl; lia) ltac:(simpl; lra)) as [Hop Hsolve].
  split.
  - pose proof (priceOnePeriod_next_prices (steady_economy (1 / 2))
                  (ConstantFunction 0) two_point_grid (steady_aligned _)
                  (ConstantFunction_defined_on_transitions _ _ _)) as Hp.
    destruct (Hop _ _ Hp) as (vals & Hg & Hcall & Hno).
    rewrite Hg in Hp, Hcall. exists vals.
    split; [exact Hp|]. split; [exact Hcall | exact Hno].
  - destruct (Hsolve None default_tol 1%Z false _
                (steady_solve (1 / 2) default_tol)) as [Hpass _].
    apply Hpass. lia.
Defined.

(** *** The default grid *)

Lemma np_linspace_points (start stop : R) (num : nat) :
  (2 <= num)%nat ->
  np_linspace start stop num
  = map (fun i => start + INR i * ((stop - start) / INR (num - 1)))
        (seq 0 num).
Proof.
  intros Hn. destruct num as [|[|num]]; [lia | lia | reflexivity].
Qed.

Lemma stationary_bounds (a : R) : Rabs a < 1 <-> 0 < 1 - a ^ 2.
Proof.
  split; intros H.
  - apply Rabs_def2 in H. nra.
  - apply Rabs_def1; nra.
Qed.

Lemma getLogdGrid_stationary (dp : DivProcess) (n : nat) :
  Rabs (alpha dp) < 1 ->
  getLogdGrid dp n
  = Ok (map (fun x => x + uncond_mean dp)
            (np_linspace (-5 * uncond_sd dp) (5 * uncond_sd dp) n)).
Proof.
  intros Ha. pose proof (proj1 (stationary_bounds _) Ha) as Hpos.
  unfold getLogdGrid, np_sqrt.
  destruct (Rlt_dec (1 - alpha dp ^ 2) 0) as [Hneg|_]; [lra|]. cbn [bind].
  rewrite np_divide_ok
    by (pose proof (sqrt_lt_R0 _ Hpos); lra). cbn [bind].
  rewrite np_divide_ok by (apply Rabs_def2 in Ha; lra). cbn [bind].
  reflexivity.
Qed.

Lemma getLogdGrid_not_stationary (dp : DivProcess) (n : nat) :
  ~ Rabs (alpha dp) < 1 -> getLogdGrid dp n = Err NotFinite.
Proof.
  intros Ha. unfold getLogdGrid, np_sqrt.
  destruct (Rlt_dec (1 - alpha dp ^ 2) 0) as [Hneg|Hnn]; [reflexivity|].
  cbn [bind].
  assert (H0 : 1 - alpha dp ^ 2 = 0).
  { destruct (Rtotal_order (1 - alpha dp ^ 2) 0) as [Hlt|[Heq|Hgt]];
      [contradiction | exact Heq |].
    exfalso. apply Ha. apply stationary_bounds. exact Hgt. }
  rewrite H0, sqrt_0. unfold np_divide at 1.
  destruct (Req_dec_T 0 0) as [_|Hne]; [reflexivity | contradiction].
Qed.

Lemma getLogdGrid_symmetric_grid (dp : DivProcess) (n : nat) :
  Rabs (alpha dp) < 1 -> (2 <= n)%nat ->
  getLogdGrid dp n = Ok (symmetric_grid dp n).
Proof.
  intros Ha Hn. rewrite getLogdGrid_stationary by exact Ha.
  rewrite np_linspace_points by exact Hn. rewrite map_map.
  f_equal. unfold symmetric_grid. apply map_ext. intros i.
  unfold Rdiv. ring.
Qed.

Lemma symmetric_grid_length (dp : DivProcess) (n : nat) :
  length (symmetric_grid dp n) = n.
Proof. unfold symmetric_grid. rewrite length_map. apply length_seq. Qed.

Lemma nth_map_seq (f : nat -> R) (n i : nat) (d : R) :
  (i < n)%nat -> nth i (map f (seq 0 n)) d = f i.
Proof.
  intros Hi. rewrite (nth_indep _ d (f O))
    by (rewrite length_map, length_seq; exact Hi).
  rewrite map_nth, seq_nth by exact Hi. reflexivity.
Qed.

Lemma symmetric_grid_nth (dp : DivProcess) (n i : nat) :
  (i < n)%nat ->
  nth i (symmetric_grid dp n) 0
  = uncond_mean dp - 5 * uncond_sd dp
    + INR i * (10 * uncond_sd dp / INR (n - 1)).
Proof.
  intros Hi. unfold symmetric_grid. rewrite nth_map_seq by exact Hi.
  reflexivity.
Qed.

Lemma increasing_map_seq (f : nat -> R) (s n : nat) :
  (forall i, f i < f (S i)) -> increasing (map f (seq s n)).
Proof.
  intros Hf. revert s. induction n as [|n IH]; intros s; [exact I|].
  destruct n as [|n]; [exact I|].
  change (increasing (f s :: map f (seq (S s) (S n)))).
  pose proof (IH (S s)) as IHs. simpl in *. split; [apply Hf | exact IHs].
Qed.

Lemma uncond_sd_pos (dp : DivProcess) :
  Rabs (alpha dp) < 1 -> 0 < shock_sd dp -> 0 < uncond_sd dp.
Proof.
  intros Ha Hsd. unfold uncond_sd. apply Rdiv_lt_0_compat; [exact Hsd|].
  apply sqrt_lt_R0. apply stationary_bounds. exact Ha.
Qed.

Lemma symmetric_grid_increasing (dp : DivProcess) (n : nat) :
  Rabs (alpha dp) < 1 -> 0 < shock_sd dp -> (2 <= n)%nat ->
  increasing (symmetric_grid dp n).
Proof.
  intros Ha Hsd Hn. unfold symmetric_grid. apply increasing_map_seq.
  intros i. rewrite S_INR.
  assert (Hstep : 0 < 10 * uncond_sd dp / INR (n - 1)).
  { apply Rdiv_lt_0_compat.
    - pose proof (uncond_sd_pos dp Ha Hsd). lra.
    - apply lt_0_INR. lia. }
  lra.
Qed.

Lemma ar1_stationary : Rabs (alpha ar1_process) < 1.
Proof. simpl. apply Rabs_def1; lra. Qed.




(** *** The default grid needs a stationary process *)

(** C10.  [getLogdGrid] gives a grid exactly when [|alpha| < 1]: it divides
    by [sqrt (1 - alpha ^ 2)] and by [1 - alpha].  Under that condition,
    with [shock_sd > 0] and [n >= 2], it returns exactly [n] points,
    strictly increasing and evenly spaced.  So [solve] without a grid needs
    [|alpha| < 1], and stops without a result otherwise. *)
Theorem getLogdGrid_requires_stationarity (dp : DivProcess) (n : nat) :
  ((exists g, getLogdGrid dp n = Ok g) <-> Rabs (alpha dp) < 1)
  /\ (Rabs (alpha dp) < 1 -> 0 < shock_sd dp -> (2 <= n)%nat ->
      exists g,
        getLogdGrid dp n = Ok g
        /\ length g = n
        /\ increasing g
        /\ (forall i, (S i < n)%nat ->
              nth (S i) g 0 - nth i g 0
              = 10 * uncond_sd dp / INR (n - 1)))
  /\ (forall self Pfunc_0 tol maxIter disp,
        DivProc self = dp -> ~ Rabs (alpha dp) < 1 ->
        solve self Pfunc_0 None tol maxIter disp = Err NotFinite).
Proof.
  split; [|split].
  - split.
    + intros [g Hg]. destruct (Rlt_dec (Rabs (alpha dp)) 1) as [Ha|Ha];
        [exact Ha|].
      rewrite getLogdGrid_not_stationary in Hg by exact Ha. discriminate.
    + intros Ha. eexists. apply getLogdGrid_stationary. exact Ha.
  - intros Ha Hsd Hn. exists (symmetric_grid dp n).
    split; [apply getLogdGrid_symmetric_grid; assumption|].
    split; [apply symmetric_grid_length|].
    split; [apply symmetric_grid_increasing; assumption|].
    intros i Hi. rewrite !symmetric_grid_nth by lia. rewrite S_INR. lra.
  - intros self Pfunc_0 tol maxIter disp Hdp Ha.
    unfold solve, solve_loop, solve_grid. rewrite Hdp.
    rewrite getLogdGrid_not_stationary by exact Ha. reflexivity.
Qed.

Lemma getLogdGrid_requires_stationarity_witness :
  exists g,
    getLogdGrid ar1_process 100 = Ok g
    /\ length g = 100%nat
    /\ increasing g
    /\ (forall i, (S i < 100)%nat ->
          nth (S i) g 0 - nth i g 0
          = 10 * uncond_sd ar1_process / INR (100 - 1)).
Proof.
  apply (proj1 (proj2 (getLogdGrid_requires_stationarity ar1_process 100))).
  - apply ar1_stationary.
  - simpl. lra.
  - lia.
Defined.

(** *** Non-convergence is not reported to the caller *)

Lemma iterate_quiet (k : nat) (self : LucasEconomy) (g : vector)
      (st st' : LoopState) :
  iterate k self g false st = Ok st' -> stdout st' = stdout st.
Proof.
  revert st'. induction k as [|k IH]; intros st' H; simpl in H.
  - inversion H. reflexivity.
  - monad_inv_as H Hprev. apply solve_body_inv in H.
    destruct H as (_ & _ & _ & _ & Hout). rewrite Hout. apply IH.
    reflexivity.
Qed.

(** C1, the claim as stated fails.  On the steady economy with discount
    factor 1/2, from the zero function on the grid of the dividend levels 1
    and 2, without display: with the default tolerance and a cap of one
    pass [solve] stops at the cap with the norm above the tolerance; with
    tolerance 10 and the default cap it converges at its first pass; and
    the two calls leave exactly the same thing behind.  So nothing computed
    from what [solve] leaves can report the non-convergence. *)
Lemma nonconvergence_is_not_reported :
  (exists st,
     solve_loop (steady_economy (1 / 2)) None (Some two_point_grid)
                default_tol 1 false = Ok st
     /\ it st = 1%Z /\ norm st > default_tol)
  /\ (exists st,
        solve_loop (steady_economy (1 / 2)) None (Some two_point_grid)
                   10 default_maxIter false = Ok st
        /\ it st = 1%Z /\ norm st <= 10)
  /\ solve (steady_economy (1 / 2)) None (Some two_point_grid)
           default_tol 1 false = Ok (steady_outcome (1 / 2))
  /\ solve (steady_economy (1 / 2)) None (Some two_point_grid)
           10 default_maxIter false = Ok (steady_outcome (1 / 2))
  /\ ~ nonconvergence_reported.
Proof.
  assert (Hn : 1 <= sqrt (5 * (1 / 2) ^ 2) <= 10)
    by (apply sqrt_bounds; lra).
  assert (HloopB := steady_one_pass (1 / 2) default_tol false).
  assert (HloopA : solve_loop (steady_economy (1 / 2)) None
                     (Some two_point_grid) 10 default_maxIter false
                   = Ok (next_state (steady_economy (1 / 2)) two_point_grid
                           false (solve_init None [0; 0] 10)))
    by (apply steady_first_pass_exit;
        [unfold default_maxIter; lia | left; apply Hn]).
  assert (HsolveB := steady_solve (1 / 2) default_tol).
  assert (HsolveA : solve (steady_economy (1 / 2)) None (Some two_point_grid)
                      10 default_maxIter false = Ok (steady_outcome (1 / 2)))
    by (apply steady_solve_first_pass;
        [unfold default_maxIter; lia | left; apply Hn]).
  assert (HnB : norm (next_state (steady_economy (1 / 2)) two_point_grid
                        false (solve_init None [0; 0] default_tol))
                > default_tol)
    by (rewrite steady_first_norm; unfold default_tol; lra).
  assert (HnA : norm (next_state (steady_economy (1 / 2)) two_point_grid
                        false (solve_init None [0; 0] 10)) <= 10)
    by (rewrite steady_first_norm; apply Hn).
  split; [eexists; split; [exact HloopB | split; [reflexivity | exact HnB]]|].
  split; [eexists; split; [exact HloopA | split; [reflexivity | exact HnA]]|].
  split; [exact HsolveB|]. split; [exact HsolveA|].
  intros [report Hreport].
  destruct (Hreport _ _ _ _ _ _ _ HloopB) as [HB _].
  destruct (Hreport _ _ _ _ _ _ _ HloopA) as [_ HA].
  specialize (HB HnB). specialize (HA HnA).
  rewrite HsolveB in HB. rewrite HsolveA in HA. congruence.
Qed.

(** C1, as amended.  [solve] returns nothing and leaves the last iterate in
    [EqlogPfun] whether or not it converged; a run that stops with the norm
    above the tolerance has reached the cap, and the only sign of it is the
    last line printed, 'Maximum iterations exceeded!' in place of 'Price
    function converged!', which is printed only when [disp] is set: without
    display nothing is printed at all. *)
Theorem solve_reports_only_by_display
        (self : LucasEconomy) (Pfunc_0 : option Pfunc)
        (logDGrid : option vector) (tol : R) (maxIter : Z) (disp : bool)
        (out : SolveOutcome) :
  solve self Pfunc_0 logDGrid tol maxIter disp = Ok out ->
  exists st,
    solve_loop self Pfunc_0 logDGrid tol maxIter disp = Ok st
    /\ returned out = tt
    /\ EqlogPfun (economy out) = Some (Pf_0 st)
    /\ (norm st > tol -> (maxIter <= it st)%Z)
    /\ (disp = false -> printed out = [])
    /\ (disp = true -> norm st > tol ->
        printed out = stdout st ++ [Text "Maximum iterations exceeded!"])
    /\ (disp = true -> norm st <= tol ->
        printed out = stdout st ++ [Text "Price function converged!"]).
Proof.
  intros H. apply solve_inv in H.
  destruct H as (st & Hloop & Hret & HEq & _ & _ & _ & Hout).
  exists st. split; [exact Hloop|]. split; [exact Hret|].
  split; [exact HEq|].
  pose proof (solve_loop_run _ _ _ _ _ _ _ Hloop)
    as (g & P0 & k & Hg & HP & Hk & Hit & Hbefore & Hexit).
  split; [intros Hn; destruct Hexit; [lra | lia]|].
  split; [|split].
  - intros ->. rewrite Hout. apply iterate_quiet in Hk. exact Hk.
  - intros -> Hn. rewrite Hout. unfold Rleb.
    destruct (Rle_dec (norm st) tol); [lra | reflexivity].
  - intros -> Hn. rewrite Hout. unfold Rleb.
    destruct (Rle_dec (norm st) tol); [reflexivity | contradiction].
Qed.

Lemma solve_reports_only_by_display_witness :
  exists st,
    solve_loop (steady_economy (1 / 2)) None (Some two_point_grid)
               default_tol 1 false = Ok st
    /\ returned (steady_outcome (1 / 2)) = tt
    /\ EqlogPfun (economy (steady_outcome (1 / 2))) = Some (Pf_0 st)
    /\ (norm st > default_tol -> (1 <= it st)%Z)
    /\ (false = false -> printed (steady_outcome (1 / 2)) = [])
    /\ (false = true -> norm st > default_tol ->
        printed (steady_outcome (1 / 2))
        = stdout st ++ [Text "Maximum iterations exceeded!"])
    /\ (false = true -> norm st <= default_tol ->
        printed (steady_outcome (1 / 2))
        = stdout st ++ [Text "Price function converged!"]).
Proof.
  apply (solve_reports_only_by_display (steady_economy (1 / 2)) None
           (Some two_point_grid) default_tol 1 false).
  apply steady_solve.
Defined.

(** *** Parameters are not validated *)

Lemma solve_loop_starts (self : LucasEconomy) (logDGrid : vector) (tol : R)
      (maxIter : Z) (disp : bool) :
  shocks_aligned (DivProc self) ->
  increasing logDGrid -> (2 <= length logDGrid)%nat -> (0 < maxIter)%Z ->
  exists st,
    solve_loop self None (Some logDGrid) tol maxIter disp = Ok st
    /\ (1 <= it st)%Z.
Proof.
  intros Hal Hinc Hlen Hmax.
  assert (Hw : exists st,
             solve_loop self None (Some logDGrid) tol maxIter disp = Ok st).
  { unfold solve_loop, solve_grid, solve_guess. cbn [bind].
    rewrite call_vec_ConstantFunction. cbn [bind].
    apply solve_while_total; simpl; try assumption.
    - apply ConstantFunction_defined_on_transitions.
    - apply length_map.
    - lia. }
  destruct Hw as [st Hst]. exists st. split; [exact Hst|].
  pose proof (solve_loop_run _ _ _ _ _ _ _ Hst)
    as (g & P0 & k & Hg & HP & Hk & Hit & Hbefore & Hexit).
  pose proof (solve_loop_first_pass _ _ _ _ _ _ _ _ _ Hmax Hk Hexit). lia.
Qed.

(** C3, the claim as stated fails.  An economy with discount factor 2 is
    built without complaint, and [solve] runs a pass of its loop on it and
    leaves a pricing function. *)
Lemma malformed_discount_factor_accepted :
  malformed (LucasEconomy_init 1 2 steady_process)
  /\ solve (LucasEconomy_init 1 2 steady_process) None (Some two_point_grid)
           default_tol 1 false = Ok (steady_outcome 2)
  /\ (exists st,
        solve_loop (LucasEconomy_init 1 2 steady_process) None
                   (Some two_point_grid) default_tol 1 false = Ok st
        /\ it st = 1%Z)
  /\ ~ malformed_parameters_rejected.
Proof.
  assert (Hm : malformed (LucasEconomy_init 1 2 steady_process))
    by (left; simpl; lra).
  assert (Hs := steady_solve 2 default_tol).
  split; [exact Hm|]. split; [exact Hs|]. split.
  - eexists. split; [apply (steady_one_pass 2) | reflexivity].
  - intros Hrej.
    destruct (Hrej _ None (Some two_point_grid) default_tol 1%Z false Hm)
      as [e He].
    unfold steady_economy in Hs. rewrite Hs in He. discriminate.
Qed.

(** C3, as amended.  No parameter is validated.  [LucasEconomy.__init__]
    stores any risk aversion and discount factor as given, and
    [DivProcess.__init__] any persistence and shock standard deviation,
    failing only where the discretizer of the toolkit does.  Whatever the
    discount factor and the shock standard deviation are, [solve] with its
    default guess, on an increasing grid of two points or more, with
    aligned shocks and a positive cap, runs the first pass of its loop and
    leaves a pricing function. *)
Theorem parameters_are_not_validated
        (self : LucasEconomy) (logDGrid : vector) (tol : R) (maxIter : Z)
        (disp : bool) :
  shocks_aligned (DivProc self) ->
  increasing logDGrid -> (2 <= length logDGrid)%nat -> (0 < maxIter)%Z ->
  (exists st out,
     solve_loop self None (Some logDGrid) tol maxIter disp = Ok st
     /\ (1 <= it st)%Z
     /\ solve self None (Some logDGrid) tol maxIter disp = Ok out
     /\ EqlogPfun (economy out) = Some (Pf_0 st))
  /\ (forall rho beta,
        CRRA (LucasEconomy_init rho beta (DivProc self)) = rho
        /\ DiscFac (LucasEconomy_init rho beta (DivProc self)) = beta)
  /\ (forall Normal_approx a sd dstn,
        Normal_approx 0 sd 7%nat = Ok dstn ->
        exists dp,
          DivProcess_init Normal_approx a sd None None = Ok dp
          /\ alpha dp = a /\ shock_sd dp = sd).
Proof.
  intros Hal Hinc Hlen Hmax. split; [|split].
  - destruct (solve_loop_starts self logDGrid tol maxIter disp
                Hal Hinc Hlen Hmax) as (st & Hst & Hit).
    exists st. eexists. split; [exact Hst|]. split; [exact Hit|].
    unfold solve. rewrite Hst. cbn [bind]. split; reflexivity.
  - intros rho beta. split; reflexivity.
  - intros approx a sd dstn Hd. unfold DivProcess_init. rewrite Hd.
    cbn [bind]. eexists. split; [reflexivity|]. split; reflexivity.
Qed.

Lemma parameters_are_not_validated_witness :
  exists st out,
    solve_loop (steady_economy 2) None (Some two_point_grid) default_tol
               default_maxIter false = Ok st
    /\ (1 <= it st)%Z
    /\ solve (steady_economy 2) None (Some two_point_grid) default_tol
             default_maxIter false = Ok out
    /\ EqlogPfun (economy out) = Some (Pf_0 st).
Proof.
  apply (proj1 (parameters_are_not_validated (steady_economy 2)
                  two_point_grid default_tol default_maxIter false
                  (steady_aligned 2) two_point_grid_increasing
                  ltac:(simpl; lia) ltac:(unfold default_maxIter; lia))).
Defined.

(** *** Expectations over the discretized shock *)

Section Expectation.

Variables nodes weights : vector.
Hypothesis aligned : length nodes = length weights.
Hypothesis weights_nonneg : forall p, In p weights -> 0 <= p.
Hypothesis weights_total : Rsum weights = 1.

Lemma Rsum_combine_snd (l r : vector) :
  length l = length r -> Rsum (map snd (combine l r)) = Rsum r.
Proof.
  revert r. induction l as [|a l IH]; intros [|b r] Hlen; simpl in Hlen;
    try discriminate; [reflexivity|].
  simpl. unfold Rsum in *. simpl. rewrite IH by lia. reflexivity.
Qed.

Lemma expect_ext (h1 h2 : R -> R) :
  (forall s, h1 s = h2 s) -> expect nodes weights h1 = expect nodes weights h2.
Proof.
  intros H. unfold expect. f_equal. apply map_ext. intros sp.
  rewrite H. reflexivity.
Qed.

Lemma expect_const (k : R) : expect nodes weights (fun _ => k) = k.
Proof.
  unfold expect.
  rewrite (map_ext _ (fun sp : R * R => k * snd sp))
    by (intros; ring).
  rewrite <- (map_map snd (fun p => k * p)).
  rewrite Rsum_scale. rewrite map_id.
  rewrite Rsum_combine_snd by exact aligned. rewrite weights_total. ring.
Qed.

Lemma expect_plus (h1 h2 : R -> R) :
  expect nodes weights (fun s => h1 s + h2 s)
  = expect nodes weights h1 + expect nodes weights h2.
Proof.
  unfold expect, Rsum.
  induction (combine nodes weights) as [|sp l IH]; simpl; [ring|].
  rewrite IH. ring.
Qed.

Lemma expect_bound (h : R -> R) (M : R) :
  (forall s, In s nodes -> Rabs (h s) <= M) ->
  Rabs (expect nodes weights h) <= M.
Proof.
  intros Hh.
  assert (Hgen : forall l : list (R * R),
            (forall sp, In sp l -> 0 <= snd sp /\ Rabs (h (fst sp)) <= M) ->
            Rabs (Rsum (map (fun sp : R * R => snd sp * h (fst sp)) l))
            <= M * Rsum (map snd l)).
  { induction l as [|sp l IH]; intros Hl; unfold Rsum in *; simpl.
    - rewrite Rabs_R0. lra.
    - destruct (Hl sp (or_introl eq_refl)) as [Hp Hb].
      specialize (IH (fun q Hq => Hl q (or_intror Hq))).
      eapply Rle_trans; [apply Rabs_triang|].
      rewrite Rabs_mult, (Rabs_right (snd sp)) by lra.
      nra. }
  specialize (Hgen (combine nodes weights)).
  rewrite Rsum_combine_snd, weights_total, Rmult_1_r in Hgen by exact aligned.
  apply Hgen. intros [s p] Hsp. simpl. split.
  - apply weights_nonneg. eapply in_combine_r. exact Hsp.
  - apply Hh. eapply in_combine_l. exact Hsp.
Qed.

End Expectation.

(** *** The price-dividend ratio under log utility *)

Lemma list_max_attained (l : vector) :
  l <> [] -> exists m, In m l /\ forall y, In y l -> y <= m.
Proof.
  induction l as [|a l IH]; intros Hne; [contradiction|].
  destruct l as [|b l].
  - exists a. split; [left; reflexivity|].
    intros y [<-|[]]. lra.
  - destruct (IH ltac:(discriminate)) as (m & Hm & Hmax).
    destruct (Rle_dec a m) as [Ham|Ham].
    + exists m. split; [right; exact Hm|].
      intros y [<-|Hy]; [exact Ham | apply Hmax; exact Hy].
    + exists a. split; [left; reflexivity|].
      intros y [<-|Hy]; [lra|]. specialize (Hmax y Hy). lra.
Qed.

Section RatioBound.

Variables (beta a c gamma : R) (nodes weights grid : vector) (r : R -> R).
Hypothesis beta_range : 0 < beta < 1.
Hypothesis aligned : length nodes = length weights.
Hypothesis weights_nonneg : forall p, In p weights -> 0 <= p.
Hypothesis weights_total : Rsum weights = 1.
Hypothesis near :
  forall x s, In x grid -> In s nodes ->
    exists x', In x' grid
               /\ Rabs (r (a * x + s) - beta / (1 - beta))
                  <= Rabs (r x' - beta / (1 - beta)) + gamma.
Hypothesis step :
  forall x, In x grid ->
    Rabs (r x - ratio_operator beta a nodes weights r x) <= c.

(** The distance of the new ratio to the fixed point [beta / (1 - beta)]
    is the discounted expected distance of the old one. *)
Lemma ratio_error_eq (x : R) :
  ratio_operator beta a nodes weights r x - beta / (1 - beta)
  = beta * expect nodes weights (fun s => r (a * x + s) - beta / (1 - beta)).
Proof.
  unfold ratio_operator.
  rewrite (expect_ext nodes weights _
             (fun s => (r (a * x + s) - beta / (1 - beta))
                       + (1 + beta / (1 - beta))))
    by (intros; ring).
  rewrite expect_plus, expect_const by assumption.
  field. lra.
Qed.

(** When one application of the operator moves the ratios by at most [c]
    on the grid, and where the transition leads the old ratios are at most
    [gamma] further from the fixed point than they are somewhere on the
    grid, the new ratios are within [(c + gamma) * beta / (1 - beta)] of
    the fixed point. *)
Lemma ratio_error_bound_off_grid (x : R) :
  In x grid ->
  Rabs (ratio_operator beta a nodes weights r x - beta / (1 - beta))
  <= (c + gamma) * (beta / (1 - beta)).
Proof.
  intros Hx.
  set (T := ratio_operator beta a nodes weights r) in *.
  set (w := beta / (1 - beta)) in *.
  assert (Hne : map (fun y => Rabs (T y - w)) grid <> [])
    by (destruct grid; [contradiction | discriminate]).
  destruct (list_max_attained _ Hne) as (E & HE & Hmax).
  apply in_map_iff in HE. destruct HE as (ystar & HEeq & Hystar).
  assert (HmaxE : forall y, In y grid -> Rabs (T y - w) <= E)
    by (intros y Hy; apply Hmax;
        apply (in_map (fun y => Rabs (T y - w))); exact Hy).
  assert (Hall : forall y, In y grid ->
            Rabs (T y - w) <= beta * (c + gamma + E)).
  { intros y Hy. unfold w, T.
    rewrite ratio_error_eq. fold w.
    rewrite Rabs_mult, (Rabs_right beta) by lra.
    apply Rmult_le_compat_l; [lra|].
    apply expect_bound; try assumption.
    intros s Hs. destruct (near y s Hy Hs) as (x' & Hx' & Hnear).
    assert (Rabs (r x' - w) <= c + E).
    { replace (r x' - w) with ((r x' - T x') + (T x' - w)) by ring.
      eapply Rle_trans; [apply Rabs_triang|].
      pose proof (step _ Hx'). pose proof (HmaxE _ Hx'). fold T in H. lra. }
    lra. }
  assert (HEc : E <= (c + gamma) * w).
  { pose proof (Hall ystar Hystar) as H. rewrite HEeq in H.
    unfold w. apply Rmult_le_reg_r with (1 - beta); [lra|].
    replace ((c + gamma) * (beta / (1 - beta)) * (1 - beta))
      with ((c + gamma) * beta) by (field; lra).
    lra. }
  pose proof (HmaxE x Hx). lra.
Qed.

End RatioBound.

(** *** Log utility: the converged function and the closed form *)

Lemma uP_log (self : LucasEconomy) (c : R) :
  CRRA self = 1 -> 0 < c -> uP self c = / c.
Proof.
  intros Hrho Hc. unfold uP, CRRAutilityP, Rpower. rewrite Hrho.
  replace (- (1) * ln c) with (- ln c) by ring.
  rewrite exp_Ropp, exp_ln by exact Hc. reflexivity.
Qed.

Lemma pricing_rhs_log (self : LucasEconomy) (fv : R -> R) (x : R) :
  CRRA self = 1 ->
  pricing_rhs self fv x
  = exp x * (DiscFac self
             * expect (X (ShkAppDstn (DivProc self)))
                      (pmf (ShkAppDstn (DivProc self)))
                      (fun s => fv (alpha (DivProc self) * x + s)
                                / exp (alpha (DivProc self) * x + s) + 1)).
Proof.
  intros Hrho. unfold pricing_rhs, expect.
  rewrite <- Rmult_assoc, (Rmult_comm (exp x)), Rmult_assoc. f_equal.
  rewrite <- Rsum_scale. f_equal. apply map_ext. intros [s p].
  cbn [fst snd].
  pose proof (exp_pos x) as Hx.
  pose proof (exp_pos (alpha (DivProc self) * x + s)) as Hy.
  rewrite uP_log by (try exact Hrho; apply Rdiv_lt_0_compat; assumption).
  field. split; lra.
Qed.

Lemma mapM_value (f : Pfunc) (l r : vector) :
  call_vec f l = Ok r -> r = map (value f) l.
Proof.
  unfold call_vec. revert r. induction l as [|a l IH]; intros r H; simpl in H.
  - inversion H. reflexivity.
  - monad_inv_as H Ha. monad_inv_as H Hl. inversion H. simpl.
    rewrite (call_value _ _ _ Ha), <- (IH _ eq_refl). reflexivity.
Qed.

Lemma price_change_map (f1 f2 : R -> R) (l : vector) :
  price_change (map f1 l) (map f2 l) = map (fun x => f1 x - f2 x) l.
Proof.
  unfold price_change. induction l as [|a l IH]; simpl; [reflexivity|].
  rewrite IH. reflexivity.
Qed.

Lemma Rsum_sqr_nonneg (v : vector) : 0 <= Rsum (map Rsqr v).
Proof.
  unfold Rsum. induction v as [|a v IH]; simpl; [lra|].
  pose proof (Rle_0_sqr a). lra.
Qed.

(** No entry of an array exceeds its Euclidean norm. *)
Lemma Rabs_le_norm (v : vector) (a : R) :
  In a v -> Rabs a <= np_linalg_norm v.
Proof.
  intros Ha. unfold np_linalg_norm. rewrite <- sqrt_Rsqr_abs.
  apply sqrt_le_1_alt. induction v as [|b v IH]; [contradiction|].
  unfold Rsum in *. simpl. destruct Ha as [->|Ha].
  - pose proof (Rsum_sqr_nonneg v). unfold Rsum in *. lra.
  - specialize (IH Ha). pose proof (Rle_0_sqr b). lra.
Qed.

Lemma increasing_first_le (l : vector) (x : R) :
  increasing l -> In x l -> nth 0 l 0 <= x.
Proof.
  intros Hinc Hx. destruct (In_nth _ _ 0 Hx) as (j & Hj & <-).
  destruct j as [|j]; [lra|].
  apply Rlt_le. apply increasing_nth; [exact Hinc | lia | exact Hj].
Qed.

Lemma closed_form_log_ratio (beta d : R) :
  0 < beta < 1 -> closed_form_log beta d = d * (beta / (1 - beta)).
Proof. intros Hb. unfold closed_form_log. field. lra. Qed.

(** *** The steady economy, pass after pass *)

Lemma steady_price_step (beta : R) (n : nat) :
  steady_price beta (S n) - steady_price beta n = beta ^ S n.
Proof.
  induction n as [|n IH].
  - simpl. ring.
  - change (steady_price beta (S (S n)))
      with (beta * (steady_price beta (S n) + 1)).
    change (steady_price beta (S n)) with (beta * (steady_price beta n + 1))
      at 2.
    replace (beta ^ S (S n)) with (beta * beta ^ S n) by reflexivity.
    rewrite <- IH. ring.
Qed.

Lemma steady_price_closed (beta : R) (n : nat) :
  beta <> 1 -> steady_price beta n = beta * (1 - beta ^ n) / (1 - beta).
Proof.
  intros Hb. induction n as [|n IH].
  - simpl. field. lra.
  - change (steady_price beta (S n)) with (beta * (steady_price beta n + 1)).
    rewrite IH. simpl. field. lra.
Qed.

Lemma value_two_point_grid (a b : R) :
  value (LinearInterp two_point_grid [a; b] true) 0 = a
  /\ value (LinearInterp two_point_grid [a; b] true) (ln 2) = b.
Proof.
  split; apply call_value.
  - apply (LinearInterp_at_grid two_point_grid [a; b] 0);
      [apply two_point_grid_increasing | simpl; lia | reflexivity | simpl; lia].
  - apply (LinearInterp_at_grid two_point_grid [a; b] 1);
      [apply two_point_grid_increasing | simpl; lia | reflexivity | simpl; lia].
Qed.

Lemma next_prices_steady_interp (beta a b : R) :
  next_prices (steady_economy beta) (LinearInterp two_point_grid [a; b] true)
              two_point_grid
  = [beta * (a + 1); beta * (b + 2)].
Proof.
  destruct (value_two_point_grid a b) as [H0 H1].
  unfold next_prices. unfold two_point_grid at 2. cbn [map].
  rewrite !pricing_rhs_steady, H0, H1, exp_0, exp_ln by lra. reflexivity.
Qed.

Lemma next_state_steady (beta tol : R) (n : nat) :
  next_state (steady_economy beta) two_point_grid false
             (steady_state beta tol n)
  = steady_state beta tol (S n).
Proof.
  destruct n as [|n].
  - unfold next_state, steady_state, solve_init, solve_guess.
    cbn [Pf_0 P_0 it stdout]. rewrite next_prices_steady_zero.
    unfold price_change, np_linalg_norm, Rsum, Rsqr. simpl.
    f_equal; try (repeat f_equal; ring).
    f_equal. ring.
  - pose proof (steady_price_step beta (S n)) as Hstep.
    unfold next_state, steady_state. cbn [Pf_0 P_0 it stdout].
    rewrite next_prices_steady_interp.
    set (s := steady_price beta (S n)) in *.
    replace (steady_price beta (S (S n))) with (beta * (s + 1)) in *
      by reflexivity.
    replace (beta * (2 * s + 2)) with (2 * (beta * (s + 1))) by ring.
    f_equal.
    + unfold price_change, np_linalg_norm, Rsum, Rsqr. cbn [combine map
        fold_right fst snd]. f_equal. rewrite <- Hstep. ring.
    + lia.
Qed.

Lemma steady_state_ready (beta tol : R) (n : nat) :
  defined_on_transitions (steady_economy beta)
                         (Pf_0 (steady_state beta tol n)) two_point_grid
  /\ length (P_0 (steady_state beta tol n)) = length two_point_grid.
Proof.
  destruct n as [|n]; simpl.
  - split; [apply ConstantFunction_defined_on_transitions | reflexivity].
  - split; [|reflexivity].
    apply LinearInterp_defined_on_transitions;
      [apply two_point_grid_increasing | simpl; lia | reflexivity].
Qed.

(** The loop on the steady economy goes on as long as the change
    [sqrt 5 * beta ^ j] of pass [j] is above the tolerance, and stops at
    the first pass [N] whose change is not. *)
Lemma steady_while (beta tol : R) (maxIter : Z) (N m : nat) :
  forall j fuel,
    (j + m = N)%nat -> (m <= fuel)%nat -> (Z.of_nat N <= maxIter)%Z ->
    (forall i, (1 <= i < N)%nat -> sqrt (5 * (beta ^ i) ^ 2) > tol) ->
    (1 <= N)%nat -> sqrt (5 * (beta ^ N) ^ 2) <= tol ->
    solve_while fuel (steady_economy beta) two_point_grid tol maxIter false
                (steady_state beta tol j)
    = Ok (steady_state beta tol N).
Proof.
  induction m as [|m IH]; intros j fuel Hjm Hfuel Hcap Hbefore HN Hstop.
  - replace j with N by lia. apply solve_while_exit. left.
    destruct N as [|N]; [lia | exact Hstop].
  - destruct fuel as [|fuel]; [lia|].
    assert (G : Rgtb (norm (steady_state beta tol j)) tol
                && (it (steady_state beta tol j) <? maxIter)%Z = true).
    { apply loop_guard_true.
      destruct j as [|j]; cbn [steady_state solve_init norm it].
      - split; [lra | lia].
      - split; [apply Hbefore; lia | lia]. }
    cbn [solve_while]. rewrite G.
    destruct (steady_state_ready beta tol j) as [Hdef Hlen].
    rewrite solve_body_next_state;
      [ | apply steady_aligned | apply two_point_grid_increasing
        | simpl; lia | exact Hdef | exact Hlen ].
    cbn [bind]. rewrite next_state_steady.
    apply IH; try assumption; lia.
Qed.

Lemma steady_run (beta tol : R) (maxIter : Z) (N : nat) :
  (1 <= N)%nat -> (Z.of_nat N <= maxIter)%Z ->
  (forall i, (1 <= i < N)%nat -> sqrt (5 * (beta ^ i) ^ 2) > tol) ->
  sqrt (5 * (beta ^ N) ^ 2) <= tol ->
  solve_loop (steady_economy beta) None (Some two_point_grid) tol maxIter false
  = Ok (steady_state beta tol N).
Proof.
  intros HN Hcap Hbefore Hstop.
  unfold solve_loop, solve_grid, solve_guess. cbn [bind].
  rewrite call_vec_ConstantFunction. cbn [bind two_point_grid map].
  apply (steady_while beta tol maxIter N N O); try assumption; lia.
Qed.

Lemma pow_antitone (x : R) (m n : nat) :
  0 <= x <= 1 -> (m <= n)%nat -> x ^ n <= x ^ m.
Proof.
  intros Hx Hmn. induction Hmn as [|n Hmn IH]; [lra|].
  simpl. assert (0 <= x ^ n) by (apply pow_le; lra). nra.
Qed.

Lemma sqrt_above (t x : R) : 0 <= t -> t * t < x -> t < sqrt x.
Proof.
  intros Ht Hx. rewrite <- (sqrt_square t) by exact Ht.
  apply sqrt_lt_1_alt. nra.
Qed.

(** At the default tolerance and cap, with discount factor 9/10, [solve]
    converges on the steady economy at its pass 117, and at the dividend
    level 2 the price it leaves is [18 * (9/10) ^ 117], about 8e-5, away
    from the closed form: more than the tolerance 1e-5. *)
Lemma steady_default_tolerance_run :
  exists st,
    solve_loop (steady_economy (9 / 10)) None (Some two_point_grid)
               default_tol default_maxIter false = Ok st
    /\ it st = 117%Z
    /\ norm st <= default_tol
    /\ call (Pf_0 st) (ln 2) = Ok (2 * steady_price (9 / 10) 117)
    /\ closed_form_log (9 / 10) (exp (ln 2)) - 2 * steady_price (9 / 10) 117
       = 18 * (9 / 10) ^ 117
    /\ 18 * (9 / 10) ^ 117 > default_tol.
Proof.
  assert (Hstop : sqrt (5 * ((9 / 10) ^ 117) ^ 2) <= default_tol).
  { unfold default_tol. apply sqrt_bounds with (a := 0); lra. }
  assert (Hbefore : forall i, (1 <= i < 117)%nat ->
            sqrt (5 * ((9 / 10) ^ i) ^ 2) > default_tol).
  { intros i Hi. unfold default_tol. apply sqrt_above; [lra|].
    assert (H116 : (9 / 10) ^ 116 <= (9 / 10) ^ i)
      by (apply pow_antitone; [lra | lia]).
    assert (0 < (9 / 10) ^ 116) by (apply pow_lt; lra).
    assert (1 / 100000 * (1 / 100000) < 5 * ((9 / 10) ^ 116) ^ 2) by lra.
    nra. }
  exists (steady_state (9 / 10) default_tol 117).
  split; [apply steady_run;
          [lia | unfold default_maxIter; lia | exact Hbefore | exact Hstop]|].
  split; [reflexivity|]. split; [exact Hstop|]. split.
  - apply (LinearInterp_at_grid two_point_grid
             [steady_price (9 / 10) 117; 2 * steady_price (9 / 10) 117] 1);
      [apply two_point_grid_increasing | simpl; lia | reflexivity | simpl; lia].
  - split.
    + rewrite exp_ln, steady_price_closed by lra.
      unfold closed_form_log. field.
    + unfold default_tol. lra.
Qed.

(** *** An economy whose transition leaves the grid *)

Lemma ln_4 : ln 4 = 2 * ln 2.
Proof.
  replace 4 with (2 * 2) by ring. rewrite ln_mult by lra. ring.
Qed.

Lemma jump_aligned : shocks_aligned (DivProc jump_economy).
Proof. split; reflexivity. Qed.

(** Above the grid the guess extends its last segment: at the dividend
    level 4 it gives 6. *)
Lemma jump_guess_at_4 : call jump_guess (ln 4) = Ok 6.
Proof.
  pose proof ln_2_pos as H2.
  unfold jump_guess. cbn [call].
  rewrite LinearInterp_eval_segment;
    [ | apply two_point_grid_increasing | simpl; lia | reflexivity ].
  assert (Hseg : segment two_point_grid (ln 4) = 1%nat).
  { unfold segment, two_point_grid. simpl.
    destruct (Rlt_dec 0 (ln 4)) as [_|Hn]; [reflexivity|].
    exfalso. apply Hn. rewrite ln_4. lra. }
  rewrite Hseg. simpl. rewrite ln_4. f_equal. field. lra.
Qed.

Lemma pricing_rhs_jump (fv : R -> R) (x : R) :
  pricing_rhs jump_economy fv x = 4 / 5 * (exp x / 4) * (fv (ln 4) + 4).
Proof.
  rewrite pricing_rhs_log by reflexivity. unfold expect, Rsum. simpl.
  replace (0 * x + ln 4) with (ln 4) by ring.
  rewrite exp_ln by lra. field.
Qed.

Lemma next_prices_jump :
  next_prices jump_economy jump_guess two_point_grid = [2; 4].
Proof.
  unfold next_prices, two_point_grid. cbn [map].
  rewrite !pricing_rhs_jump, (call_value _ _ _ jump_guess_at_4).
  rewrite exp_0, exp_ln by lra. f_equal; [field|]. f_equal. field.
Qed.

(** From the guess [solve] converges at its first pass, whatever the
    tolerance: the pass changes nothing. *)
Lemma jump_run (tol : R) :
  0 <= tol ->
  solve_loop jump_economy (Some jump_guess) (Some two_point_grid) tol
             default_maxIter false
  = Ok (next_state jump_economy two_point_grid false
          (solve_init (Some jump_guess) [2; 4] tol))
  /\ norm (next_state jump_economy two_point_grid false
             (solve_init (Some jump_guess) [2; 4] tol)) = 0
  /\ Pf_0 (next_state jump_economy two_point_grid false
             (solve_init (Some jump_guess) [2; 4] tol)) = jump_guess.
Proof.
  intros Htol.
  assert (Hnorm : norm (next_state jump_economy two_point_grid false
                          (solve_init (Some jump_guess) [2; 4] tol)) = 0).
  { unfold next_state, solve_init, solve_guess. cbn [norm Pf_0 P_0].
    rewrite next_prices_jump.
    unfold price_change, np_linalg_norm, Rsum, Rsqr. simpl.
    replace ((2 - 2) * (2 - 2) + ((4 - 4) * (4 - 4) + 0)) with 0 by ring.
    apply sqrt_0. }
  split; [|split; [exact Hnorm|]].
  - apply solve_loop_first_pass_exit.
    + apply jump_aligned.
    + apply two_point_grid_increasing.
    + simpl. lia.
    + apply LinearInterp_defined_on_transitions;
        [apply two_point_grid_increasing | simpl; lia | reflexivity].
    + apply call_vec_at_grid;
        [apply two_point_grid_increasing | simpl; lia | reflexivity].
    + unfold default_maxIter. lia.
    + left. rewrite Hnorm. exact Htol.
  - unfold next_state, solve_init, solve_guess. cbn [Pf_0].
    rewrite next_prices_jump. reflexivity.
Qed.

(** C9, the claim as stated fails, in two ways.  On a grid the transition
    maps into itself, the steady economy with discount factor 9/10 and
    tolerance 3: [solve] converges at its first pass (the norm of the
    change is [sqrt 4.05]) and leaves the price 1.8 at the dividend level
    2, where the closed form gives 18.  On a grid the transition leaves,
    whatever the tolerance: with discount factor 4/5 and tomorrow's
    dividend 4, from the guess of twice the dividend on the grid of the
    levels 1 and 2, at the default tolerance [solve] converges at its first
    pass with no change at all, and leaves the price 2 at the dividend
    level 1, where the closed form gives 4. *)
Lemma converged_but_far_from_closed_form :
  (CRRA (steady_economy (9 / 10)) = 1
   /\ exists st,
        solve_loop (steady_economy (9 / 10)) None (Some two_point_grid)
                   3 default_maxIter false = Ok st
        /\ norm st <= 3
        /\ In (ln 2) two_point_grid
        /\ call (Pf_0 st) (ln 2) = Ok (18 / 10)
        /\ closed_form_log (9 / 10) (exp (ln 2)) = 18
        /\ Rabs (18 / 10 - 18) > 3)
  /\ (CRRA jump_economy = 1
      /\ exists st,
           solve_loop jump_economy (Some jump_guess) (Some two_point_grid)
                      default_tol default_maxIter false = Ok st
           /\ norm st <= default_tol
           /\ In 0 two_point_grid
           /\ call (Pf_0 st) 0 = Ok 2
           /\ closed_form_log (4 / 5) (exp 0) = 4
           /\ Rabs (2 - 4) > default_tol)
  /\ ~ converged_within_tolerance_of_closed_form.
Proof.
  assert (Hn : 0 <= sqrt (5 * (9 / 10) ^ 2) <= 3)
    by (apply sqrt_bounds; lra).
  assert (Hloop : solve_loop (steady_economy (9 / 10)) None
                    (Some two_point_grid) 3 default_maxIter false
                  = Ok (next_state (steady_economy (9 / 10)) two_point_grid
                          false (solve_init None [0; 0] 3)))
    by (apply steady_first_pass_exit;
        [unfold default_maxIter; lia | left; apply Hn]).
  assert (Hconv : norm (next_state (steady_economy (9 / 10)) two_point_grid
                          false (solve_init None [0; 0] 3)) <= 3)
    by (rewrite steady_first_norm; apply Hn).
  assert (Hin : In (ln 2) two_point_grid) by (right; left; reflexivity).
  assert (Hcall : call (Pf_0 (next_state (steady_economy (9 / 10))
                                two_point_grid false
                                (solve_init None [0; 0] 3))) (ln 2)
                  = Ok (18 / 10)).
  { unfold next_state, solve_init, solve_guess. cbn [Pf_0].
    rewrite next_prices_steady_zero.
    rewrite (LinearInterp_at_grid two_point_grid _ 1);
      [ | apply two_point_grid_increasing | simpl; lia | reflexivity
        | simpl; lia ].
    simpl. f_equal. lra. }
  assert (Hcf : closed_form_log (9 / 10) (exp (ln 2)) = 18)
    by (rewrite exp_ln by lra; unfold closed_form_log; field).
  assert (Hfar : Rabs (18 / 10 - 18) > 3)
    by (rewrite Rabs_left by lra; lra).
  split; [split; [reflexivity | eexists; repeat split; eassumption]|].
  split.
  - split; [reflexivity|].
    destruct (jump_run default_tol ltac:(unfold default_tol; lra))
      as (Hjloop & Hjnorm & HjPf).
    eexists. split; [exact Hjloop|].
    split; [rewrite Hjnorm; unfold default_tol; lra|].
    split; [left; reflexivity|]. split; [|split].
    + rewrite HjPf.
      apply (LinearInterp_at_grid two_point_grid [2; 4] 0);
        [apply two_point_grid_increasing | simpl; lia | reflexivity
         | simpl; lia].
    + rewrite exp_0. unfold closed_form_log. field.
    + rewrite Rabs_left by lra. unfold default_tol. lra.
  - intros Hclaim.
    pose proof (Hclaim (steady_economy (9 / 10)) None two_point_grid 3
                  default_maxIter false _ eq_refl Hloop Hconv _ _ Hin Hcall)
      as H.
    simpl DiscFac in H. rewrite Hcf in H. lra.
Qed.

(** The operator succeeds only on a function that gives a number at every
    point the transition leads to from the grid. *)
Lemma priceOnePeriod_defined_on_transitions (self : LucasEconomy)
      (f g : Pfunc) (logDGrid : vector) :
  shocks_aligned (DivProc self) ->
  priceOnePeriod self f logDGrid = Ok g ->
  defined_on_transitions self f logDGrid.
Proof.
  intros [HX Hp] H x s Hx Hs. unfold priceOnePeriod in H.
  rewrite <- HX in H.
  rewrite tile_columns_tabulate, tile_rows_tabulate in H.
  rewrite !mat_map_tabulate in H.
  rewrite (mat_op_tabulate _ _ _ _ _
             (fun x s => alpha (DivProc self) * x + s)) in H
    by reflexivity.
  cbn [bind] in H. monad_inv_as H Hcall.
  unfold call_mat, tabulate in Hcall.
  destruct (mapM_In _ _ _ Hcall
              (map (fun s => alpha (DivProc self) * x + s)
                   (X (ShkAppDstn (DivProc self)))))
    as [row Hrow].
  { apply (in_map (fun x => map (fun s => alpha (DivProc self) * x + s)
                                (X (ShkAppDstn (DivProc self))))).
    exact Hx. }
  unfold call_vec in Hrow. apply (mapM_In _ _ _ Hrow).
  apply (in_map (fun s => alpha (DivProc self) * x + s)). exact Hs.
Qed.

Lemma relative_error_ratio (beta : R) (f : Pfunc) (y : R) :
  0 < beta < 1 ->
  relative_error beta f y = Rabs (value f y / exp y - beta / (1 - beta)).
Proof.
  intros Hb. unfold relative_error. pose proof (exp_pos y) as Hy.
  rewrite closed_form_log_ratio by exact Hb.
  replace (value f y / exp y - beta / (1 - beta))
    with ((value f y - exp y * (beta / (1 - beta))) * / exp y)
    by (field; lra).
  rewrite Rabs_mult, (Rabs_right (/ exp y))
    by (apply Rle_ge, Rlt_le, Rinv_0_lt_compat; exact Hy).
  reflexivity.
Qed.

(** C9, as amended.  Under log utility (CRRA = 1), with a discount factor
    in (0, 1), shock probabilities that are non-negative and sum to one,
    and an increasing grid of two points or more, a converged solve leaves
    at every grid point a price within [tol] of the price the pass before
    held there, and within
    [exp x * (tol / exp x_min + gamma) * beta / (1 - beta)]
    of the closed form [P*(d) = d / theta], [theta = 1 / beta - 1], where
    [x_min] is the first grid point and [gamma] is the most by which the
    relative distance to the closed form of the function the last pass
    started from, at a point [alpha x + s] the transition leads to, exceeds
    that distance at grid points.  When the transition maps the grid into
    itself [gamma] is zero, and the price is within
    [exp (x - x_min) * tol * beta / (1 - beta)] of the closed form. *)
Theorem log_utility_converged_error_bound
        (self : LucasEconomy) (Pfunc_0 : option Pfunc) (logDGrid : vector)
        (tol : R) (maxIter : Z) (disp : bool) (st : LoopState) :
  CRRA self = 1 ->
  0 < DiscFac self < 1 ->
  shocks_aligned (DivProc self) ->
  probabilities (DivProc self) ->
  increasing logDGrid -> (2 <= length logDGrid)%nat ->
  solve_loop self Pfunc_0 (Some logDGrid) tol maxIter disp = Ok st ->
  norm st <= tol ->
  exists P0 k prev,
    call_vec (solve_guess Pfunc_0) logDGrid = Ok P0
    /\ iterate k self logDGrid disp
         {| Pf_0 := solve_guess Pfunc_0; P_0 := P0; norm := tol + 1;
            it := 0; stdout := [] |} = Ok prev
    /\ solve_body self logDGrid disp prev = Ok st
    /\ (forall x, In x logDGrid ->
          exists u v,
            call (Pf_0 prev) x = Ok u /\ call (Pf_0 st) x = Ok v
            /\ Rabs (u - v) <= tol)
    /\ (forall gamma,
          (forall x s,
              In x logDGrid -> In s (X (ShkAppDstn (DivProc self))) ->
              exists x',
                In x' logDGrid
                /\ relative_error (DiscFac self) (Pf_0 prev)
                                  (alpha (DivProc self) * x + s)
                   <= relative_error (DiscFac self) (Pf_0 prev) x' + gamma) ->
          forall x, In x logDGrid ->
            exists v,
              call (Pf_0 st) x = Ok v
              /\ Rabs (v - closed_form_log (DiscFac self) (exp x))
                 <= exp x * (tol / exp (nth 0 logDGrid 0) + gamma)
                    * (DiscFac self / (1 - DiscFac self)))
    /\ (transition_closed (DivProc self) logDGrid ->
        forall x, In x logDGrid ->
          exists v,
            call (Pf_0 st) x = Ok v
            /\ Rabs (v - closed_form_log (DiscFac self) (exp x))
               <= exp (x - nth 0 logDGrid 0) * tol
                  * (DiscFac self / (1 - DiscFac self))).
Proof.
  intros Hrho Hbeta Hal [Hp0 Hp1] Hinc Hlen Hloop Hconv.
  pose proof (solve_loop_run _ _ _ _ _ _ _ Hloop)
    as (g & P0 & k & Hg & HP & Hk & Hit & Hbefore & Hexit).
  simpl in Hg. inversion Hg; subst g.
  destruct k as [|k].
  { simpl in Hk. inversion Hk; subst st. simpl in Hconv. lra. }
  simpl in Hk. monad_inv_as Hk Hprev. rename a into prev.
  pose proof (iterate_prices _ _ _ _ _ _ _ _ HP Hprev) as Hprices.
  exists P0, k, prev.
  split; [exact HP|]. split; [exact Hprev|]. split; [exact Hk|].
  set (f := Pf_0 prev) in *.
  assert (Hdef : defined_on_transitions self f logDGrid).
  { pose proof (solve_body_inv _ _ _ _ _ Hk) as (Hprice & _).
    eapply priceOnePeriod_defined_on_transitions; eassumption. }
  assert (HPlen : length (P_0 prev) = length logDGrid)
    by (eapply mapM_length; exact Hprices).
  rewrite solve_body_next_state in Hk by assumption.
  injection Hk as Hst. subst st.
  assert (Hnorm : norm (next_state self logDGrid disp prev)
                  = np_linalg_norm
                      (map (fun y => value f y - pricing_rhs self (value f) y)
                           logDGrid)).
  { unfold next_state. cbn [norm]. fold f.
    rewrite (mapM_value _ _ _ Hprices). unfold next_prices.
    rewrite price_change_map. reflexivity. }
  assert (Hstep : forall y, In y logDGrid ->
            Rabs (value f y - pricing_rhs self (value f) y) <= tol).
  { intros y Hy. eapply Rle_trans; [|exact Hconv]. rewrite Hnorm.
    apply Rabs_le_norm.
    apply (in_map (fun y => value f y - pricing_rhs self (value f) y)).
    exact Hy. }
  assert (Hval : forall x, In x logDGrid ->
            call (Pf_0 (next_state self logDGrid disp prev)) x
            = Ok (pricing_rhs self (value f) x)).
  { intros x Hx. destruct (In_nth _ _ 0 Hx) as (j & Hj & Hxj).
    unfold next_state. cbn [Pf_0]. fold f. rewrite <- Hxj.
    rewrite LinearInterp_at_grid;
      [ | assumption | assumption | apply next_prices_length | assumption ].
    f_equal. unfold next_prices.
    rewrite (nth_indep _ 0 (pricing_rhs self (value f) 0))
      by (rewrite length_map; exact Hj).
    apply map_nth. }
  set (x0 := nth 0 logDGrid 0) in *.
  set (beta := DiscFac self) in *.
  set (c := tol / exp x0).
  assert (Hratio : forall y, In y logDGrid ->
            Rabs (value f y / exp y
                  - ratio_operator beta (alpha (DivProc self))
                      (X (ShkAppDstn (DivProc self)))
                      (pmf (ShkAppDstn (DivProc self)))
                      (fun z => value f z / exp z) y)
            <= c).
  { intros y Hy. pose proof (Hstep y Hy) as Hs.
    rewrite pricing_rhs_log in Hs by exact Hrho. fold beta in Hs.
    unfold ratio_operator.
    pose proof (exp_pos y) as Hey. pose proof (exp_pos x0) as Hex0.
    set (t := beta * expect _ _ _) in *.
    replace (value f y / exp y - t)
      with ((value f y - exp y * t) * / exp y) by (field; lra).
    rewrite Rabs_mult, (Rabs_right (/ exp y))
      by (apply Rle_ge, Rlt_le, Rinv_0_lt_compat; exact Hey).
    assert (Hle : exp x0 <= exp y).
    { destruct (increasing_first_le _ _ Hinc Hy) as [Hlt|Heq].
      - apply Rlt_le, exp_increasing. exact Hlt.
      - fold x0 in Heq. rewrite Heq. lra. }
    unfold c, Rdiv.
    apply Rmult_le_compat; try lra.
    - apply Rabs_pos.
    - apply Rlt_le, Rinv_0_lt_compat. exact Hey.
    - apply Rinv_le_contravar; assumption. }
  destruct Hal as [HX HN].
  assert (Hgamma : forall gamma,
            (forall x s,
                In x logDGrid -> In s (X (ShkAppDstn (DivProc self))) ->
                exists x',
                  In x' logDGrid
                  /\ relative_error beta f (alpha (DivProc self) * x + s)
                     <= relative_error beta f x' + gamma) ->
            forall x, In x logDGrid ->
              exists v,
                call (Pf_0 (next_state self logDGrid disp prev)) x = Ok v
                /\ Rabs (v - closed_form_log beta (exp x))
                   <= exp x * (c + gamma) * (beta / (1 - beta))).
  { intros gamma Hnear x Hx.
    exists (pricing_rhs self (value f) x). split; [apply Hval; exact Hx|].
    assert (Hnear' : forall y s,
              In y logDGrid -> In s (X (ShkAppDstn (DivProc self))) ->
              exists x',
                In x' logDGrid
                /\ Rabs (value f (alpha (DivProc self) * y + s)
                         / exp (alpha (DivProc self) * y + s)
                         - beta / (1 - beta))
                   <= Rabs (value f x' / exp x' - beta / (1 - beta)) + gamma).
    { intros y s Hy Hs. destruct (Hnear y s Hy Hs) as (x' & Hx' & Hle).
      exists x'. split; [exact Hx'|].
      rewrite !relative_error_ratio in Hle by exact Hbeta. exact Hle. }
    pose proof (ratio_error_bound_off_grid beta (alpha (DivProc self)) c
                  gamma (X (ShkAppDstn (DivProc self)))
                  (pmf (ShkAppDstn (DivProc self))) logDGrid
                  (fun y => value f y / exp y)
                  Hbeta ltac:(congruence) Hp0 Hp1 Hnear' Hratio x Hx)
      as Hbound.
    unfold ratio_operator in Hbound.
    rewrite pricing_rhs_log by exact Hrho. fold beta.
    rewrite closed_form_log_ratio by exact Hbeta.
    set (t := beta * expect _ _ _) in *.
    pose proof (exp_pos x) as Hex.
    replace (exp x * t - exp x * (beta / (1 - beta)))
      with (exp x * (t - beta / (1 - beta))) by ring.
    rewrite Rabs_mult, (Rabs_right (exp x)) by lra.
    rewrite Rmult_assoc.
    apply Rmult_le_compat_l; [lra | exact Hbound]. }
  split; [|split].
  - intros x Hx.
    destruct (mapM_In _ _ _ Hprices x Hx) as [u Hu].
    exists u, (pricing_rhs self (value f) x).
    split; [exact Hu|]. split; [apply Hval; exact Hx|].
    rewrite <- (call_value _ _ _ Hu). apply Hstep. exact Hx.
  - exact Hgamma.
  - intros Hclosed x Hx.
    destruct (Hgamma 0) with (x := x) as (v & Hv & Hle); [|exact Hx|].
    { intros y s Hy Hs. exists (alpha (DivProc self) * y + s).
      split; [apply Hclosed; assumption | lra]. }
    exists v. split; [exact Hv|].
    eapply Rle_trans; [exact Hle|]. apply Req_le.
    pose proof (exp_pos x0) as Hex0.
    replace (exp (x - x0)) with (exp x * / exp x0)
      by (unfold Rminus; rewrite exp_plus, exp_Ropp; reflexivity).
    unfold c. field. split; lra.
Qed.

Lemma steady_transition_closed :
  transition_closed steady_process two_point_grid.
Proof.
  intros x s Hx [<-|[]]. simpl. replace (1 * x + 0) with x by ring. exact Hx.
Qed.

Lemma steady_probabilities : probabilities steady_process.
Proof.
  split.
  - intros p [<-|[]]. lra.
  - unfold Rsum. simpl. ring.
Qed.

(** *** An AR(1) economy with two shock nodes, from the zero function *)

Lemma noisy_aligned : shocks_aligned (DivProc noisy_economy).
Proof. split; reflexivity. Qed.

Lemma noisy_probabilities : probabilities (DivProc noisy_economy).
Proof.
  split.
  - intros p [<-|[<-|[]]]; lra.
  - unfold Rsum. simpl. lra.
Qed.

Lemma next_prices_noisy_zero :
  next_prices noisy_economy (ConstantFunction 0) two_point_grid = [1 / 2; 1].
Proof.
  unfold next_prices, two_point_grid. cbn [map].
  rewrite !pricing_rhs_log by reflexivity.
  unfold expect, Rsum, value. simpl.
  rewrite exp_0, exp_ln by lra. rewrite !Rdiv_0_l.
  apply f_equal2; [lra|]. apply f_equal2; [lra | reflexivity].
Qed.

Lemma noisy_first_pass :
  solve_loop noisy_economy None (Some two_point_grid) 2 default_maxIter false
  = Ok (next_state noisy_economy two_point_grid false
          (solve_init None [0; 0] 2))
  /\ norm (next_state noisy_economy two_point_grid false
             (solve_init None [0; 0] 2)) <= 2.
Proof.
  assert (Hnorm : norm (next_state noisy_economy two_point_grid false
                          (solve_init None [0; 0] 2)) <= 2).
  { unfold next_state, solve_init, solve_guess. cbn [norm Pf_0 P_0].
    rewrite next_prices_noisy_zero.
    unfold price_change, np_linalg_norm, Rsum, Rsqr. simpl.
    apply (sqrt_bounds 0 _ 2); lra. }
  split; [|exact Hnorm].
  apply solve_loop_first_pass_exit.
  - apply noisy_aligned.
  - apply two_point_grid_increasing.
  - simpl. lia.
  - apply ConstantFunction_defined_on_transitions.
  - reflexivity.
  - unfold default_maxIter. lia.
  - left. exact Hnorm.
Qed.

Lemma relative_error_zero_function (beta y : R) :
  0 < beta < 1 ->
  relative_error beta (ConstantFunction 0) y = beta / (1 - beta).
Proof.
  intros Hb. rewrite relative_error_ratio by exact Hb.
  unfold value. simpl. pose proof (exp_pos y) as Hy.
  replace (0 / exp y - beta / (1 - beta)) with (- (beta / (1 - beta)))
    by (field; lra).
  rewrite Rabs_Ropp. apply Rabs_right.
  apply Rle_ge, Rlt_le, Rdiv_lt_0_compat; lra.
Qed.

Lemma log_utility_converged_error_bound_witness :
  alpha (DivProc noisy_economy) = 9 / 10
  /\ ~ transition_closed (DivProc noisy_economy) two_point_grid
  /\ exists v,
       call (Pf_0 (next_state noisy_economy two_point_grid false
                     (solve_init None [0; 0] 2))) (ln 2) = Ok v
       /\ Rabs (v - closed_form_log (DiscFac noisy_economy) (exp (ln 2)))
          <= exp (ln 2) * (2 / exp (nth 0 two_point_grid 0) + 0)
             * (DiscFac noisy_economy / (1 - DiscFac noisy_economy)).
Proof.
  split; [reflexivity|]. split.
  { intros Hclosed.
    destruct (Hclosed 0 (1 / 10)) as [H|[H|[]]];
      [left; reflexivity | right; left; reflexivity | | ];
      simpl in H; pose proof ln_lt_2; lra. }
  destruct noisy_first_pass as [Hloop Hnorm].
  destruct (log_utility_converged_error_bound noisy_economy None
              two_point_grid 2 default_maxIter false _ eq_refl
              ltac:(simpl; lra) noisy_aligned noisy_probabilities
              two_point_grid_increasing ltac:(simpl; lia) Hloop Hnorm)
    as (P0 & k & prev & HP & Hk & Hbody & _ & Hgamma & _).
  assert (Hprev : Pf_0 prev = ConstantFunction 0).
  { pose proof (iterate_it _ _ _ _ _ _ Hk) as Hit.
    pose proof (solve_body_inv _ _ _ _ _ Hbody) as (_ & _ & _ & Hit' & _).
    cbn [it next_state solve_init] in Hit, Hit'.
    destruct k as [|k]; [|lia].
    simpl in Hk. inversion Hk. reflexivity. }
  apply (Hgamma 0); [|right; left; reflexivity].
  intros x s _ _. exists 0. split; [left; reflexivity|].
  rewrite Hprev, !relative_error_zero_function by (simpl; lra). lra.
Defined.

(** *** Where the one-period operator reads the candidate function *)

Lemma zipM_In {A B C : Type} (f : A -> B -> result C) (a : list A)
      (b : list B) (r : list C) :
  zipM f a b = Ok r ->
  forall z, In z r -> exists x y, In x a /\ In y b /\ f x y = Ok z.
Proof.
  revert b r. induction a as [|x a IH]; intros [|y b] r H z Hz; simpl in H;
    try discriminate.
  - inversion H; subst r. contradiction.
  - monad_inv_as H Hxy. monad_inv_as H Hrest. inversion H; subst r.
    destruct Hz as [<-|Hz].
    + exists x, y. repeat split; try (left; reflexivity). exact Hxy.
    + destruct (IH _ _ Hrest z Hz) as (x' & y' & Hx' & Hy' & Hf).
      exists x', y'. repeat split; try (right; assumption). exact Hf.
Qed.

Lemma mapM_ext_In {A B : Type} (f g : A -> result B) (l : list A) :
  (forall x, In x l -> f x = g x) -> mapM f l = mapM g l.
Proof.
  induction l as [|a l IH]; intros H; simpl; [reflexivity|].
  rewrite (H a) by (left; reflexivity).
  rewrite IH by (intros x Hx; apply H; right; exact Hx).
  reflexivity.
Qed.

(** Every entry of the array of tomorrow's log-dividends is the image of a
    grid point under one shock node. *)
Lemma logD_next_entries (self : LucasEconomy) (logDGrid : vector)
      (logD_next : matrix) :
  mat_op (total2 Rplus)
         (mat_map (Rmult (alpha (DivProc self)))
                  (tile_columns logDGrid (nApprox (DivProc self))))
         (tile_rows (X (ShkAppDstn (DivProc self))) (length logDGrid))
  = Ok logD_next ->
  forall row y, In row logD_next -> In y row ->
    exists x s, In x logDGrid /\ In s (X (ShkAppDstn (DivProc self)))
                /\ y = alpha (DivProc self) * x + s.
Proof.
  intros H row y Hrow Hy.
  destruct (zipM_In _ _ _ _ H row Hrow) as (ra & rb & Hra & Hrb & Hop).
  destruct (zipM_In _ _ _ _ Hop y Hy) as (u & v & Hu & Hv & Huv).
  unfold mat_map, tile_columns in Hra. rewrite map_map in Hra.
  apply in_map_iff in Hra. destruct Hra as (x & <- & Hx).
  apply in_map_iff in Hu. destruct Hu as (u' & <- & Hu').
  apply repeat_spec in Hu'. subst u'.
  unfold tile_rows in Hrb. apply repeat_spec in Hrb. subst rb.
  inversion Huv. exists x, v. repeat split; assumption.
Qed.

(** X1: [priceOnePeriod] looks at the candidate function [Pfunc_next]
    only at the points [alpha * x + s], for [x] on the grid and [s] a
    shock node: two candidates that behave alike at these points give the
    same result, interpolant or failure, whatever they do elsewhere. *)
Theorem priceOnePeriod_reads_only_transitions
        (self : LucasEconomy) (f g : Pfunc) (logDGrid : vector) :
  (forall x s, In x logDGrid -> In s (X (ShkAppDstn (DivProc self))) ->
     call f (alpha (DivProc self) * x + s)
     = call g (alpha (DivProc self) * x + s)) ->
  priceOnePeriod self f logDGrid = priceOnePeriod self g logDGrid.
Proof.
  intros Hfg. unfold priceOnePeriod.
  destruct (mat_op (total2 Rplus)
              (mat_map (Rmult (alpha (DivProc self)))
                 (tile_columns logDGrid (nApprox (DivProc self))))
              (tile_rows (X (ShkAppDstn (DivProc self))) (length logDGrid)))
    as [logD_next|e] eqn:E; simpl; [|reflexivity].
  assert (Hcall : call_mat f logD_next = call_mat g logD_next).
  { unfold call_mat. apply mapM_ext_In. intros row Hrow.
    unfold call_vec. apply mapM_ext_In. intros y Hy.
    destruct (logD_next_entries _ _ _ E row y Hrow Hy)
      as (x & s & Hx & Hs & ->).
    apply Hfg; assumption. }
  rewrite Hcall. reflexivity.
Qed.

Lemma priceOnePeriod_reads_only_transitions_witness :
  priceOnePeriod (steady_economy (1 / 2)) (ConstantFunction 0) two_point_grid
  = priceOnePeriod (steady_economy (1 / 2))
      (Callable (fun y => if Rlt_dec (-1) y then Some 0 else None))
      two_point_grid.
Proof.
  apply (priceOnePeriod_reads_only_transitions (steady_economy (1 / 2))).
  intros x s Hx Hs. simpl in Hs. destruct Hs as [<-|[]].
  simpl. pose proof ln_lt_2 as Hln.
  destruct Hx as [<-|[<-|[]]];
    match goal with
    | |- context [Rlt_dec (-1) ?y] => destruct (Rlt_dec (-1) y) as [_|Hno]
    end; try reflexivity; exfalso; apply Hno; lra.
Defined.

(** *** Order and sign of the prices the operator computes *)

Lemma Rsum_map_le {A : Type} (F G : A -> R) (l : list A) :
  (forall a, In a l -> F a <= G a) -> Rsum (map F l) <= Rsum (map G l).
Proof.
  unfold Rsum. induction l as [|a l IH]; intros H; simpl; [lra|].
  pose proof (H a (or_introl eq_refl)).
  specialize (IH (fun b Hb => H b (or_intror Hb))). lra.
Qed.

Lemma Rsum_map_pos {A : Type} (F : A -> R) (l : list A) :
  l <> [] -> (forall a, In a l -> 0 < F a) -> 0 < Rsum (map F l).
Proof.
  unfold Rsum. induction l as [|a l IH]; intros Hne H; [contradiction|].
  simpl. pose proof (H a (or_introl eq_refl)).
  destruct l as [|b l]; [simpl; lra|].
  specialize (IH ltac:(discriminate) (fun c Hc => H c (or_intror Hc))). lra.
Qed.

Lemma uP_pos (self : LucasEconomy) (c : R) : 0 < uP self c.
Proof. unfold uP, CRRAutilityP, Rpower. apply exp_pos. Qed.

Lemma pricing_rhs_monotone (self : LucasEconomy) (fv gv : R -> R) (x : R) :
  0 <= DiscFac self ->
  (forall p, In p (pmf (ShkAppDstn (DivProc self))) -> 0 <= p) ->
  (forall s, In s (X (ShkAppDstn (DivProc self))) ->
     fv (alpha (DivProc self) * x + s) <= gv (alpha (DivProc self) * x + s)) ->
  pricing_rhs self fv x <= pricing_rhs self gv x.
Proof.
  intros Hb Hp Hle. unfold pricing_rhs.
  apply Rmult_le_compat_l; [exact Hb|].
  apply Rsum_map_le. intros [s p] Hsp.
  pose proof (Hp p (in_combine_r _ _ _ _ Hsp)) as Hp0.
  pose proof (Hle s (in_combine_l _ _ _ _ Hsp)) as Hs.
  pose proof (uP_pos self (exp (alpha (DivProc self) * x + s) / exp x)) as Hu.
  apply Rmult_le_compat_l; [|lra].
  apply Rmult_le_pos; lra.
Qed.

Lemma pricing_rhs_positive (self : LucasEconomy) (fv : R -> R) (x : R) :
  0 < DiscFac self ->
  shocks_aligned (DivProc self) -> (1 <= nApprox (DivProc self))%nat ->
  (forall p, In p (pmf (ShkAppDstn (DivProc self))) -> 0 < p) ->
  (forall s, In s (X (ShkAppDstn (DivProc self))) ->
     0 <= fv (alpha (DivProc self) * x + s)) ->
  0 < pricing_rhs self fv x.
Proof.
  intros Hb [HX Hpm] Hn Hp Hf. unfold pricing_rhs.
  apply Rmult_lt_0_compat; [exact Hb|].
  apply Rsum_map_pos.
  - destruct (X (ShkAppDstn (DivProc self))) as [|s ss];
      [simpl in HX; lia|].
    destruct (pmf (ShkAppDstn (DivProc self))) as [|p ps];
      [simpl in Hpm; lia|].
    discriminate.
  - intros [s p] Hsp.
    pose proof (Hp p (in_combine_r _ _ _ _ Hsp)) as Hp0.
    pose proof (Hf s (in_combine_l _ _ _ _ Hsp)) as Hs.
    pose proof (uP_pos self (exp (alpha (DivProc self) * x + s) / exp x)) as Hu.
    pose proof (exp_pos (alpha (DivProc self) * x + s)) as He.
    apply Rmult_lt_0_compat; [|lra].
    apply Rmult_lt_0_compat; lra.
Qed.

Lemma Forall2_map_same {A : Type} (rel : R -> R -> Prop) (F G : A -> R)
      (l : list A) :
  (forall a, In a l -> rel (F a) (G a)) -> Forall2 rel (map F l) (map G l).
Proof.
  induction l as [|a l IH]; intros H; simpl; constructor.
  - apply H. left. reflexivity.
  - apply IH. intros b Hb. apply H. right. exact Hb.
Qed.

(** X2: the one-period operator is monotone.  With a non-negative discount
    factor and non-negative shock probabilities, a candidate function that
    is nowhere above another at the points the operator reads gives prices
    that are nowhere above the other's, grid point by grid point. *)
Theorem priceOnePeriod_monotone
        (self : LucasEconomy) (f g : Pfunc) (logDGrid : vector) :
  shocks_aligned (DivProc self) ->
  0 <= DiscFac self ->
  (forall p, In p (pmf (ShkAppDstn (DivProc self))) -> 0 <= p) ->
  defined_on_transitions self f logDGrid ->
  defined_on_transitions self g logDGrid ->
  (forall x s vf vg,
     In x logDGrid -> In s (X (ShkAppDstn (DivProc self))) ->
     call f (alpha (DivProc self) * x + s) = Ok vf ->
     call g (alpha (DivProc self) * x + s) = Ok vg -> vf <= vg) ->
  exists P Q,
    priceOnePeriod self f logDGrid = Ok (LinearInterp logDGrid P true)
    /\ priceOnePeriod self g logDGrid = Ok (LinearInterp logDGrid Q true)
    /\ Forall2 Rle P Q.
Proof.
  intros Hal Hb Hp Hf Hg Hle.
  exists (next_prices self f logDGrid), (next_prices self g logDGrid).
  split; [apply priceOnePeriod_next_prices; assumption|].
  split; [apply priceOnePeriod_next_prices; assumption|].
  unfold next_prices. apply Forall2_map_same. intros x Hx.
  apply pricing_rhs_monotone; try assumption.
  intros s Hs.
  destruct (Hf x s Hx Hs) as [vf Hvf]. destruct (Hg x s Hx Hs) as [vg Hvg].
  rewrite (call_value _ _ _ Hvf), (call_value _ _ _ Hvg).
  eapply Hle; eassumption.
Qed.

Lemma priceOnePeriod_monotone_witness :
  exists P Q,
    priceOnePeriod (steady_economy (1 / 2)) (ConstantFunction 0)
                   two_point_grid = Ok (LinearInterp two_point_grid P true)
    /\ priceOnePeriod (steady_economy (1 / 2)) (ConstantFunction 1)
                      two_point_grid = Ok (LinearInterp two_point_grid Q true)
    /\ Forall2 Rle P Q.
Proof.
  apply (priceOnePeriod_monotone (steady_economy (1 / 2))
           (ConstantFunction 0) (ConstantFunction 1) two_point_grid).
  - apply steady_aligned.
  - simpl. lra.
  - intros p [<-|[]]. lra.
  - apply ConstantFunction_defined_on_transitions.
  - apply ConstantFunction_defined_on_transitions.
  - intros x s vf vg _ _ Hvf Hvg. simpl in Hvf, Hvg.
    inversion Hvf. inversion Hvg. lra.
Defined.

(** X3: prices are positive.  With a positive discount factor and positive
    probabilities on at least one shock node, a candidate function that is
    nowhere negative at the points the operator reads gives a strictly
    positive price at every grid point; the zero function [solve] starts
    from is such a candidate. *)
Theorem priceOnePeriod_prices_positive
        (self : LucasEconomy) (f : Pfunc) (logDGrid : vector) :
  shocks_aligned (DivProc self) -> (1 <= nApprox (DivProc self))%nat ->
  0 < DiscFac self ->
  (forall p, In p (pmf (ShkAppDstn (DivProc self))) -> 0 < p) ->
  (forall x s,
     In x logDGrid -> In s (X (ShkAppDstn (DivProc self))) ->
     exists v, call f (alpha (DivProc self) * x + s) = Ok v /\ 0 <= v) ->
  exists P,
    priceOnePeriod self f logDGrid = Ok (LinearInterp logDGrid P true)
    /\ length P = length logDGrid
    /\ Forall (fun v => 0 < v) P.
Proof.
  intros Hal Hn Hb Hp Hf.
  assert (Hdef : defined_on_transitions self f logDGrid).
  { intros x s Hx Hs. destruct (Hf x s Hx Hs) as (v & Hv & _). eauto. }
  exists (next_prices self f logDGrid).
  split; [apply priceOnePeriod_next_prices; assumption|].
  split; [apply next_prices_length|].
  unfold next_prices. apply Forall_forall. intros v Hv.
  apply in_map_iff in Hv. destruct Hv as (x & <- & Hx).
  apply pricing_rhs_positive; try assumption.
  intros s Hs. destruct (Hf x s Hx Hs) as (v & Hv & Hv0).
  rewrite (call_value _ _ _ Hv). exact Hv0.
Qed.

Lemma priceOnePeriod_prices_positive_witness :
  exists P,
    priceOnePeriod (steady_economy (1 / 2)) (solve_guess None)
                   two_point_grid = Ok (LinearInterp two_point_grid P true)
    /\ length P = length two_point_grid
    /\ Forall (fun v => 0 < v) P.
Proof.
  apply (priceOnePeriod_prices_positive (steady_economy (1 / 2))
           (solve_guess None) two_point_grid).
  - apply steady_aligned.
  - simpl. lia.
  - simpl. lra.
  - intros p [<-|[]]. lra.
  - intros x s _ _. exists 0. split; [reflexivity | lra].
Defined.

(** *** The closed form under log utility *)

Lemma expect_ext_In (nodes weights : vector) (h1 h2 : R -> R) :
  (forall s, In s nodes -> h1 s = h2 s) ->
  expect nodes weights h1 = expect nodes weights h2.
Proof.
  intros H. unfold expect. f_equal. apply map_ext_in. intros [s p] Hsp.
  simpl. rewrite (H s (in_combine_l _ _ _ _ Hsp)). reflexivity.
Qed.

Lemma mapM_Ok {A B : Type} (f : A -> result B) (h : A -> B) (l : list A) :
  (forall x, In x l -> f x = Ok (h x)) -> mapM f l = Ok (map h l).
Proof.
  intros H. rewrite <- (map_id l) at 1. apply mapM_map. exact H.
Qed.

Lemma theta_inv (Disc th : R) :
  theta Disc = Some th -> Disc <> 0 /\ th = 1 / Disc - 1.
Proof.
  unfold theta. destruct (Req_dec_T Disc 0) as [Hz|Hnz]; [discriminate|].
  intros H. inversion H. split; [exact Hnz | reflexivity].
Qed.

(** The pricing equation maps [d / theta] to itself. *)
Lemma pricing_rhs_aSol (self : LucasEconomy) (fv : R -> R) (x th : R) :
  CRRA self = 1 -> theta (DiscFac self) = Some th -> th <> 0 ->
  shocks_aligned (DivProc self) ->
  Rsum (pmf (ShkAppDstn (DivProc self))) = 1 ->
  (forall s, In s (X (ShkAppDstn (DivProc self))) ->
     fv (alpha (DivProc self) * x + s)
     = exp (alpha (DivProc self) * x + s) / th) ->
  pricing_rhs self fv x = exp x / th.
Proof.
  intros Hrho Hth Hth0 [HX Hp] Hsum Hfv.
  apply theta_inv in Hth. destruct Hth as [Hb Hth].
  rewrite pricing_rhs_log by exact Hrho.
  rewrite (expect_ext_In _ _ _ (fun _ => 1 / th + 1)).
  - rewrite expect_const by congruence.
    assert (H1 : DiscFac self * (1 + th) = 1) by (rewrite Hth; field; exact Hb).
    replace (DiscFac self * (1 / th + 1))
      with (DiscFac self * (1 + th) / th) by (field; exact Hth0).
    rewrite H1. field. exact Hth0.
  - intros s Hs. rewrite (Hfv s Hs). field.
    split; [exact Hth0 | apply exp_neq_0].
Qed.

Lemma aSol_ok (th d : R) : th <> 0 -> aSol th d = Ok (d / th).
Proof. intros H. unfold aSol. apply np_divide_ok. exact H. Qed.

(** X4: the notebook's analytical solution under log utility,
    [aSol(d) = d / theta] with [theta = 1/Disc - 1], is a fixed point of
    the discretized one-period operator, for every AR(1) coefficient and
    every set of shock nodes whose probabilities sum to one: from a
    candidate that agrees with [aSol] where the operator reads it,
    [priceOnePeriod] returns the interpolant whose value at each grid
    point is [aSol] of the dividend there. *)
Theorem log_utility_closed_form_is_fixed_point
        (self : LucasEconomy) (f : Pfunc) (logDGrid : vector) (th : R) :
  CRRA self = 1 -> theta (DiscFac self) = Some th -> th <> 0 ->
  shocks_aligned (DivProc self) ->
  Rsum (pmf (ShkAppDstn (DivProc self))) = 1 ->
  (forall x s, In x logDGrid -> In s (X (ShkAppDstn (DivProc self))) ->
     call f (alpha (DivProc self) * x + s)
     = aSol th (exp (alpha (DivProc self) * x + s))) ->
  exists P,
    priceOnePeriod self f logDGrid = Ok (LinearInterp logDGrid P true)
    /\ mapM (fun x => aSol th (exp x)) logDGrid = Ok P.
Proof.
  intros Hrho Hth Hth0 Hal Hsum Hf.
  exists (map (fun x => exp x / th) logDGrid). split.
  - rewrite (priceOnePeriod_values self f (fun y => exp y / th))
      by (try exact Hal; intros x s Hx Hs; rewrite (Hf x s Hx Hs);
          apply aSol_ok; exact Hth0).
    do 2 f_equal. apply map_ext_in. intros x Hx.
    apply pricing_rhs_aSol; try assumption. reflexivity.
  - apply mapM_Ok. intros x _. apply aSol_ok. exact Hth0.
Qed.

Lemma log_utility_closed_form_is_fixed_point_witness :
  exists P,
    priceOnePeriod (steady_economy (1 / 2))
                   (Callable (fun y => Some (exp y / (1 / (1 / 2) - 1))))
                   two_point_grid
    = Ok (LinearInterp two_point_grid P true)
    /\ mapM (fun x => aSol (1 / (1 / 2) - 1) (exp x)) two_point_grid = Ok P.
Proof.
  apply (log_utility_closed_form_is_fixed_point (steady_economy (1 / 2))).
  - reflexivity.
  - unfold theta. simpl.
    destruct (Req_dec_T (1 / 2) 0) as [Hz|_]; [lra | reflexivity].
  - lra.
  - apply steady_aligned.
  - unfold Rsum. simpl. lra.
  - intros x s _ _. simpl. symmetry. apply aSol_ok. lra.
Defined.

Lemma norm_no_change {A : Type} (F : A -> R) (l : list A) :
  np_linalg_norm (map (fun x => F x - F x) l) = 0.
Proof.
  unfold np_linalg_norm.
  replace (Rsum (map Rsqr (map (fun x => F x - F x) l))) with 0;
    [apply sqrt_0|].
  unfold Rsum. induction l as [|a l IH]; simpl; [reflexivity|].
  rewrite <- IH. unfold Rsqr. ring.
Qed.

(** X5: started from the analytical solution of the log-utility economy,
    [solve] stops after one pass: the pass changes no price on the grid,
    the norm is zero, and the function left takes at every grid point the
    value [aSol] of the dividend there. *)
Theorem solve_from_closed_form_converges_at_once
        (self : LucasEconomy) (f : Pfunc) (logDGrid : vector) (th tol : R)
        (maxIter : Z) (disp : bool) :
  CRRA self = 1 -> theta (DiscFac self) = Some th -> th <> 0 ->
  shocks_aligned (DivProc self) ->
  Rsum (pmf (ShkAppDstn (DivProc self))) = 1 ->
  increasing logDGrid -> (2 <= length logDGrid)%nat ->
  0 <= tol -> (1 <= maxIter)%Z ->
  (forall x, In x logDGrid -> call f x = aSol th (exp x)) ->
  (forall x s, In x logDGrid -> In s (X (ShkAppDstn (DivProc self))) ->
     call f (alpha (DivProc self) * x + s)
     = aSol th (exp (alpha (DivProc self) * x + s))) ->
  exists st,
    solve_loop self (Some f) (Some logDGrid) tol maxIter disp = Ok st
    /\ it st = 1%Z
    /\ norm st = 0
    /\ forall x, In x logDGrid -> call (Pf_0 st) x = aSol th (exp x).
Proof.
  intros Hrho Hth Hth0 Hal Hsum Hinc Hlen Htol Hmax Hgrid Hf.
  set (P := map (fun x => exp x / th) logDGrid).
  assert (HP0 : call_vec (solve_guess (Some f)) logDGrid = Ok P).
  { unfold call_vec. apply mapM_Ok. intros x Hx. simpl.
    rewrite (Hgrid x Hx). apply aSol_ok. exact Hth0. }
  assert (Hdef : defined_on_transitions self (solve_guess (Some f)) logDGrid).
  { intros x s Hx Hs. simpl. rewrite (Hf x s Hx Hs).
    rewrite aSol_ok by exact Hth0. eauto. }
  assert (Hnext : next_prices self f logDGrid = P).
  { unfold next_prices, P. apply map_ext_in. intros x Hx.
    apply pricing_rhs_aSol; try assumption.
    intros s Hs. apply call_value. rewrite (Hf x s Hx Hs).
    apply aSol_ok. exact Hth0. }
  assert (Hnorm : norm (next_state self logDGrid disp
                          (solve_init (Some f) P tol)) = 0).
  { unfold next_state, solve_init; cbn [Pf_0 P_0 norm solve_guess].
    rewrite Hnext. unfold P. rewrite price_change_map.
    apply norm_no_change. }
  exists (next_state self logDGrid disp (solve_init (Some f) P tol)).
  split; [|split; [reflexivity | split; [exact Hnorm|]]].
  - apply solve_loop_first_pass_exit; try assumption.
    left. rewrite Hnorm. exact Htol.
  - intros x Hx.
    unfold next_state, solve_init; cbn [Pf_0 P_0 norm solve_guess].
    rewrite Hnext. destruct (In_nth _ _ 0 Hx) as (j & Hj & <-).
    rewrite LinearInterp_at_grid;
      [| exact Hinc | exact Hlen | unfold P; apply length_map | exact Hj].
    rewrite aSol_ok by exact Hth0. f_equal. unfold P.
    rewrite (nth_indep _ 0 ((fun x => exp x / th) 0))
      by (rewrite length_map; exact Hj).
    exact (map_nth (fun x => exp x / th) logDGrid 0 j).
Qed.

Lemma solve_from_closed_form_converges_at_once_witness :
  exists st,
    solve_loop (steady_economy (1 / 2))
               (Some (Callable (fun y => Some (exp y / (1 / (1 / 2) - 1)))))
               (Some two_point_grid) default_tol default_maxIter false
    = Ok st
    /\ it st = 1%Z
    /\ norm st = 0
    /\ forall x, In x two_point_grid ->
         call (Pf_0 st) x = aSol (1 / (1 / 2) - 1) (exp x).
Proof.
  apply (solve_from_closed_form_converges_at_once (steady_economy (1 / 2))).
  - reflexivity.
  - unfold theta. simpl.
    destruct (Req_dec_T (1 / 2) 0) as [Hz|_]; [lra | reflexivity].
  - lra.
  - apply steady_aligned.
  - unfold Rsum. simpl. lra.
  - apply two_point_grid_increasing.
  - simpl. lia.
  - unfold default_tol. lra.
  - unfold default_maxIter. lia.
  - intros x _. simpl. symmetry. apply aSol_ok. lra.
  - intros x s _ _. simpl. symmetry. apply aSol_ok. lra.
Defined.

(** *** The closed form under i.i.d. dividends *)

Lemma uP_exp_ratio (self : LucasEconomy) (y x : R) :
  uP self (exp y / exp x) = exp (CRRA self * x) * exp (- CRRA self * y).
Proof.
  unfold uP, CRRAutilityP, Rpower, Rdiv.
  rewrite <- exp_Ropp, <- !exp_plus, ln_exp. f_equal. ring.
Qed.

Lemma aSolIID_exp (rho D beta x : R) :
  beta <> 1 ->
  aSolIID rho D beta (exp x) = Ok (D * beta / (1 - beta) * exp (rho * x)).
Proof.
  intros Hb. unfold aSolIID. rewrite np_divide_ok by lra.
  unfold Rpower. rewrite ln_exp. f_equal. field. lra.
Qed.

(** With i.i.d. dividends the pricing equation maps [K * d ** rho] to
    [beta * (K + M) * d ** rho], where [M] is the shock moment. *)
Lemma pricing_rhs_iid (self : LucasEconomy) (fv : R -> R) (x K : R) :
  alpha (DivProc self) = 0 ->
  shocks_aligned (DivProc self) ->
  Rsum (pmf (ShkAppDstn (DivProc self))) = 1 ->
  (forall s, In s (X (ShkAppDstn (DivProc self))) ->
     fv s = K * exp (CRRA self * s)) ->
  pricing_rhs self fv x
  = DiscFac self * (K + iid_moment self) * exp (CRRA self * x).
Proof.
  intros Ha [HX Hp] Hsum Hfv. unfold pricing_rhs. rewrite Ha.
  rewrite (map_ext_in _
             (fun sp : R * R =>
                exp (CRRA self * x)
                * (snd sp * (K + exp ((1 - CRRA self) * fst sp))))).
  - rewrite Rsum_scale.
    change (Rsum (map (fun sp : R * R =>
                         snd sp * (K + exp ((1 - CRRA self) * fst sp)))
                      (combine (X (ShkAppDstn (DivProc self)))
                               (pmf (ShkAppDstn (DivProc self))))))
      with (expect (X (ShkAppDstn (DivProc self)))
                   (pmf (ShkAppDstn (DivProc self)))
                   (fun s => K + exp ((1 - CRRA self) * s))).
    rewrite (expect_plus _ _ (fun _ => K)
               (fun s => exp ((1 - CRRA self) * s))).
    rewrite expect_const by congruence.
    unfold iid_moment. ring.
  - intros [s p] Hsp. cbn [fst snd].
    replace (0 * x + s) with s by ring.
    rewrite uP_exp_ratio, (Hfv s (in_combine_l _ _ _ _ Hsp)).
    replace (exp ((1 - CRRA self) * s))
      with (exp (- CRRA self * s) * exp s)
      by (rewrite <- exp_plus; f_equal; ring).
    assert (H1 : exp (- CRRA self * s) * exp (CRRA self * s) = 1)
      by (rewrite <- exp_plus, <- exp_0; f_equal; ring).
    set (E1 := exp (- CRRA self * s)) in *.
    set (E2 := exp (CRRA self * s)) in *.
    replace (p * (exp (CRRA self * x) * E1) * (K * E2 + exp s))
      with (exp (CRRA self * x) * (p * (K * (E1 * E2) + E1 * exp s)))
      by ring.
    rewrite H1. ring.
Qed.

(** What [priceOnePeriod] makes of the notebook's [aSolIID], whatever the
    constant [D] it is built with. *)
Lemma priceOnePeriod_aSolIID (self : LucasEconomy) (f : Pfunc)
      (logDGrid : vector) (D : R) :
  alpha (DivProc self) = 0 -> DiscFac self <> 1 ->
  shocks_aligned (DivProc self) ->
  Rsum (pmf (ShkAppDstn (DivProc self))) = 1 ->
  (forall s, In s (X (ShkAppDstn (DivProc self))) ->
     call f s = aSolIID (CRRA self) D (DiscFac self) (exp s)) ->
  priceOnePeriod self f logDGrid
  = Ok (LinearInterp logDGrid
          (map (fun x => DiscFac self
                         * (D * DiscFac self / (1 - DiscFac self)
                            + iid_moment self)
                         * exp (CRRA self * x)) logDGrid) true).
Proof.
  intros Ha Hb Hal Hsum Hf.
  set (K := D * DiscFac self / (1 - DiscFac self)).
  rewrite (priceOnePeriod_values self f
             (fun s => K * exp (CRRA self * s))).
  - do 2 f_equal. apply map_ext. intros x.
    apply pricing_rhs_iid; try assumption. reflexivity.
  - exact Hal.
  - intros x s Hx Hs. rewrite Ha.
    replace (0 * x + s) with s by ring.
    rewrite (Hf s Hs). apply aSolIID_exp. exact Hb.
Qed.

Lemma aSolIID_on_grid (rho D beta : R) (logDGrid : vector) :
  beta <> 1 ->
  mapM (fun x => aSolIID rho D beta (exp x)) logDGrid
  = Ok (map (fun x => D * beta / (1 - beta) * exp (rho * x)) logDGrid).
Proof.
  intros Hb. apply mapM_Ok. intros x _. apply aSolIID_exp. exact Hb.
Qed.

(** The prices computed from [aSolIID] are those of [aSolIID] exactly when
    the moment of the discretized shock is the constant [D]. *)
Lemma aSolIID_fixed_iff (rho D beta M : R) (logDGrid : vector) :
  beta <> 0 -> beta <> 1 -> logDGrid <> [] ->
  map (fun x => D * beta / (1 - beta) * exp (rho * x)) logDGrid
  = map (fun x => beta * (D * beta / (1 - beta) + M) * exp (rho * x)) logDGrid
  <-> M = D.
Proof.
  intros Hb0 Hb1 Hne. split.
  - intros Heq. destruct logDGrid as [|x l]; [contradiction|].
    simpl in Heq. injection Heq as H0 _.
    pose proof (exp_pos (rho * x)) as He.
    apply Rmult_eq_reg_r in H0; [|lra].
    assert (H1 : D * beta = beta * (D * beta + M * (1 - beta))).
    { apply (f_equal (fun v => v * (1 - beta))) in H0.
      replace (D * beta / (1 - beta) * (1 - beta)) with (D * beta) in H0
        by (field; lra).
      replace (beta * (D * beta / (1 - beta) + M) * (1 - beta))
        with (beta * (D * beta + M * (1 - beta))) in H0 by (field; lra).
      exact H0. }
    assert (H2 : beta * ((1 - beta) * (M - D)) = 0) by lra.
    apply Rmult_integral in H2. destruct H2 as [H2|H2]; [contradiction|].
    apply Rmult_integral in H2. destruct H2 as [H2|H2]; lra.
  - intros ->. apply map_ext. intros x. field. lra.
Qed.

(** X6: the notebook's analytical solution for i.i.d. dividends,
    [aSolIID(d) = d**CRRA * dTil * Disc/(1 - Disc)], built with a constant
    [D] in the place of [dTil], is a fixed point of the discretized
    one-period operator exactly when the discretized shock has the moment
    [E[exp((1 - CRRA) * s)] = D]: [priceOnePeriod] returns the values of
    [aSolIID] at the grid's dividends if and only if that holds. *)
Theorem aSolIID_fixed_iff_moment_matches
        (self : LucasEconomy) (f : Pfunc) (logDGrid : vector) (D : R) :
  alpha (DivProc self) = 0 ->
  DiscFac self <> 0 -> DiscFac self <> 1 ->
  shocks_aligned (DivProc self) ->
  Rsum (pmf (ShkAppDstn (DivProc self))) = 1 ->
  logDGrid <> [] ->
  (forall s, In s (X (ShkAppDstn (DivProc self))) ->
     call f s = aSolIID (CRRA self) D (DiscFac self) (exp s)) ->
  exists P,
    priceOnePeriod self f logDGrid = Ok (LinearInterp logDGrid P true)
    /\ (mapM (fun x => aSolIID (CRRA self) D (DiscFac self) (exp x)) logDGrid
        = Ok P
        <-> iid_moment self = D).
Proof.
  intros Ha Hb0 Hb1 Hal Hsum Hne Hf.
  eexists. split; [apply priceOnePeriod_aSolIID; eassumption|].
  rewrite aSolIID_on_grid by exact Hb1.
  rewrite <- (aSolIID_fixed_iff (CRRA self) D (DiscFac self)
                (iid_moment self) logDGrid Hb0 Hb1 Hne).
  split; [intros H; inversion H; reflexivity | intros ->; reflexivity].
Qed.

Lemma aSolIID_fixed_iff_moment_matches_witness :
  exists P,
    priceOnePeriod jump_economy
      (Callable (fun s => Some (1 * (4 / 5) / (1 - 4 / 5) * exp (1 * s))))
      two_point_grid
    = Ok (LinearInterp two_point_grid P true)
    /\ (mapM (fun x => aSolIID (CRRA jump_economy) 1 (DiscFac jump_economy)
                               (exp x)) two_point_grid
        = Ok P
        <-> iid_moment jump_economy = 1).
Proof.
  apply (aSolIID_fixed_iff_moment_matches jump_economy).
  - reflexivity.
  - simpl. lra.
  - simpl. lra.
  - apply jump_aligned.
  - unfold Rsum. simpl. lra.
  - discriminate.
  - intros s _. simpl. symmetry. apply aSolIID_exp. lra.
Defined.

Lemma one_node_iid_moment (self : LucasEconomy) :
  one_node_iid (DivProc self) ->
  iid_moment self
  = exp ((1 - CRRA self) * (- shock_sd (DivProc self) ^ 2 / 2)).
Proof.
  intros (_ & Hmean & _ & HX & Hp). unfold iid_moment, expect.
  rewrite HX, Hp, Hmean. unfold Rsum. simpl. ring.
Qed.

(** X7: the notebook's last test, with one shock node ([nApprox = 1]) at
    the mean [-shock_sd**2/2].  The analytical solution [aSolIID], with
    the notebook's constant [dTil], is then a fixed point of the
    discretized operator only under log utility or without risk:
    [priceOnePeriod] returns the values of [aSolIID] at the grid's
    dividends if and only if [CRRA = 1] or [shock_sd = 0]. *)
Theorem one_node_misses_aSolIID
        (self : LucasEconomy) (f : Pfunc) (logDGrid : vector) :
  one_node_iid (DivProc self) ->
  DiscFac self <> 0 -> DiscFac self <> 1 ->
  logDGrid <> [] ->
  (forall s, In s (X (ShkAppDstn (DivProc self))) ->
     call f s
     = aSolIID (CRRA self) (dTil (shock_sd (DivProc self)) (CRRA self))
               (DiscFac self) (exp s)) ->
  exists P,
    priceOnePeriod self f logDGrid = Ok (LinearInterp logDGrid P true)
    /\ (mapM (fun x => aSolIID (CRRA self)
                         (dTil (shock_sd (DivProc self)) (CRRA self))
                         (DiscFac self) (exp x)) logDGrid
        = Ok P
        <-> CRRA self = 1 \/ shock_sd (DivProc self) = 0).
Proof.
  intros Hone Hb0 Hb1 Hne Hf.
  pose proof (one_node_iid_moment self Hone) as HM.
  destruct Hone as (Ha & Hmean & Hn & HX & Hp).
  assert (Hal : shocks_aligned (DivProc self))
    by (split; [rewrite HX | rewrite Hp]; rewrite Hn; reflexivity).
  assert (Hsum : Rsum (pmf (ShkAppDstn (DivProc self))) = 1)
    by (rewrite Hp; unfold Rsum; simpl; ring).
  eexists. split; [apply priceOnePeriod_aSolIID; eassumption|].
  rewrite aSolIID_on_grid by exact Hb1.
  set (sd := shock_sd (DivProc self)) in *. set (rho := CRRA self) in *.
  assert (Hiff : iid_moment self = dTil sd rho <-> rho = 1 \/ sd = 0).
  { rewrite HM. unfold dTil. split.
    - intros He. apply exp_inv in He.
      assert (H0 : sd * sd * ((rho - 1) * (rho - 1)) = 0) by lra.
      apply Rmult_integral in H0. destruct H0 as [H0|H0].
      + right. apply Rmult_integral in H0. tauto.
      + left. apply Rmult_integral in H0. lra.
    - intros [H1|H0]; f_equal; [rewrite H1 | rewrite H0]; field. }
  rewrite <- Hiff.
  rewrite <- (aSolIID_fixed_iff rho (dTil sd rho) (DiscFac self)
                (iid_moment self) logDGrid Hb0 Hb1 Hne).
  split; [intros H; inversion H; reflexivity | intros ->; reflexivity].
Qed.

Lemma one_node_misses_aSolIID_witness :
  exists P,
    priceOnePeriod iid_one_node_economy
      (Callable (fun s => Some (dTil (1 / 10) 10 * (9 / 10) / (1 - 9 / 10)
                                * exp (10 * s))))
      two_point_grid
    = Ok (LinearInterp two_point_grid P true)
    /\ (mapM (fun x => aSolIID (CRRA iid_one_node_economy)
                         (dTil (shock_sd (DivProc iid_one_node_economy))
                               (CRRA iid_one_node_economy))
                         (DiscFac iid_one_node_economy) (exp x))
             two_point_grid
        = Ok P
        <-> CRRA iid_one_node_economy = 1
            \/ shock_sd (DivProc iid_one_node_economy) = 0).
Proof.
  apply (one_node_misses_aSolIID iid_one_node_economy).
  - repeat split.
  - simpl. lra.
  - simpl. lra.
  - discriminate.
  - intros s _. cbn [call]. symmetry.
    apply (aSolIID_exp 10 (dTil (1 / 10) 10) (9 / 10) s). lra.
Defined.

(** *** Further properties of the loop of [solve] *)

Lemma iterate_plus (k1 k2 : nat) (self : LucasEconomy) (g : vector)
      (disp : bool) (st : LoopState) :
  iterate (k1 + k2) self g disp st
  = (st1 <- iterate k1 self g disp st ;; iterate k2 self g disp st1).
Proof.
  induction k2 as [|k2 IH].
  - rewrite Nat.add_0_r. simpl.
    destruct (iterate k1 self g disp st); reflexivity.
  - rewrite Nat.add_succ_r.
    change (iterate (S (k1 + k2)) self g disp st)
      with (st' <- iterate (k1 + k2) self g disp st ;;
            solve_body self g disp st').
    rewrite IH. destruct (iterate k1 self g disp st); reflexivity.
Qed.

(** The converse of [solve_while_iterate]: a sequence of passes whose
    states fail the exit test until the last one is what the loop runs. *)
Lemma solve_while_of_iterate (k : nat) (self : LucasEconomy) (g : vector)
      (tol : R) (maxIter : Z) (disp : bool) :
  forall (fuel : nat) (st st' : LoopState),
    iterate k self g disp st = Ok st' ->
    (forall j, (j < k)%nat ->
       exists stj, iterate j self g disp st = Ok stj
                   /\ norm stj > tol /\ (it stj < maxIter)%Z) ->
    norm st' <= tol \/ (maxIter <= it st')%Z ->
    (k <= fuel)%nat ->
    solve_while fuel self g tol maxIter disp st = Ok st'.
Proof.
  induction k as [|k IH]; intros fuel st st' Hk Hbefore Hexit Hfuel.
  - simpl in Hk. inversion Hk; subst st'. apply solve_while_exit. exact Hexit.
  - destruct fuel as [|fuel]; [lia|].
    destruct (Hbefore O ltac:(lia)) as (st0 & H0 & Hn0 & Hi0).
    simpl in H0. inversion H0; subst st0.
    simpl. rewrite (proj2 (loop_guard_true _ _ _ _) (conj Hn0 Hi0)).
    rewrite iterate_front in Hk. monad_inv_as Hk Hbody. rename a into st1.
    simpl. apply IH; [exact Hk | | exact Hexit | lia].
    intros j Hj. destruct (Hbefore (S j) ltac:(lia)) as (stj & Hj1 & Hj2).
    rewrite iterate_front, Hbody in Hj1. simpl in Hj1. eauto.
Qed.

(** The loop body reads the function and the prices of the state, not its
    norm, and counts and prints besides. *)
Lemma solve_body_alike (self : LucasEconomy) (g : vector) (d1 d2 : bool)
      (st1 st2 : LoopState) :
  Pf_0 st1 = Pf_0 st2 -> P_0 st1 = P_0 st2 ->
  alike (fun a b => Pf_0 a = Pf_0 b /\ P_0 a = P_0 b /\ norm a = norm b)
        (solve_body self g d1 st1) (solve_body self g d2 st2).
Proof.
  intros HPf HP. unfold solve_body. rewrite HPf, HP.
  destruct (priceOnePeriod self (Pf_0 st2) g) as [Pf_next|e]; simpl;
    [|reflexivity].
  destruct (call_vec Pf_next g) as [P_next|e]; simpl; [|reflexivity].
  destruct (vec_op (total2 Rminus) (P_0 st2) P_next) as [diff|e]; simpl;
    [|reflexivity].
  repeat split.
Qed.

Lemma iterate_alike (k : nat) (self : LucasEconomy) (g : vector)
      (d1 d2 : bool) (st1 st2 : LoopState) :
  Pf_0 st1 = Pf_0 st2 -> P_0 st1 = P_0 st2 ->
  alike (fun a b => Pf_0 a = Pf_0 b /\ P_0 a = P_0 b
                    /\ ((1 <= k)%nat -> norm a = norm b))
        (iterate k self g d1 st1) (iterate k self g d2 st2).
Proof.
  intros HPf HP. induction k as [|k IH]; simpl.
  - repeat split; try assumption. lia.
  - destruct (iterate k self g d1 st1) as [a|e1],
             (iterate k self g d2 st2) as [b|e2]; simpl in *;
      try contradiction; [|exact IH].
    destruct IH as (Hf & Hp & _).
    pose proof (solve_body_alike self g d1 d2 a b Hf Hp) as Hb.
    destruct (solve_body self g d1 a), (solve_body self g d2 b); simpl in *;
      try contradiction; [|exact Hb].
    destruct Hb as (H1 & H2 & H3). repeat split; try assumption.
    intros _. exact H3.
Qed.

Lemma iterate_norm_nonneg (k : nat) (self : LucasEconomy) (g : vector)
      (disp : bool) (st st' : LoopState) :
  iterate (S k) self g disp st = Ok st' -> 0 <= norm st'.
Proof.
  intros H. simpl in H. monad_inv_as H Hprev. apply solve_body_inv in H.
  destruct H as (_ & _ & (diff & _ & Hn) & _). rewrite Hn.
  apply sqrt_pos.
Qed.

(** The number of passes of a run that succeeded never exceeds a
    non-negative cap. *)
Lemma solve_loop_run_cap (maxIter : Z) (k : nat) (tol : R)
      (P : nat -> Prop) :
  (0 <= maxIter)%Z ->
  (forall j, (j < k)%nat -> P j /\ (Z.of_nat j < maxIter)%Z) ->
  (Z.of_nat k <= maxIter)%Z.
Proof.
  intros Hmax Hbefore. destruct k as [|k]; [lia|].
  destruct (Hbefore k ltac:(lia)) as [_ Hk]. lia.
Qed.

(** X8: once a run of [solve] has converged, the cap on the passes plays
    no role: under any cap that allows the passes the run took, [solve]
    runs the same passes, ends in the same state and leaves and prints
    the same. *)
Theorem solve_cap_irrelevant_once_converged
        (self : LucasEconomy) (Pfunc_0 : option Pfunc)
        (logDGrid : option vector) (tol : R) (maxIter maxIter' : Z)
        (disp : bool) (st : LoopState) :
  solve_loop self Pfunc_0 logDGrid tol maxIter disp = Ok st ->
  norm st <= tol ->
  (it st <= maxIter')%Z ->
  solve_loop self Pfunc_0 logDGrid tol maxIter' disp = Ok st
  /\ solve self Pfunc_0 logDGrid tol maxIter' disp
     = solve self Pfunc_0 logDGrid tol maxIter disp.
Proof.
  intros Hloop Hconv Hcap.
  assert (Hloop' : solve_loop self Pfunc_0 logDGrid tol maxIter' disp = Ok st).
  { pose proof (solve_loop_run _ _ _ _ _ _ _ Hloop)
      as (g & P0 & k & Hg & HP & Hk & Hit & Hbefore & Hexit).
    unfold solve_loop. rewrite Hg. simpl. rewrite HP. simpl.
    apply (solve_while_of_iterate k); [exact Hk | | left; exact Hconv | lia].
    intros j Hj. destruct (Hbefore j Hj) as (stj & Hj1 & Hj2 & Hj3).
    exists stj. repeat split; try assumption.
    pose proof (iterate_it _ _ _ _ _ _ Hj1) as Hitj. simpl in Hitj. lia. }
  split; [exact Hloop'|]. unfold solve. rewrite Hloop, Hloop'. reflexivity.
Qed.

Lemma solve_cap_irrelevant_once_converged_witness :
  solve_loop (steady_economy (1 / 2)) None (Some two_point_grid) 2 1 false
  = Ok (next_state (steady_economy (1 / 2)) two_point_grid false
          (solve_init None [0; 0] 2))
  /\ solve (steady_economy (1 / 2)) None (Some two_point_grid) 2 1 false
     = solve (steady_economy (1 / 2)) None (Some two_point_grid) 2
             default_maxIter false.
Proof.
  assert (Hn : 0 <= sqrt (5 * (1 / 2) ^ 2) <= 2)
    by (apply sqrt_bounds; lra).
  apply (solve_cap_irrelevant_once_converged
           (steady_economy (1 / 2)) None (Some two_point_grid) 2
           default_maxIter 1 false).
  - apply steady_first_pass_exit;
      [unfold default_maxIter; lia | left; apply Hn].
  - rewrite steady_first_norm. apply Hn.
  - simpl. lia.
Defined.

(** X9: lowering the tolerance never shortens a run: with the same guess,
    grid and cap, the run of [solve] under the smaller tolerance makes at
    least as many passes. *)
Theorem solve_tighter_tolerance_more_passes
        (self : LucasEconomy) (Pfunc_0 : option Pfunc)
        (logDGrid : option vector) (tol tol' : R) (maxIter : Z)
        (disp : bool) (st st' : LoopState) :
  tol' <= tol ->
  solve_loop self Pfunc_0 logDGrid tol maxIter disp = Ok st ->
  solve_loop self Pfunc_0 logDGrid tol' maxIter disp = Ok st' ->
  (it st <= it st')%Z.
Proof.
  intros Htol Hloop Hloop'.
  pose proof (solve_loop_run _ _ _ _ _ _ _ Hloop)
    as (g & P0 & k & Hg & HP & Hk & Hit & Hbefore & Hexit).
  pose proof (solve_loop_run _ _ _ _ _ _ _ Hloop')
    as (g' & P0' & k' & Hg' & HP' & Hk' & Hit' & Hbefore' & Hexit').
  rewrite Hg in Hg'. inversion Hg'; subst g'.
  rewrite HP in HP'. inversion HP'; subst P0'.
  rewrite Hit, Hit'.
  destruct (le_lt_dec k k') as [Hle|Hlt]; [lia|]. exfalso.
  destruct (Hbefore k' Hlt) as (stj & Hj1 & Hj2 & Hj3).
  destruct Hexit' as [Hconv'|Hcap']; [|lia].
  destruct k' as [|k'].
  - simpl in Hk'. inversion Hk'; subst st'. simpl in Hconv'. lra.
  - rewrite iterate_front in Hj1, Hk'.
    change (solve_body self g disp (solve_init Pfunc_0 P0 tol'))
      with (solve_body self g disp (solve_init Pfunc_0 P0 tol)) in Hk'.
    rewrite Hk' in Hj1. inversion Hj1; subst stj. lra.
Qed.

Lemma solve_tighter_tolerance_more_passes_witness :
  (it (next_state (steady_economy (1 / 2)) two_point_grid false
         (solve_init None [0%R; 0%R] 2))
   <= it (steady_state (1 / 2) 1 2))%Z.
Proof.
  assert (Hn : 0 <= sqrt (5 * (1 / 2) ^ 2) <= 2)
    by (apply sqrt_bounds; lra).
  apply (solve_tighter_tolerance_more_passes
           (steady_economy (1 / 2)) None (Some two_point_grid) 2 1
           default_maxIter false).
  - lra.
  - apply steady_first_pass_exit;
      [unfold default_maxIter; lia | left; apply Hn].
  - apply steady_run.
    + lia.
    + unfold default_maxIter. simpl. lia.
    + intros i Hi. assert (i = 1%nat) by lia. subst i.
      apply sqrt_above; lra.
    + apply (sqrt_bounds 0); lra.
Defined.

(** X10: with a negative tolerance the norm, which is never negative, can
    never pass the test [norm > tol]: [solve] runs exactly [maxIter]
    passes and, when it displays, ends with the message of the cap. *)
Theorem solve_negative_tolerance_runs_to_cap
        (self : LucasEconomy) (Pfunc_0 : option Pfunc)
        (logDGrid : option vector) (tol : R) (maxIter : Z) (disp : bool)
        (out : SolveOutcome) :
  tol < 0 -> (0 <= maxIter)%Z ->
  solve self Pfunc_0 logDGrid tol maxIter disp = Ok out ->
  exists st,
    solve_loop self Pfunc_0 logDGrid tol maxIter disp = Ok st
    /\ it st = maxIter
    /\ norm st > tol
    /\ (disp = true ->
        printed out = stdout st ++ [Text "Maximum iterations exceeded!"]).
Proof.
  intros Htol Hmax Hsolve.
  destruct (solve_inv _ _ _ _ _ _ _ Hsolve)
    as (st & Hloop & _ & _ & _ & _ & _ & Hprint).
  exists st. split; [exact Hloop|].
  pose proof (solve_loop_run _ _ _ _ _ _ _ Hloop)
    as (g & P0 & k & Hg & HP & Hk & Hit & Hbefore & Hexit).
  assert (Hnorm : norm st > tol).
  { destruct k as [|k].
    - simpl in Hk. inversion Hk; subst st. simpl. lra.
    - pose proof (iterate_norm_nonneg _ _ _ _ _ _ Hk). lra. }
  assert (Hle : (Z.of_nat k <= maxIter)%Z).
  { apply (solve_loop_run_cap maxIter k tol
             (fun j => exists stj,
                iterate j self g disp (solve_init Pfunc_0 P0 tol) = Ok stj
                /\ norm stj > tol)); [exact Hmax|].
    intros j Hj. destruct (Hbefore j Hj) as (stj & H1 & H2 & H3).
    split; [eauto | exact H3]. }
  repeat split.
  - destruct Hexit as [Hconv|Hcap]; [lra | lia].
  - exact Hnorm.
  - intros ->. rewrite Hprint. unfold Rleb.
    destruct (Rle_dec (norm st) tol); [lra | reflexivity].
Qed.

Lemma solve_negative_tolerance_runs_to_cap_witness :
  exists st,
    solve_loop (steady_economy (1 / 2)) None (Some two_point_grid) (-1) 1
               false = Ok st
    /\ it st = 1%Z
    /\ norm st > -1
    /\ (false = true ->
        printed (steady_outcome (1 / 2))
        = stdout st ++ [Text "Maximum iterations exceeded!"]).
Proof.
  apply (solve_negative_tolerance_runs_to_cap
           (steady_economy (1 / 2)) None (Some two_point_grid) (-1) 1 false
           (steady_outcome (1 / 2))).
  - lra.
  - lia.
  - apply steady_solve.
Defined.

(** *** What [solve] prints *)

Lemma combine_snoc {A B : Type} (l : list A) (r : list B) (a : A) (b : B) :
  length l = length r ->
  combine (l ++ [a]) (r ++ [b]) = combine l r ++ [(a, b)].
Proof.
  revert r. induction l as [|x l IH]; intros [|y r] Hlen; simpl in Hlen;
    try discriminate; [reflexivity|].
  simpl. rewrite IH by lia. reflexivity.
Qed.

Lemma pass_lines_snoc (norms : vector) (n : R) :
  pass_lines (norms ++ [n])
  = pass_lines norms ++ [IterLine (Z.of_nat (S (length norms))) n].
Proof.
  unfold pass_lines. rewrite length_app. simpl.
  rewrite Nat.add_1_r, seq_S.
  rewrite combine_snoc by (rewrite length_seq; reflexivity).
  rewrite map_app. reflexivity.
Qed.

(** With display, the passes made so far are on the output, numbered from
    one, each with its norm. *)
Lemma iterate_stdout (k : nat) (self : LucasEconomy) (g : vector)
      (st0 st : LoopState) :
  it st0 = 0%Z -> stdout st0 = [] ->
  iterate k self g true st0 = Ok st ->
  exists norms,
    length norms = k
    /\ stdout st = pass_lines norms
    /\ (forall j stj, (j < k)%nat ->
          iterate (S j) self g true st0 = Ok stj -> nth j norms 0 = norm stj).
Proof.
  intros Hit0 Hout0. revert st.
  induction k as [|k IH]; intros st Hk.
  - simpl in Hk. inversion Hk; subst st. exists []. repeat split.
    + rewrite Hout0. reflexivity.
    + intros j stj Hj. lia.
  - pose proof Hk as Hk'. simpl in Hk. monad_inv_as Hk Hprev.
    rename a into prev.
    destruct (IH prev eq_refl) as (norms & Hlen & Hout & Hnth).
    pose proof (iterate_it _ _ _ _ _ _ Hprev) as Hitp.
    apply solve_body_inv in Hk.
    destruct Hk as (_ & _ & _ & Hit & Hstd).
    exists (norms ++ [norm st]). repeat split.
    + rewrite length_app. simpl. lia.
    + rewrite Hstd, Hout, pass_lines_snoc. do 3 f_equal.
      rewrite Hit, Hitp, Hit0, Hlen. lia.
    + intros j stj Hj Hstj.
      destruct (Nat.eq_dec j k) as [->|Hne].
      * rewrite Hk' in Hstj. inversion Hstj; subst stj.
        rewrite app_nth2 by lia. rewrite Hlen, Nat.sub_diag. reflexivity.
      * rewrite app_nth1 by lia. apply Hnth; [lia | exact Hstj].
Qed.

(** X11: with [disp = True], [solve] prints one line for every pass of the
    loop, numbered 1, 2, ... in order, each with the norm of that pass,
    and then one closing message; every norm shown but the last exceeds
    the tolerance, and the last one is the norm the run ended with. *)
Theorem solve_display_lines
        (self : LucasEconomy) (Pfunc_0 : option Pfunc)
        (logDGrid : option vector) (tol : R) (maxIter : Z)
        (out : SolveOutcome) :
  solve self Pfunc_0 logDGrid tol maxIter true = Ok out ->
  exists st norms,
    solve_loop self Pfunc_0 logDGrid tol maxIter true = Ok st
    /\ Z.of_nat (length norms) = it st
    /\ printed out
       = pass_lines norms
         ++ [Text (if Rleb (norm st) tol
                   then "Price function converged!"
                   else "Maximum iterations exceeded!")]
    /\ (forall i, (S i < length norms)%nat -> nth i norms 0 > tol)
    /\ (norms <> [] -> last norms 0 = norm st).
Proof.
  intros Hsolve.
  destruct (solve_inv _ _ _ _ _ _ _ Hsolve)
    as (st & Hloop & _ & _ & _ & _ & _ & Hprint).
  pose proof (solve_loop_run _ _ _ _ _ _ _ Hloop)
    as (g & P0 & k & Hg & HP & Hk & Hit & Hbefore & Hexit).
  destruct (iterate_stdout k self g (solve_init Pfunc_0 P0 tol) st
              eq_refl eq_refl Hk)
    as (norms & Hlen & Hout & Hnth).
  exists st, norms. repeat split.
  - exact Hloop.
  - rewrite Hlen, Hit. reflexivity.
  - rewrite Hprint, Hout. reflexivity.
  - intros i Hi. rewrite Hlen in Hi.
    destruct (Hbefore (S i) Hi) as (stj & Hj1 & Hj2 & _).
    rewrite (Hnth i stj ltac:(lia) Hj1). exact Hj2.
  - intros Hne. destruct k as [|k].
    + destruct norms; [contradiction | discriminate].
    + rewrite <- (Hnth k st ltac:(lia) Hk).
      destruct (exists_last Hne) as (l & a & ->).
      rewrite last_last. rewrite length_app in Hlen. simpl in Hlen.
      rewrite app_nth2 by lia.
      replace (k - length l)%nat with O by lia. reflexivity.
Qed.

Lemma solve_display_lines_witness :
  exists st norms,
    solve_loop (steady_economy (1 / 2)) None (Some two_point_grid) 2
               default_maxIter true = Ok st
    /\ Z.of_nat (length norms) = it st
    /\ printed {| returned := tt;
                  economy := economy (steady_outcome (1 / 2));
                  printed := [IterLine 1 (sqrt (5 * (1 / 2) ^ 2));
                              Text "Price function converged!"] |}
       = pass_lines norms
         ++ [Text (if Rleb (norm st) 2
                   then "Price function converged!"
                   else "Maximum iterations exceeded!")]
    /\ (forall i, (S i < length norms)%nat -> nth i norms 0 > 2)
    /\ (norms <> [] -> last norms 0 = norm st).
Proof.
  assert (Hn : 0 <= sqrt (5 * (1 / 2) ^ 2) <= 2)
    by (apply sqrt_bounds; lra).
  apply (solve_display_lines (steady_economy (1 / 2)) None
           (Some two_point_grid) 2 default_maxIter).
  unfold solve.
  rewrite steady_first_pass_exit
    by (try (unfold default_maxIter; lia); left; apply Hn).
  cbn [bind]. rewrite steady_first_norm.
  unfold Rleb. destruct (Rle_dec (sqrt (5 * (1 / 2) ^ 2)) 2) as [_|Hno];
    [|exfalso; apply Hno; apply Hn].
  unfold next_state, solve_init; cbn [Pf_0 P_0 stdout it norm].
  rewrite next_prices_steady_zero.
  change (price_change [0; 0] [1 / 2; 2 * (1 / 2)])
    with [0 - 1 / 2; 0 - 2 * (1 / 2)].
  replace (np_linalg_norm [0 - 1 / 2; 0 - 2 * (1 / 2)])
    with (sqrt (5 * (1 / 2) ^ 2)); [reflexivity|].
  unfold np_linalg_norm. f_equal. unfold Rsum, Rsqr. simpl. field.
Defined.

(** *** Display does not change what [solve] computes *)

Lemma solve_body_it (self : LucasEconomy) (g : vector) (disp : bool)
      (st st' : LoopState) :
  solve_body self g disp st = Ok st' -> it st' = (it st + 1)%Z.
Proof.
  intros H. apply solve_body_inv in H. tauto.
Qed.

Lemma solve_while_display (fuel : nat) (self : LucasEconomy) (g : vector)
      (tol : R) (maxIter : Z) (st1 st2 : LoopState) :
  same_but_stdout st1 st2 ->
  alike same_but_stdout
        (solve_while fuel self g tol maxIter true st1)
        (solve_while fuel self g tol maxIter false st2).
Proof.
  revert st1 st2. induction fuel as [|fuel IH];
    intros st1 st2 (HPf & HP & Hn & Hi); simpl; rewrite Hn, Hi;
    destruct (Rgtb (norm st2) tol && (it st2 <? maxIter)%Z);
    try reflexivity; try (simpl; repeat split; assumption).
  pose proof (solve_body_alike self g true false st1 st2 HPf HP) as Hb.
  destruct (solve_body self g true st1) as [a|e1] eqn:B1,
           (solve_body self g false st2) as [b|e2] eqn:B2; simpl in *;
    try contradiction; [|exact Hb].
  apply IH. destruct Hb as (H1 & H2 & H3).
  repeat split; try assumption.
  rewrite (solve_body_it _ _ _ _ _ B1), (solve_body_it _ _ _ _ _ B2), Hi.
  reflexivity.
Qed.

(** X12: the argument [disp] only decides what is printed: with and
    without display [solve] fails alike or leaves the same economy, with
    the same function [EqlogPfun], and without display nothing is
    printed. *)
Theorem solve_display_does_not_change_result
        (self : LucasEconomy) (Pfunc_0 : option Pfunc)
        (logDGrid : option vector) (tol : R) (maxIter : Z) :
  alike (fun shown quiet : SolveOutcome =>
           economy shown = economy quiet /\ printed quiet = [])
        (solve self Pfunc_0 logDGrid tol maxIter true)
        (solve self Pfunc_0 logDGrid tol maxIter false).
Proof.
  unfold solve, solve_loop.
  destruct (solve_grid self logDGrid) as [g|e]; simpl; [|reflexivity].
  destruct (call_vec (solve_guess Pfunc_0) g) as [P0|e]; simpl;
    [|reflexivity].
  set (st0 := {| Pf_0 := solve_guess Pfunc_0; P_0 := P0; norm := tol + 1;
                 it := 0; stdout := [] |}).
  pose proof (solve_while_display (Z.to_nat maxIter) self g tol maxIter
                st0 st0 ltac:(repeat split)) as Hw.
  assert (Hq : forall st,
             solve_while (Z.to_nat maxIter) self g tol maxIter false st0
             = Ok st -> stdout st = []).
  { intros st Hst. apply solve_while_iterate in Hst.
    destruct Hst as (k & Hk & _). apply iterate_quiet in Hk. exact Hk. }
  destruct (solve_while (Z.to_nat maxIter) self g tol maxIter true st0)
    as [a|e1],
    (solve_while (Z.to_nat maxIter) self g tol maxIter false st0)
    as [b|e2]; simpl in *; try contradiction; [|exact Hw].
  destruct Hw as (HPf & _). rewrite HPf. split; [reflexivity|].
  apply Hq. reflexivity.
Qed.

(** *** Solving in two runs *)

(** X13: a run of [solve] that stopped at its cap [a] without converging
    can be continued: starting [solve] again from the function it left,
    on the same grid with cap [b], ends with the same function and the
    same prices as one run with cap [a + b], and the passes add up. *)
Theorem solve_warm_start_composes
        (self : LucasEconomy) (Pfunc_0 : option Pfunc)
        (logDGrid : option vector) (tol : R) (a b : Z) (disp disp2 : bool)
        (st st2 : LoopState) :
  (0 <= a)%Z -> (0 <= b)%Z ->
  solve_loop self Pfunc_0 logDGrid tol a disp = Ok st ->
  norm st > tol ->
  solve_loop self (Some (Pf_0 st)) logDGrid tol b disp2 = Ok st2 ->
  exists st3,
    solve_loop self Pfunc_0 logDGrid tol (a + b) disp = Ok st3
    /\ Pf_0 st3 = Pf_0 st2
    /\ P_0 st3 = P_0 st2
    /\ it st3 = (a + it st2)%Z.
Proof.
  intros Ha Hb Hloop Hnorm Hloop2.
  pose proof (solve_loop_run _ _ _ _ _ _ _ Hloop)
    as (g & P0 & k1 & Hg & HP & Hk1 & Hit1 & Hbefore1 & Hexit1).
  pose proof (solve_loop_run _ _ _ _ _ _ _ Hloop2)
    as (g' & P02 & k2 & Hg' & HP2 & Hk2 & Hit2 & Hbefore2 & Hexit2).
  rewrite Hg in Hg'. inversion Hg'; subst g'. clear Hg'.
  simpl in HP2.
  rewrite (iterate_prices _ _ _ _ _ _ _ _ HP Hk1) in HP2.
  inversion HP2; subst P02. clear HP2.
  assert (Hk1a : Z.of_nat k1 = a).
  { destruct Hexit1 as [Hconv|Hcap]; [lra|].
    assert (Z.of_nat k1 <= a)%Z; [|lia].
    apply (solve_loop_run_cap a k1 tol
             (fun j => exists stj,
                iterate j self g disp (solve_init Pfunc_0 P0 tol) = Ok stj
                /\ norm stj > tol)); [exact Ha|].
    intros j Hj. destruct (Hbefore1 j Hj) as (stj & H1 & H2 & H3).
    split; [eauto | exact H3]. }
  assert (Hk2b : (Z.of_nat k2 <= b)%Z).
  { apply (solve_loop_run_cap b k2 tol
             (fun j => exists stj,
                iterate j self g disp2
                        (solve_init (Some (Pf_0 st)) (P_0 st) tol) = Ok stj
                /\ norm stj > tol)); [exact Hb|].
    intros j Hj. destruct (Hbefore2 j Hj) as (stj & H1 & H2 & H3).
    split; [eauto | exact H3]. }
  (* the passes of the second run, made from where the first one stopped *)
  assert (Hfrom : forall i sti2,
             iterate i self g disp2
                     (solve_init (Some (Pf_0 st)) (P_0 st) tol) = Ok sti2 ->
             exists sti,
               iterate i self g disp st = Ok sti
               /\ Pf_0 sti = Pf_0 sti2 /\ P_0 sti = P_0 sti2
               /\ ((1 <= i)%nat -> norm sti = norm sti2)).
  { intros i sti2 Hi.
    pose proof (iterate_alike i self g disp disp2 st
                  (solve_init (Some (Pf_0 st)) (P_0 st) tol)
                  eq_refl eq_refl) as Hal.
    rewrite Hi in Hal.
    destruct (iterate i self g disp st) as [sti|e]; simpl in Hal;
      [|contradiction].
    exists sti. tauto. }
  destruct (Hfrom k2 st2 Hk2) as (st3 & Hk3 & HPf3 & HP3 & Hn3).
  assert (Hall : iterate (k1 + k2) self g disp (solve_init Pfunc_0 P0 tol)
                 = Ok st3)
    by (rewrite iterate_plus, Hk1; exact Hk3).
  pose proof (iterate_it _ _ _ _ _ _ Hall) as Hit3. simpl in Hit3.
  exists st3. repeat split; try assumption; [|lia].
  unfold solve_loop. rewrite Hg. simpl. rewrite HP. simpl.
  fold (solve_init Pfunc_0 P0 tol).
  apply (solve_while_of_iterate (k1 + k2)); [exact Hall | | | lia].
  - intros j Hj. destruct (le_lt_dec k1 j) as [Hge|Hlt].
    + assert (Hsplit : exists i, j = (k1 + i)%nat /\ (i < k2)%nat)
        by (exists (j - k1)%nat; lia).
      destruct Hsplit as (i & -> & Hi).
      destruct (Hbefore2 i Hi) as (sti2 & Hi1 & Hi2 & Hi3).
      destruct (Hfrom _ _ Hi1) as (sti & Hs1 & _ & _ & Hs4).
      exists sti. rewrite iterate_plus, Hk1. simpl.
      split; [exact Hs1|].
      pose proof (iterate_it _ _ _ _ _ _ Hs1) as Hiti.
      split; [|lia].
      destruct i as [|i].
      * simpl in Hs1. inversion Hs1; subst sti. exact Hnorm.
      * rewrite Hs4 by lia. exact Hi2.
    + destruct (Hbefore1 j Hlt) as (stj & H1 & H2 & H3).
      exists stj. repeat split; try assumption.
      pose proof (iterate_it _ _ _ _ _ _ H1) as Hitj. simpl in Hitj. lia.
  - destruct Hexit2 as [Hconv2|Hcap2]; [|right; lia].
    destruct k2 as [|k2].
    + simpl in Hk2. inversion Hk2; subst st2. simpl in Hconv2. lra.
    + left. rewrite Hn3 by lia. exact Hconv2.
Qed.

Lemma solve_warm_start_composes_witness :
  let st := next_state (steady_economy (1 / 2)) two_point_grid false
              (solve_init None [0; 0] default_tol) in
  let st2 := next_state (steady_economy (1 / 2)) two_point_grid false
               (solve_init (Some (Pf_0 st)) (P_0 st) default_tol) in
  exists st3,
    solve_loop (steady_economy (1 / 2)) None (Some two_point_grid)
               default_tol (1 + 1) false = Ok st3
    /\ Pf_0 st3 = Pf_0 st2
    /\ P_0 st3 = P_0 st2
    /\ it st3 = (1 + it st2)%Z.
Proof.
  intros st st2.
  apply (solve_warm_start_composes
           (steady_economy (1 / 2)) None (Some two_point_grid) default_tol
           1 1 false false st st2).
  - lia.
  - lia.
  - apply steady_one_pass.
  - unfold st. rewrite steady_first_norm. unfold default_tol.
    apply sqrt_above; lra.
  - apply solve_loop_first_pass_exit.
    + apply steady_aligned.
    + apply two_point_grid_increasing.
    + simpl. lia.
    + apply LinearInterp_defined_on_transitions;
        [apply two_point_grid_increasing | simpl; lia
         | apply next_prices_length].
    + apply call_vec_at_grid;
        [apply two_point_grid_increasing | simpl; lia
         | apply next_prices_length].
    + lia.
    + right. reflexivity.
Defined.

(** *** The solved economy *)

(** X14: once [solve] has made a pass on an increasing grid of two points
    or more, the price function in levels [EqPfun] gives a number at every
    positive dividend, inside the grid's range or outside it, and fails
    at every dividend that is not positive; before [solve] has run, it
    fails for want of the attribute [EqlogPfun]. *)
Theorem EqPfun_defined_on_positive_dividends
        (self : LucasEconomy) (Pfunc_0 : option Pfunc) (logDGrid : vector)
        (tol : R) (maxIter : Z) (disp : bool) (out : SolveOutcome) :
  increasing logDGrid -> (2 <= length logDGrid)%nat -> (0 < maxIter)%Z ->
  solve self Pfunc_0 (Some logDGrid) tol maxIter disp = Ok out ->
  (forall d, 0 < d -> exists v, EqPfun (economy out) d = Ok v)
  /\ (forall d, d <= 0 -> EqPfun (economy out) d = Err NotFinite)
  /\ (forall d,
        EqPfun (LucasEconomy_init (CRRA self) (DiscFac self) (DivProc self)) d
        = Err AttributeError).
Proof.
  intros Hinc Hlen Hmax Hsolve.
  destruct (solve_inv _ _ _ _ _ _ _ Hsolve)
    as (st & Hloop & _ & Hfun & _).
  pose proof (solve_loop_run _ _ _ _ _ _ _ Hloop)
    as (g & P0 & k & Hg & HP & Hk & Hit & Hbefore & Hexit).
  simpl in Hg. inversion Hg; subst g.
  pose proof (solve_loop_first_pass _ _ _ _ _ _ _ _ _ Hmax Hk Hexit) as Hk1.
  destruct (iterate_interp _ _ _ _ _ _ Hk1 Hk) as (vals & Hvals & Hlv).
  repeat split.
  - intros d Hd. unfold EqPfun. rewrite Hfun, Hvals.
    destruct (Rlt_dec 0 d) as [_|Hno]; [|contradiction].
    apply call_LinearInterp_total; assumption.
  - intros d Hd. unfold EqPfun. rewrite Hfun.
    destruct (Rlt_dec 0 d) as [Hpos|_]; [lra | reflexivity].
Qed.

Lemma EqPfun_defined_on_positive_dividends_witness :
  (forall d, 0 < d ->
     exists v, EqPfun (economy (steady_outcome (1 / 2))) d = Ok v)
  /\ (forall d, d <= 0 ->
        EqPfun (economy (steady_outcome (1 / 2))) d = Err NotFinite)
  /\ (forall d,
        EqPfun (LucasEconomy_init (CRRA (steady_economy (1 / 2)))
                                  (DiscFac (steady_economy (1 / 2)))
                                  (DivProc (steady_economy (1 / 2)))) d
        = Err AttributeError).
Proof.
  apply (EqPfun_defined_on_positive_dividends
           (steady_economy (1 / 2)) None two_point_grid default_tol 1 false).
  - apply two_point_grid_increasing.
  - simpl. lia.
  - lia.
  - apply steady_solve.
Defined.

Lemma priceOnePeriod_same_parameters (e1 e2 : LucasEconomy) (f : Pfunc)
      (g : vector) :
  CRRA e1 = CRRA e2 -> DiscFac e1 = DiscFac e2 -> DivProc e1 = DivProc e2 ->
  priceOnePeriod e1 f g = priceOnePeriod e2 f g.
Proof.
  intros Hc Hb Hd. unfold priceOnePeriod, uP. rewrite Hc, Hb, Hd.
  reflexivity.
Qed.

Lemma solve_while_same_parameters (fuel : nat) (e1 e2 : LucasEconomy)
      (g : vector) (tol : R) (maxIter : Z) (disp : bool) (st : LoopState) :
  CRRA e1 = CRRA e2 -> DiscFac e1 = DiscFac e2 -> DivProc e1 = DivProc e2 ->
  solve_while fuel e1 g tol maxIter disp st
  = solve_while fuel e2 g tol maxIter disp st.
Proof.
  intros Hc Hb Hd. revert st. induction fuel as [|fuel IH]; intros st;
    simpl; [reflexivity|].
  destruct (Rgtb (norm st) tol && (it st <? maxIter)%Z); [|reflexivity].
  unfold solve_body.
  rewrite (priceOnePeriod_same_parameters e1 e2 _ _ Hc Hb Hd).
  destruct (priceOnePeriod e2 (Pf_0 st) g) as [Pf|e]; simpl; [|reflexivity].
  destruct (call_vec Pf g) as [P|e]; simpl; [|reflexivity].
  destruct (vec_op (total2 Rminus) (P_0 st) P) as [diff|e]; simpl;
    [|reflexivity].
  apply IH.
Qed.

(** X15: [solve] never reads the function an earlier call left.  On the
    economy a call of [solve] leaves, any further call, with whatever
    arguments, behaves exactly as it would have on the economy before
    that call: unless the earlier function is passed as [Pfunc_0], the
    search starts again from the zero function. *)
Theorem solve_again_does_not_warm_start
        (self : LucasEconomy) (Pfunc_0 : option Pfunc)
        (logDGrid : option vector) (tol : R) (maxIter : Z) (disp : bool)
        (out : SolveOutcome) (Pfunc_0' : option Pfunc)
        (logDGrid' : option vector) (tol' : R) (maxIter' : Z)
        (disp' : bool) :
  solve self Pfunc_0 logDGrid tol maxIter disp = Ok out ->
  solve (economy out) Pfunc_0' logDGrid' tol' maxIter' disp'
  = solve self Pfunc_0' logDGrid' tol' maxIter' disp'.
Proof.
  intros Hsolve.
  destruct (solve_inv _ _ _ _ _ _ _ Hsolve)
    as (st & _ & _ & _ & Hc & Hb & Hd & _).
  unfold solve, solve_loop, solve_grid. rewrite Hc, Hb, Hd.
  destruct (match logDGrid' with
            | Some g => Ok g
            | None => getLogdGrid (DivProc self) 100
            end) as [g|e]; simpl; [|reflexivity].
  destruct (call_vec (solve_guess Pfunc_0') g) as [P0|e]; simpl;
    [|reflexivity].
  rewrite (solve_while_same_parameters _ (economy out) self _ _ _ _ _
             Hc Hb Hd).
  reflexivity.
Qed.

Lemma solve_again_does_not_warm_start_witness :
  solve (economy (steady_outcome (1 / 2))) None (Some two_point_grid)
        default_tol 1 false
  = solve (steady_economy (1 / 2)) None (Some two_point_grid)
          default_tol 1 false.
Proof.
  apply (solve_again_does_not_warm_start
           (steady_economy (1 / 2)) None (Some two_point_grid) default_tol 1
           false (steady_outcome (1 / 2))).
  apply steady_solve.
Defined.

(** *** Calls of [solve] with its default arguments *)

(** X16: [economy.solve()] with the default guess and the default grid
    does not fail.  For a stationary dividend process with a positive
    shock standard deviation, whose discretized shock has [nApprox] nodes
    and probabilities, and a positive cap, [solve] returns, and it leaves
    an interpolant over the hundred points of the default grid. *)
Theorem solve_defaults_succeed
        (self : LucasEconomy) (tol : R) (maxIter : Z) (disp : bool) :
  Rabs (alpha (DivProc self)) < 1 -> 0 < shock_sd (DivProc self) ->
  shocks_aligned (DivProc self) -> (0 < maxIter)%Z ->
  exists out vals,
    solve self None None tol maxIter disp = Ok out
    /\ EqlogPfun (economy out)
       = Some (LinearInterp (symmetric_grid (DivProc self) 100) vals true)
    /\ length vals = 100%nat.
Proof.
  intros Hst Hsd Hal Hmax.
  set (grid := symmetric_grid (DivProc self) 100).
  assert (Hinc : increasing grid)
    by (apply symmetric_grid_increasing; [assumption | assumption | lia]).
  assert (Hlen : length grid = 100%nat) by apply symmetric_grid_length.
  destruct (solve_loop_starts self grid tol maxIter disp Hal Hinc
              ltac:(rewrite Hlen; lia) Hmax) as (st & Hloop & Hit).
  assert (Hloop' : solve_loop self None None tol maxIter disp = Ok st).
  { unfold solve_loop in *. unfold solve_grid in *.
    rewrite getLogdGrid_symmetric_grid by (try assumption; lia).
    exact Hloop. }
  pose proof (solve_loop_run _ _ _ _ _ _ _ Hloop)
    as (g & P0 & k & Hg & HP & Hk & Hitk & _ & _).
  simpl in Hg. inversion Hg; subst g.
  destruct (iterate_interp k self grid disp _ st ltac:(lia) Hk)
    as (vals & Hvals & Hlv).
  unfold solve. rewrite Hloop'. cbn [bind].
  eexists. exists vals. split; [reflexivity|].
  cbn [economy EqlogPfun]. rewrite Hvals. split; [reflexivity|].
  rewrite Hlv. exact Hlen.
Qed.

Lemma solve_defaults_succeed_witness :
  exists out vals,
    solve ar1_economy None None default_tol default_maxIter false = Ok out
    /\ EqlogPfun (economy out)
       = Some (LinearInterp (symmetric_grid (DivProc ar1_economy) 100)
                            vals true)
    /\ length vals = 100%nat.
Proof.
  apply (solve_defaults_succeed ar1_economy default_tol default_maxIter false).
  - apply ar1_stationary.
  - simpl. lra.
  - split; reflexivity.
  - unfold default_maxIter. lia.
Defined.

(** X17: with [maxIter = 1], [solve] is one application of
    [priceOnePeriod]: the function it leaves is the one [priceOnePeriod]
    returns for the guess on the grid, whatever the tolerance. *)
Theorem solve_one_pass_is_priceOnePeriod
        (self : LucasEconomy) (Pfunc_0 : option Pfunc) (logDGrid : vector)
        (tol : R) (disp : bool) (out : SolveOutcome) :
  solve self Pfunc_0 (Some logDGrid) tol 1 disp = Ok out ->
  exists Pfunc_now,
    priceOnePeriod self (solve_guess Pfunc_0) logDGrid = Ok Pfunc_now
    /\ EqlogPfun (economy out) = Some Pfunc_now.
Proof.
  intros Hsolve.
  destruct (solve_inv _ _ _ _ _ _ _ Hsolve) as (st & Hloop & _ & Hfun & _).
  pose proof (solve_loop_run _ _ _ _ _ _ _ Hloop)
    as (g & P0 & k & Hg & HP & Hk & Hit & Hbefore & Hexit).
  simpl in Hg. inversion Hg; subst g.
  pose proof (solve_loop_first_pass self Pfunc_0 logDGrid P0 tol 1 disp k st
                ltac:(lia) Hk Hexit) as Hk1.
  assert (Hk2 : (Z.of_nat k <= 1)%Z).
  { apply (solve_loop_run_cap 1 k tol
             (fun j => exists stj,
                iterate j self logDGrid disp (solve_init Pfunc_0 P0 tol)
                = Ok stj /\ norm stj > tol)); [lia|].
    intros j Hj. destruct (Hbefore j Hj) as (stj & H1 & H2 & H3).
    split; [eauto | exact H3]. }
  assert (k = 1%nat) by lia. subst k.
  simpl in Hk. apply solve_body_inv in Hk. destruct Hk as (Hprice & _).
  exists (Pf_0 st). split; [exact Hprice | exact Hfun].
Qed.

Lemma solve_one_pass_is_priceOnePeriod_witness :
  exists Pfunc_now,
    priceOnePeriod (steady_economy (1 / 2)) (solve_guess None) two_point_grid
    = Ok Pfunc_now
    /\ EqlogPfun (economy (steady_outcome (1 / 2))) = Some Pfunc_now.
Proof.
  apply (solve_one_pass_is_priceOnePeriod
           (steady_economy (1 / 2)) None two_point_grid default_tol false).
  apply steady_solve.
Defined.

(** *** Convergence of [solve] under log utility *)

Lemma pricing_rhs_ext_In (self : LucasEconomy) (fv gv : R -> R) (x : R) :
  (forall s, In s (X (ShkAppDstn (DivProc self))) ->
     fv (alpha (DivProc self) * x + s) = gv (alpha (DivProc self) * x + s)) ->
  pricing_rhs self fv x = pricing_rhs self gv x.
Proof.
  intros H. unfold pricing_rhs. f_equal. f_equal.
  apply map_ext_in. intros [s p] Hsp.
  rewrite (H s (in_combine_l _ _ _ _ Hsp)). reflexivity.
Qed.

Lemma nth_map_In (F : R -> R) (l : vector) (j : nat) :
  (j < length l)%nat -> nth j (map F l) 0 = F (nth j l 0).
Proof.
  intros Hj. rewrite (nth_indep _ 0 (F 0)) by (rewrite length_map; exact Hj).
  exact (map_nth F l 0 j).
Qed.

Lemma value_at_grid (grid : vector) (F : R -> R) (y : R) :
  increasing grid -> (2 <= length grid)%nat -> In y grid ->
  value (LinearInterp grid (map F grid) true) y = F y.
Proof.
  intros Hinc Hlen Hy. destruct (In_nth _ _ 0 Hy) as (j & Hj & <-).
  apply call_value.
  rewrite LinearInterp_at_grid;
    [| exact Hinc | exact Hlen | apply length_map | exact Hj].
  f_equal. apply nth_map_In. exact Hj.
Qed.

(** On a grid closed under the transition, the passes of the loop compute
    the iterates of the pricing equation at the grid points. *)
Lemma iterate_price_after (self : LucasEconomy) (Pfunc_0 : option Pfunc)
      (grid P0 : vector) (tol : R) (disp : bool) :
  shocks_aligned (DivProc self) ->
  increasing grid -> (2 <= length grid)%nat ->
  transition_closed (DivProc self) grid ->
  call_vec (solve_guess Pfunc_0) grid = Ok P0 ->
  forall k, exists st,
    iterate k self grid disp (solve_init Pfunc_0 P0 tol) = Ok st
    /\ P_0 st = map (price_after k self (value (solve_guess Pfunc_0))) grid
    /\ (forall y, In y grid ->
          value (Pf_0 st) y
          = price_after k self (value (solve_guess Pfunc_0)) y)
    /\ defined_on_transitions self (Pf_0 st) grid
    /\ ((1 <= k)%nat ->
        norm st
        = np_linalg_norm
            (map (fun x =>
                    price_after (k - 1) self (value (solve_guess Pfunc_0)) x
                    - price_after k self (value (solve_guess Pfunc_0)) x)
                 grid)).
Proof.
  intros Hal Hinc Hlen Hclosed HP0. induction k as [|k IH].
  - exists (solve_init Pfunc_0 P0 tol). split; [reflexivity|].
    split; [simpl; apply mapM_value; exact HP0|].
    split; [reflexivity|]. split; [|lia].
    intros x s Hx Hs. simpl.
    apply (mapM_In _ _ _ HP0). apply Hclosed; assumption.
  - destruct IH as (st & Hk & HP & Hval & Hdef & _).
    assert (Hnext : next_prices self (Pf_0 st) grid
                    = map (price_after (S k) self
                             (value (solve_guess Pfunc_0))) grid).
    { unfold next_prices. apply map_ext_in. intros x Hx. simpl.
      apply pricing_rhs_ext_In. intros s Hs. apply Hval.
      apply Hclosed; assumption. }
    exists (next_state self grid disp st).
    split; [|split; [|split; [|split]]].
    + simpl. rewrite Hk. simpl. apply solve_body_next_state; try assumption.
      rewrite HP. apply length_map.
    + unfold next_state; cbn [P_0]. exact Hnext.
    + intros y Hy. unfold next_state; cbn [Pf_0]. rewrite Hnext.
      apply value_at_grid; assumption.
    + unfold next_state; cbn [Pf_0].
      apply LinearInterp_defined_on_transitions;
        [assumption | assumption | apply next_prices_length].
    + intros _. unfold next_state; cbn [norm]. rewrite Hnext, HP.
      rewrite price_change_map. rewrite Nat.sub_succ, Nat.sub_0_r.
      reflexivity.
Qed.

Lemma expect_minus (nodes weights : vector) (h1 h2 : R -> R) :
  expect nodes weights (fun s => h1 s - h2 s)
  = expect nodes weights h1 - expect nodes weights h2.
Proof.
  unfold expect, Rsum.
  induction (combine nodes weights) as [|sp l IH]; simpl; [ring|].
  rewrite IH. ring.
Qed.

(** Under log utility the price-dividend ratio of the next iterate is the
    ratio operator applied to the ratio of this one. *)
Lemma price_after_ratio (self : LucasEconomy) (fv : R -> R) (k : nat)
      (x : R) :
  CRRA self = 1 ->
  price_after (S k) self fv x / exp x
  = ratio_operator (DiscFac self) (alpha (DivProc self))
      (X (ShkAppDstn (DivProc self))) (pmf (ShkAppDstn (DivProc self)))
      (fun y => price_after k self fv y / exp y) x.
Proof.
  intros Hrho. simpl. rewrite pricing_rhs_log by exact Hrho.
  unfold ratio_operator. field. apply exp_neq_0.
Qed.

(** The ratio operator brings two ratios closer by the factor [beta] on a
    grid closed under the transition. *)
Lemma ratio_operator_contracts (beta a D : R) (nodes weights grid : vector)
      (r0 r1 : R -> R) :
  0 <= beta ->
  length nodes = length weights ->
  (forall p, In p weights -> 0 <= p) -> Rsum weights = 1 ->
  (forall x s, In x grid -> In s nodes -> In (a * x + s) grid) ->
  (forall y, In y grid -> Rabs (r1 y - r0 y) <= D) ->
  forall x, In x grid ->
    Rabs (ratio_operator beta a nodes weights r1 x
          - ratio_operator beta a nodes weights r0 x) <= beta * D.
Proof.
  intros Hb Hal Hp Hsum Hclosed HD x Hx. unfold ratio_operator.
  rewrite <- Rmult_minus_distr_l, <- expect_minus.
  rewrite (expect_ext nodes weights _
             (fun s => r1 (a * x + s) - r0 (a * x + s)))
    by (intros; ring).
  rewrite Rabs_mult, (Rabs_right beta) by lra.
  apply Rmult_le_compat_l; [exact Hb|].
  apply expect_bound; try assumption.
  intros s Hs. apply HD. apply Hclosed; assumption.
Qed.

Lemma Rsum_ge_entry (l : vector) (a : R) :
  (forall b, In b l -> 0 <= b) -> In a l -> a <= Rsum l.
Proof.
  unfold Rsum. induction l as [|b l IH]; intros Hpos Ha; [contradiction|].
  simpl.
  assert (Hrest : 0 <= fold_right Rplus 0 l).
  { clear IH Ha. induction l as [|c l IH]; simpl; [lra|].
    pose proof (Hpos c (or_intror (or_introl eq_refl))).
    assert (0 <= fold_right Rplus 0 l); [|lra].
    apply IH. intros d [<-|Hd]; apply Hpos;
      [left; reflexivity | right; right; exact Hd]. }
  pose proof (Hpos b (or_introl eq_refl)) as Hb.
  destruct Ha as [<-|Ha]; [lra|].
  specialize (IH (fun c Hc => Hpos c (or_intror Hc)) Ha). lra.
Qed.

(** The Euclidean norm of an array whose entries are at most [M] in
    absolute value is at most [M] times its length. *)
Lemma norm_le_length_bound (v : vector) (M : R) :
  0 <= M -> (forall a, In a v -> Rabs a <= M) ->
  np_linalg_norm v <= INR (length v) * M.
Proof.
  intros HM Hv. unfold np_linalg_norm.
  assert (Hn : 0 <= INR (length v)) by apply pos_INR.
  rewrite <- (sqrt_Rsqr (INR (length v) * M)) by (apply Rmult_le_pos; lra).
  apply sqrt_le_1_alt.
  induction v as [|a v IH]; [unfold Rsum, Rsqr; simpl; lra|].
  assert (Hn' : 0 <= INR (length v)) by apply pos_INR.
  specialize (IH (fun b Hb => Hv b (or_intror Hb)) Hn').
  pose proof (Hv a (or_introl eq_refl)) as Ha.
  unfold Rsum in *. cbn [map fold_right length]. rewrite S_INR.
  assert (Ha2 : Rsqr a <= M * M).
  { rewrite (Rsqr_abs a). unfold Rsqr.
    pose proof (Rabs_pos a). nra. }
  unfold Rsqr in *. nra.
Qed.

(** Under log utility, on a grid closed under the transition, the change
    of the price-dividend ratio from one iterate to the next shrinks by
    the factor [beta] with every pass. *)
Lemma ratio_change_decays (self : LucasEconomy) (fv : R -> R) (grid : vector)
      (D0 : R) :
  CRRA self = 1 -> 0 <= DiscFac self ->
  shocks_aligned (DivProc self) -> probabilities (DivProc self) ->
  transition_closed (DivProc self) grid ->
  (forall y, In y grid ->
     Rabs (price_after 1 self fv y / exp y - price_after 0 self fv y / exp y)
     <= D0) ->
  forall k y, In y grid ->
    Rabs (price_after (S k) self fv y / exp y
          - price_after k self fv y / exp y)
    <= DiscFac self ^ k * D0.
Proof.
  intros Hrho Hb [HX Hp] [Hnn Hsum] Hclosed H0.
  induction k as [|k IH]; intros y Hy.
  - rewrite pow_O, Rmult_1_l. apply H0. exact Hy.
  - rewrite (price_after_ratio self fv (S k)) by exact Hrho.
    rewrite (price_after_ratio self fv k) by exact Hrho.
    replace (DiscFac self ^ S k * D0)
      with (DiscFac self * (DiscFac self ^ k * D0)) by (simpl; ring).
    apply (ratio_operator_contracts _ _ _ _ _ grid); try assumption.
    congruence.
Qed.

(** X18: under log utility [solve] converges.  For a discount factor
    strictly between 0 and 1, shock probabilities that are non-negative
    and sum to one, an increasing grid of two points or more that the
    transition maps into itself and a guess that is defined on the grid,
    there is for every positive tolerance a number [N] of passes such
    that under every cap of [N] or more [solve] returns with the norm at
    or below the tolerance, after at least one and at most [N] passes. *)
Theorem log_utility_solve_converges
        (self : LucasEconomy) (Pfunc_0 : option Pfunc) (logDGrid P0 : vector)
        (tol : R) (disp : bool) :
  CRRA self = 1 -> 0 < DiscFac self < 1 ->
  shocks_aligned (DivProc self) -> probabilities (DivProc self) ->
  increasing logDGrid -> (2 <= length logDGrid)%nat ->
  transition_closed (DivProc self) logDGrid ->
  call_vec (solve_guess Pfunc_0) logDGrid = Ok P0 ->
  0 < tol ->
  exists N : nat,
    forall maxIter, (Z.of_nat N <= maxIter)%Z ->
      exists st,
        solve_loop self Pfunc_0 (Some logDGrid) tol maxIter disp = Ok st
        /\ norm st <= tol
        /\ (1 <= it st <= Z.of_nat N)%Z.
Proof.
  intros Hrho Hb Hal Hprob Hinc Hlen Hclosed HP0 Htol.
  set (fv := value (solve_guess Pfunc_0)).
  set (D0 := Rsum (map (fun y => Rabs (price_after 1 self fv y / exp y
                                       - price_after 0 self fv y / exp y))
                       logDGrid)).
  set (E := Rsum (map exp logDGrid)).
  assert (HD0 : forall y, In y logDGrid ->
                  Rabs (price_after 1 self fv y / exp y
                        - price_after 0 self fv y / exp y) <= D0).
  { intros y Hy. unfold D0. apply Rsum_ge_entry.
    - intros b Hb0. apply in_map_iff in Hb0. destruct Hb0 as (z & <- & _).
      apply Rabs_pos.
    - apply (in_map (fun y => Rabs (price_after 1 self fv y / exp y
                                    - price_after 0 self fv y / exp y))).
      exact Hy. }
  assert (HE : forall y, In y logDGrid -> exp y <= E).
  { intros y Hy. unfold E. apply Rsum_ge_entry.
    - intros b Hb0. apply in_map_iff in Hb0. destruct Hb0 as (z & <- & _).
      apply Rlt_le, exp_pos.
    - apply in_map. exact Hy. }
  assert (HD0pos : 0 <= D0).
  { destruct logDGrid as [|y l]; [simpl in Hlen; lia|].
    eapply Rle_trans; [apply Rabs_pos | apply (HD0 y); left; reflexivity]. }
  assert (HEpos : 0 <= E).
  { destruct logDGrid as [|y l]; [simpl in Hlen; lia|].
    eapply Rle_trans; [apply Rlt_le, (exp_pos y)
                      | apply (HE y); left; reflexivity]. }
  set (K := INR (length logDGrid) * (E * D0)).
  assert (HK : 0 <= K).
  { unfold K. apply Rmult_le_pos; [apply pos_INR|].
    apply Rmult_le_pos; assumption. }
  destruct (pow_lt_1_zero (DiscFac self)
              ltac:(rewrite Rabs_right; lra) (tol / (K + 1))
              ltac:(apply Rdiv_lt_0_compat; lra)) as (N0 & HN0).
  specialize (HN0 N0 ltac:(lia)).
  rewrite Rabs_right in HN0 by (apply Rle_ge, pow_le; lra).
  (* the norm of pass N0 + 1 is at or below the tolerance *)
  destruct (iterate_price_after self Pfunc_0 logDGrid P0 tol disp
              Hal Hinc Hlen Hclosed HP0 (S N0))
    as (stN & HstN & _ & _ & _ & HnormN).
  specialize (HnormN ltac:(lia)).
  rewrite Nat.sub_succ, Nat.sub_0_r in HnormN. fold fv in HnormN.
  assert (HstNtol : norm stN <= tol).
  { rewrite HnormN.
    eapply Rle_trans.
    - apply (norm_le_length_bound _ (E * (DiscFac self ^ N0 * D0))).
      + apply Rmult_le_pos; [exact HEpos|].
        apply Rmult_le_pos; [apply pow_le; lra | exact HD0pos].
      + intros a Ha. apply in_map_iff in Ha. destruct Ha as (y & <- & Hy).
        pose proof (ratio_change_decays self fv logDGrid D0 Hrho
                      ltac:(lra) Hal Hprob Hclosed HD0 N0 y Hy) as Hdec.
        pose proof (exp_pos y) as Hey. pose proof (HE y Hy) as HEy.
        replace (price_after N0 self fv y - price_after (S N0) self fv y)
          with (- (exp y * (price_after (S N0) self fv y / exp y
                            - price_after N0 self fv y / exp y)))
          by (field; lra).
        rewrite Rabs_Ropp, Rabs_mult, (Rabs_right (exp y)) by lra.
        apply Rmult_le_compat; try lra. apply Rabs_pos.
    - rewrite length_map.
      replace (INR (length logDGrid) * (E * (DiscFac self ^ N0 * D0)))
        with (K * DiscFac self ^ N0) by (unfold K; ring).
      assert (HKt : K * (tol / (K + 1)) <= tol).
      { apply Rmult_le_reg_r with (K + 1); [lra|].
        replace (K * (tol / (K + 1)) * (K + 1)) with (K * tol)
          by (field; lra).
        nra. }
      assert (K * DiscFac self ^ N0 <= K * (tol / (K + 1)))
        by (apply Rmult_le_compat_l; lra).
      lra. }
  exists (S N0). intros maxIter Hmax.
  assert (Hex : exists st,
             solve_loop self Pfunc_0 (Some logDGrid) tol maxIter disp = Ok st).
  { unfold solve_loop, solve_grid. cbn [bind]. rewrite HP0. cbn [bind].
    apply solve_while_total; try assumption.
    - intros x s Hx Hs. simpl.
      apply (mapM_In _ _ _ HP0). apply Hclosed; assumption.
    - simpl. apply (mapM_length _ _ _ HP0).
    - simpl. lia. }
  destruct Hex as (st & Hloop). exists st. split; [exact Hloop|].
  pose proof (solve_loop_run _ _ _ _ _ _ _ Hloop)
    as (g & P0' & k & Hg & HP' & Hk & Hit & Hbefore & Hexit).
  simpl in Hg. inversion Hg; subst g.
  rewrite HP0 in HP'. inversion HP'; subst P0'.
  assert (Hk1 : (1 <= k)%nat)
    by (apply (solve_loop_first_pass self Pfunc_0 logDGrid P0 tol maxIter
                 disp k st); [lia | exact Hk | exact Hexit]).
  assert (HkN : (k <= S N0)%nat).
  { destruct (le_lt_dec k (S N0)) as [Hle|Hlt]; [exact Hle|]. exfalso.
    destruct (Hbefore (S N0) Hlt) as (stj & Hj1 & Hj2 & _).
    rewrite HstN in Hj1. inversion Hj1; subst stj. lra. }
  split; [|lia].
  destruct Hexit as [Hconv|Hcap]; [exact Hconv|].
  assert (k = S N0) by lia. subst k.
  rewrite HstN in Hk. inversion Hk; subst st. exact HstNtol.
Qed.

Lemma log_utility_solve_converges_witness :
  exists N : nat,
    forall maxIter, (Z.of_nat N <= maxIter)%Z ->
      exists st,
        solve_loop (steady_economy (1 / 2)) None (Some two_point_grid)
                   default_tol maxIter false = Ok st
        /\ norm st <= default_tol
        /\ (1 <= it st <= Z.of_nat N)%Z.
Proof.
  apply (log_utility_solve_converges (steady_economy (1 / 2)) None
           two_point_grid [0; 0] default_tol false).
  - reflexivity.
  - simpl. lra.
  - apply steady_aligned.
  - apply steady_probabilities.
  - apply two_point_grid_increasing.
  - simpl. lia.
  - apply steady_transition_closed.
  - reflexivity.
  - unfold default_tol. lra.
Defined.

(** *** From the zero function, prices rise towards the closed form *)

Lemma price_after_zero_rises (self : LucasEconomy) (grid : vector) :
  0 <= DiscFac self ->
  (forall p, In p (pmf (ShkAppDstn (DivProc self))) -> 0 <= p) ->
  transition_closed (DivProc self) grid ->
  forall k y, In y grid ->
    price_after k self (fun _ => 0) y <= price_after (S k) self (fun _ => 0) y.
Proof.
  intros Hb Hp Hclosed. induction k as [|k IH]; intros y Hy.
  - simpl. unfold pricing_rhs.
    apply Rmult_le_pos; [exact Hb|].
    replace 0 with (Rsum (map (fun _ : R * R => 0)
                              (combine (X (ShkAppDstn (DivProc self)))
                                       (pmf (ShkAppDstn (DivProc self))))))
      at 1.
    + apply Rsum_map_le. intros [s p] Hsp.
      pose proof (Hp p (in_combine_r _ _ _ _ Hsp)) as Hp0.
      pose proof (uP_pos self (exp (alpha (DivProc self) * y + s) / exp y)).
      pose proof (exp_pos (alpha (DivProc self) * y + s)).
      apply Rmult_le_pos; [apply Rmult_le_pos; lra | lra].
    + unfold Rsum.
      induction (combine (X (ShkAppDstn (DivProc self)))
                         (pmf (ShkAppDstn (DivProc self)))) as [|a l IHl];
        simpl; [reflexivity | rewrite IHl; ring].
  - change (pricing_rhs self (price_after k self (fun _ => 0)) y
            <= pricing_rhs self (price_after (S k) self (fun _ => 0)) y).
    apply pricing_rhs_monotone; try assumption.
    intros s Hs. apply IH. apply Hclosed; assumption.
Qed.

(** X19: from the zero function [solve] starts from by default, on a grid
    that the transition maps into itself, no price falls from one pass of
    the loop to the next, whatever the risk aversion: with a non-negative
    discount factor and non-negative shock probabilities, the prices on
    the grid after pass [k + 1] are at or above those after pass [k]. *)
Theorem solve_prices_rise_from_zero
        (self : LucasEconomy) (logDGrid P0 : vector) (tol : R) (disp : bool)
        (k : nat) (st st' : LoopState) :
  0 <= DiscFac self ->
  (forall p, In p (pmf (ShkAppDstn (DivProc self))) -> 0 <= p) ->
  shocks_aligned (DivProc self) ->
  increasing logDGrid -> (2 <= length logDGrid)%nat ->
  transition_closed (DivProc self) logDGrid ->
  call_vec (solve_guess None) logDGrid = Ok P0 ->
  iterate k self logDGrid disp (solve_init None P0 tol) = Ok st ->
  iterate (S k) self logDGrid disp (solve_init None P0 tol) = Ok st' ->
  Forall2 Rle (P_0 st) (P_0 st').
Proof.
  intros Hb Hp Hal Hinc Hlen Hclosed HP0 Hk Hk'.
  destruct (iterate_price_after self None logDGrid P0 tol disp
              Hal Hinc Hlen Hclosed HP0 k) as (s1 & H1 & HP1 & _).
  destruct (iterate_price_after self None logDGrid P0 tol disp
              Hal Hinc Hlen Hclosed HP0 (S k)) as (s2 & H2 & HP2 & _).
  rewrite Hk in H1. inversion H1; subst s1.
  rewrite Hk' in H2. inversion H2; subst s2.
  rewrite HP1, HP2. apply Forall2_map_same. intros y Hy.
  apply (price_after_zero_rises self logDGrid Hb Hp Hclosed k y Hy).
Qed.

Lemma solve_prices_rise_from_zero_witness :
  Forall2 Rle
    (P_0 (steady_state (1 / 2) default_tol 1))
    (P_0 (steady_state (1 / 2) default_tol 2)).
Proof.
  assert (H1 : iterate 1 (steady_economy (1 / 2)) two_point_grid false
                 (solve_init None [0; 0] default_tol)
               = Ok (steady_state (1 / 2) default_tol 1)).
  { simpl iterate. cbn [bind].
    rewrite solve_body_next_state.
    - rewrite <- (next_state_steady (1 / 2) default_tol 0). reflexivity.
    - apply steady_aligned.
    - apply two_point_grid_increasing.
    - simpl. lia.
    - apply ConstantFunction_defined_on_transitions.
    - reflexivity. }
  apply (solve_prices_rise_from_zero (steady_economy (1 / 2)) two_point_grid
           [0; 0] default_tol false 1
           (steady_state (1 / 2) default_tol 1)
           (steady_state (1 / 2) default_tol 2)).
  - simpl. lra.
  - intros p [<-|[]]. lra.
  - apply steady_aligned.
  - apply two_point_grid_increasing.
  - simpl. lia.
  - apply steady_transition_closed.
  - reflexivity.
  - exact H1.
  - change (iterate 2 (steady_economy (1 / 2)) two_point_grid false
              (solve_init None [0; 0] default_tol))
      with (st1 <- iterate 1 (steady_economy (1 / 2)) two_point_grid false
                     (solve_init None [0; 0] default_tol) ;;
            solve_body (steady_economy (1 / 2)) two_point_grid false st1).
    rewrite H1. cbn [bind].
    rewrite solve_body_next_state.
    + rewrite next_state_steady. reflexivity.
    + apply steady_aligned.
    + apply two_point_grid_increasing.
    + simpl. lia.
    + apply (steady_state_ready (1 / 2) default_tol 1).
    + apply (steady_state_ready (1 / 2) default_tol 1).
Defined.

Lemma expect_le (nodes weights : vector) (h1 h2 : R -> R) :
  (forall p, In p weights -> 0 <= p) ->
  (forall s, In s nodes -> h1 s <= h2 s) ->
  expect nodes weights h1 <= expect nodes weights h2.
Proof.
  intros Hp Hh. unfold expect. apply Rsum_map_le. intros [s p] Hsp. simpl.
  pose proof (Hp p (in_combine_r _ _ _ _ Hsp)).
  pose proof (Hh s (in_combine_l _ _ _ _ Hsp)).
  apply Rmult_le_compat_l; assumption.
Qed.

(** Under log utility, from the zero function, the iterates of the
    pricing equation stay between zero and the closed form on a grid
    closed under the transition. *)
Lemma price_after_zero_below_closed_form (self : LucasEconomy)
      (grid : vector) :
  CRRA self = 1 -> 0 < DiscFac self < 1 ->
  shocks_aligned (DivProc self) -> probabilities (DivProc self) ->
  transition_closed (DivProc self) grid ->
  forall k y, In y grid ->
    0 <= price_after k self (fun _ => 0) y
      <= closed_form_log (DiscFac self) (exp y).
Proof.
  intros Hrho Hb [HX Hpm] [Hnn Hsum] Hclosed.
  set (w := DiscFac self / (1 - DiscFac self)).
  assert (Hw : 0 < w) by (apply Rdiv_lt_0_compat; lra).
  assert (Hlen : length (X (ShkAppDstn (DivProc self)))
                 = length (pmf (ShkAppDstn (DivProc self)))) by congruence.
  induction k as [|k IH]; intros y Hy;
    rewrite closed_form_log_ratio by exact Hb; fold w;
    pose proof (exp_pos y) as Hey.
  - simpl. split; [lra | nra].
  - simpl. rewrite pricing_rhs_log by exact Hrho.
    set (h := fun s =>
                price_after k self (fun _ => 0) (alpha (DivProc self) * y + s)
                / exp (alpha (DivProc self) * y + s) + 1).
    assert (Hlo : 1 <= expect (X (ShkAppDstn (DivProc self)))
                              (pmf (ShkAppDstn (DivProc self))) h).
    { rewrite <- (expect_const _ _ Hlen Hsum 1).
      apply expect_le; [exact Hnn|]. intros s Hs. unfold h.
      destruct (IH _ (Hclosed y s Hy Hs)) as [H0 _].
      pose proof (exp_pos (alpha (DivProc self) * y + s)) as He.
      assert (0 <= price_after k self (fun _ => 0)
                     (alpha (DivProc self) * y + s)
                   / exp (alpha (DivProc self) * y + s))
        by (apply Rmult_le_pos;
            [exact H0 | apply Rlt_le, Rinv_0_lt_compat; exact He]).
      lra. }
    assert (Hhi : expect (X (ShkAppDstn (DivProc self)))
                         (pmf (ShkAppDstn (DivProc self))) h <= w + 1).
    { rewrite <- (expect_const _ _ Hlen Hsum (w + 1)).
      apply expect_le; [exact Hnn|]. intros s Hs. unfold h.
      destruct (IH _ (Hclosed y s Hy Hs)) as [_ H1].
      rewrite closed_form_log_ratio in H1 by exact Hb. fold w in H1.
      pose proof (exp_pos (alpha (DivProc self) * y + s)) as He.
      assert (price_after k self (fun _ => 0) (alpha (DivProc self) * y + s)
              / exp (alpha (DivProc self) * y + s) <= w); [|lra].
      apply Rmult_le_reg_r with (exp (alpha (DivProc self) * y + s));
        [exact He|].
      replace (price_after k self (fun _ => 0) (alpha (DivProc self) * y + s)
               / exp (alpha (DivProc self) * y + s)
               * exp (alpha (DivProc self) * y + s))
        with (price_after k self (fun _ => 0) (alpha (DivProc self) * y + s))
        by (field; lra).
      lra. }
    assert (Hbw : DiscFac self * (w + 1) = w) by (unfold w; field; lra).
    set (Eh := expect (X (ShkAppDstn (DivProc self)))
                      (pmf (ShkAppDstn (DivProc self))) h) in *.
    split; [apply Rmult_le_pos; [lra | nra]|].
    assert (DiscFac self * Eh <= w) by nra.
    nra.
Qed.

(** X20: under log utility, from the zero function [solve] starts from by
    default, the computed prices never overshoot.  On an increasing grid
    of two points or more that the transition maps into itself, with a
    discount factor strictly between 0 and 1 and shock probabilities that
    are non-negative and sum to one, the function [solve] leaves gives at
    every grid point a price between zero and the closed form
    [d / (1/beta - 1)], however many passes were made. *)
Theorem log_utility_prices_below_closed_form
        (self : LucasEconomy) (logDGrid : vector) (tol : R) (maxIter : Z)
        (disp : bool) (st : LoopState) :
  CRRA self = 1 -> 0 < DiscFac self < 1 ->
  shocks_aligned (DivProc self) -> probabilities (DivProc self) ->
  increasing logDGrid -> (2 <= length logDGrid)%nat ->
  transition_closed (DivProc self) logDGrid ->
  solve_loop self None (Some logDGrid) tol maxIter disp = Ok st ->
  forall x, In x logDGrid ->
    exists v,
      call (Pf_0 st) x = Ok v
      /\ 0 <= v <= closed_form_log (DiscFac self) (exp x).
Proof.
  intros Hrho Hb Hal Hprob Hinc Hlen Hclosed Hloop x Hx.
  pose proof (solve_loop_run _ _ _ _ _ _ _ Hloop)
    as (g & P0 & k & Hg & HP & Hk & _).
  simpl in Hg. inversion Hg; subst g.
  destruct (iterate_price_after self None logDGrid P0 tol disp
              Hal Hinc Hlen Hclosed HP k) as (s1 & H1 & _ & Hval & _).
  rewrite Hk in H1. inversion H1; subst s1.
  pose proof (iterate_prices _ _ _ _ _ _ _ _ HP Hk) as Hcall.
  destruct (mapM_In _ _ _ Hcall x Hx) as (v & Hv).
  exists v. split; [exact Hv|].
  rewrite <- (call_value _ _ _ Hv), (Hval x Hx).
  apply (price_after_zero_below_closed_form self logDGrid); assumption.
Qed.

Lemma log_utility_prices_below_closed_form_witness :
  exists v,
    call (Pf_0 (next_state (steady_economy (1 / 2)) two_point_grid false
                  (solve_init None [0; 0] default_tol))) (ln 2) = Ok v
    /\ 0 <= v <= closed_form_log (DiscFac (steady_economy (1 / 2)))
                                 (exp (ln 2)).
Proof.
  apply (log_utility_prices_below_closed_form (steady_economy (1 / 2))
           two_point_grid default_tol 1 false).
  - reflexivity.
  - simpl. lra.
  - apply steady_aligned.
  - apply steady_probabilities.
  - apply two_point_grid_increasing.
  - simpl. lia.
  - apply steady_transition_closed.
  - apply steady_one_pass.
  - right. left. reflexivity.
Defined.

(** *** The default grid, for every number of points and sign of the
    shock's standard deviation *)

Lemma sqrt_stationary_pos (dp : DivProcess) :
  Rabs (alpha dp) < 1 -> 0 < sqrt (1 - alpha dp ^ 2).
Proof.
  intros Hst. apply sqrt_lt_R0. apply stationary_bounds. exact Hst.
Qed.

Lemma symmetric_grid_step (dp : DivProcess) (n i : nat) :
  (S i < n)%nat ->
  nth (S i) (symmetric_grid dp n) 0 - nth i (symmetric_grid dp n) 0
  = 10 * uncond_sd dp / INR (n - 1).
Proof.
  intros Hi. rewrite !symmetric_grid_nth by lia. rewrite S_INR.
  field. apply not_0_INR. lia.
Qed.

(** X21: [getLogdGrid] does not look at the sign of [shock_sd].  With a
    negative standard deviation the grid it returns runs downwards, each
    point below the one before, and with a zero one all its points are the
    unconditional mean; in both cases it is not the increasing grid that
    the interpolation over it takes for granted. *)
Theorem getLogdGrid_order_follows_shock_sd (dp : DivProcess) (n : nat) :
  Rabs (alpha dp) < 1 -> (2 <= n)%nat ->
  exists g,
    getLogdGrid dp n = Ok g
    /\ length g = n
    /\ (shock_sd dp < 0 ->
        forall i, (S i < n)%nat -> nth (S i) g 0 < nth i g 0)
    /\ (shock_sd dp = 0 ->
        forall i, (i < n)%nat -> nth i g 0 = uncond_mean dp)
    /\ (shock_sd dp <= 0 -> ~ increasing g).
Proof.
  intros Hst Hn. exists (symmetric_grid dp n).
  pose proof (sqrt_stationary_pos dp Hst) as Hroot.
  assert (Hpos : 0 < INR (n - 1)) by (apply lt_0_INR; lia).
  assert (Hneg : shock_sd dp < 0 ->
                 forall i, (S i < n)%nat ->
                   nth (S i) (symmetric_grid dp n) 0
                   < nth i (symmetric_grid dp n) 0).
  { intros Hsd i Hi. pose proof (symmetric_grid_step dp n i Hi) as Hstep.
    assert (Hu : uncond_sd dp < 0).
    { unfold uncond_sd, Rdiv.
      pose proof (Rinv_0_lt_compat _ Hroot). nra. }
    assert (10 * uncond_sd dp / INR (n - 1) < 0).
    { unfold Rdiv. pose proof (Rinv_0_lt_compat _ Hpos). nra. }
    lra. }
  assert (Hzero : shock_sd dp = 0 ->
                  forall i, (i < n)%nat ->
                    nth i (symmetric_grid dp n) 0 = uncond_mean dp).
  { intros Hsd i Hi. rewrite symmetric_grid_nth by exact Hi.
    unfold uncond_sd. rewrite Hsd. field.
    split; [lra | apply not_0_INR; lia]. }
  split; [apply getLogdGrid_symmetric_grid; assumption|].
  split; [apply symmetric_grid_length|].
  split; [exact Hneg|]. split; [exact Hzero|].
  intros Hsd Hinc.
  pose proof (increasing_nth _ 0 1 Hinc ltac:(lia)
                ltac:(rewrite symmetric_grid_length; lia)) as H01.
  destruct Hsd as [Hlt|Heq].
  - pose proof (Hneg Hlt O ltac:(lia)). lra.
  - rewrite (Hzero Heq 0%nat), (Hzero Heq 1%nat) in H01 by lia. lra.
Qed.

Lemma getLogdGrid_order_follows_shock_sd_witness :
  (exists g,
      getLogdGrid falling_process 100 = Ok g
      /\ length g = 100%nat
      /\ (forall i, (S i < 100)%nat -> nth (S i) g 0 < nth i g 0)
      /\ ~ increasing g)
  /\ (exists g,
        getLogdGrid riskless_process 100 = Ok g
        /\ length g = 100%nat
        /\ (forall i, (i < 100)%nat -> nth i g 0 = 0)
        /\ ~ increasing g).
Proof.
  split.
  - destruct (getLogdGrid_order_follows_shock_sd falling_process 100)
      as (g & Hg & Hlen & Hneg & _ & Hnot).
    + simpl. apply Rabs_def1; lra.
    + lia.
    + exists g. split; [exact Hg|]. split; [exact Hlen|].
      split; [apply Hneg; simpl; lra | apply Hnot; simpl; lra].
  - destruct (getLogdGrid_order_follows_shock_sd riskless_process 100)
      as (g & Hg & Hlen & _ & Hzero & Hnot).
    + simpl. apply Rabs_def1; lra.
    + lia.
    + exists g. split; [exact Hg|]. split; [exact Hlen|].
      split; [|apply Hnot; simpl; lra].
      intros i Hi. rewrite (Hzero eq_refl i Hi).
      unfold uncond_mean. simpl. lra.
Defined.

(** X22: whatever the number of points, the grid [getLogdGrid] returns for
    a stationary process stays within five unconditional standard
    deviations of the unconditional mean; asked for a single point, it
    returns the lower end of that band and not the mean. *)
Theorem getLogdGrid_within_five_sd (dp : DivProcess) (n : nat) :
  Rabs (alpha dp) < 1 ->
  exists g,
    getLogdGrid dp n = Ok g
    /\ length g = n
    /\ (forall x, In x g ->
          Rabs (x - uncond_mean dp) <= 5 * Rabs (uncond_sd dp))
    /\ (n = 1%nat -> g = [uncond_mean dp - 5 * uncond_sd dp]).
Proof.
  intros Hst. destruct n as [|[|n]].
  - exists []. rewrite getLogdGrid_stationary by exact Hst.
    repeat split; try discriminate. intros x [].
  - exists [uncond_mean dp - 5 * uncond_sd dp].
    rewrite getLogdGrid_stationary by exact Hst.
    cbn [np_linspace map]. repeat split.
    + do 2 f_equal. ring.
    + intros x [<-|[]].
      replace (uncond_mean dp - 5 * uncond_sd dp - uncond_mean dp)
        with (- (5 * uncond_sd dp)) by ring.
      rewrite Rabs_Ropp, Rabs_mult, (Rabs_right 5) by lra. lra.
  - exists (symmetric_grid dp (S (S n))).
    split; [apply getLogdGrid_symmetric_grid; [exact Hst | lia]|].
    split; [apply symmetric_grid_length|]. split; [|discriminate].
    intros x Hx. destruct (In_nth _ _ 0 Hx) as (i & Hi & <-).
    rewrite symmetric_grid_length in Hi.
    rewrite symmetric_grid_nth by exact Hi.
    assert (Hpos : 0 < INR (S (S n) - 1)) by (apply lt_0_INR; lia).
    assert (Hi0 : 0 <= INR i) by apply pos_INR.
    assert (Hi1 : INR i <= INR (S (S n) - 1)) by (apply le_INR; lia).
    set (N := INR (S (S n) - 1)) in *. set (u := uncond_sd dp).
    replace (uncond_mean dp - 5 * u + INR i * (10 * u / N) - uncond_mean dp)
      with (u * (10 * (INR i / N) - 5)) by (field; lra).
    rewrite Rabs_mult, (Rmult_comm 5).
    apply Rmult_le_compat_l; [apply Rabs_pos|].
    assert (Ht0 : 0 <= INR i / N)
      by (apply Rmult_le_pos; [lra | apply Rlt_le, Rinv_0_lt_compat; lra]).
    assert (Ht1 : INR i / N <= 1).
    { apply Rmult_le_reg_r with N; [lra|].
      replace (INR i / N * N) with (INR i) by (field; lra). lra. }
    apply Rabs_le. lra.
Qed.

Lemma getLogdGrid_within_five_sd_witness :
  exists g,
    getLogdGrid ar1_process 1 = Ok g
    /\ length g = 1%nat
    /\ (forall x, In x g ->
          Rabs (x - uncond_mean ar1_process)
          <= 5 * Rabs (uncond_sd ar1_process))
    /\ (1%nat = 1%nat ->
        g = [uncond_mean ar1_process - 5 * uncond_sd ar1_process]).
Proof.
  apply (getLogdGrid_within_five_sd ar1_process 1). apply ar1_stationary.
Defined.

(** *** The saving rate *)

(** X23: in the range the life-cycle model works in, an interest factor
    [1 <= Rfree < 2] and market resources [m >= 0], the income
    [(Rfree - 1) * (m - 1) + 1] that [savRteFunc] divides by is positive:
    for an age [t] that has a solution whose consumption function gives
    [c] at [m], the saving rate is returned, it is one minus consumption
    over income, it is below one exactly when consumption is positive and
    it is negative exactly when consumption exceeds income. *)
Theorem savRteFunc_in_range
        (SomeType : AgentType) (m : R) (t : nat) (sol : ConsumerSolution)
        (c : R) :
  1 <= Rfree SomeType < 2 -> 0 <= m ->
  nth_error (solution SomeType) t = Some sol ->
  call (cFunc sol) m = Ok c ->
  let inc := (Rfree SomeType - 1) * (m - 1) + 1 in
  0 < inc
  /\ savRteFunc SomeType m t = Ok (1 - c / inc)
  /\ (1 - c / inc < 1 <-> 0 < c)
  /\ (1 - c / inc < 0 <-> inc < c).
Proof.
  intros HR Hm Hsol Hc inc.
  assert (Hinc : 0 < inc) by (unfold inc; nra).
  split; [exact Hinc|]. split.
  - unfold savRteFunc, index. rewrite Hsol. simpl. rewrite Hc. simpl.
    fold inc. rewrite np_divide_ok by lra. simpl. f_equal. field. lra.
  - pose proof (Rinv_0_lt_compat _ Hinc) as Hinv.
    assert (Hci : c / inc * inc = c) by (field; lra).
    split; split; intros H.
    + assert (0 < c / inc) by lra. nra.
    + assert (0 < c / inc) by (apply Rdiv_lt_0_compat; assumption). lra.
    + assert (1 < c / inc) by lra. nra.
    + assert (1 < c / inc); [|lra].
      apply Rmult_lt_reg_r with inc; [exact Hinc|]. lra.
Qed.

Lemma savRteFunc_in_range_witness :
  let SomeType := {| Rfree := 103 / 100;
                     solution := [{| cFunc := ConstantFunction (1 / 2) |}] |} in
  let inc := (Rfree SomeType - 1) * (1 - 1) + 1 in
  0 < inc
  /\ savRteFunc SomeType 1 0 = Ok (1 - 1 / 2 / inc)
  /\ (1 - 1 / 2 / inc < 1 <-> 0 < 1 / 2)
  /\ (1 - 1 / 2 / inc < 0 <-> inc < 1 / 2).
Proof.
  intros SomeType.
  apply (savRteFunc_in_range SomeType 1 0
           {| cFunc := ConstantFunction (1 / 2) |} (1 / 2)).
  - simpl. lra.
  - lra.
  - reflexivity.
  - reflexivity.
Defined.

(** X24: where [savRteFunc] fails.  An age beyond the list of solutions
    raises [IndexError].  For an age that has a solution whose consumption
    function gives a number at [m], the only failure left is the division
    by an income of zero, which happens exactly when [Rfree] is not one
    and [m = 1 - 1 / (Rfree - 1)]; everywhere else a saving rate is
    returned. *)
Theorem savRteFunc_fails_at_zero_income
        (SomeType : AgentType) (m : R) (t : nat) (sol : ConsumerSolution)
        (c : R) :
  nth_error (solution SomeType) t = Some sol ->
  call (cFunc sol) m = Ok c ->
  (savRteFunc SomeType m t = Err NotFinite
   <-> Rfree SomeType <> 1 /\ m = 1 - 1 / (Rfree SomeType - 1))
  /\ (savRteFunc SomeType m t <> Err NotFinite ->
      savRteFunc SomeType m t
      = Ok (((Rfree SomeType - 1) * (m - 1) + 1 - c)
            / ((Rfree SomeType - 1) * (m - 1) + 1)))
  /\ (forall t', (length (solution SomeType) <= t')%nat ->
        savRteFunc SomeType m t' = Err IndexError).
Proof.
  intros Hsol Hc.
  assert (Hzero : (Rfree SomeType - 1) * (m - 1) + 1 = 0
                  <-> Rfree SomeType <> 1
                      /\ m = 1 - 1 / (Rfree SomeType - 1)).
  { split.
    - intros H0.
      assert (HR : Rfree SomeType <> 1) by (intros HR; rewrite HR in H0; lra).
      split; [exact HR|].
      apply Rmult_eq_reg_l with (Rfree SomeType - 1); [|lra].
      replace ((Rfree SomeType - 1) * (1 - 1 / (Rfree SomeType - 1)))
        with (Rfree SomeType - 1 - 1) by (field; lra).
      lra.
    - intros [HR ->]. field. lra. }
  assert (Hrun : savRteFunc SomeType m t
                 = (savRte <- np_divide ((Rfree SomeType - 1) * (m - 1) + 1 - c)
                                        ((Rfree SomeType - 1) * (m - 1) + 1) ;;
                    Ok savRte)).
  { unfold savRteFunc, index. rewrite Hsol. simpl. rewrite Hc. reflexivity. }
  split; [|split].
  - rewrite Hrun, <- Hzero. unfold np_divide.
    destruct (Req_dec_T ((Rfree SomeType - 1) * (m - 1) + 1) 0) as [Hz|Hnz];
      simpl; split; intros H; try assumption; try reflexivity;
      [discriminate | contradiction].
  - rewrite Hrun. unfold np_divide.
    destruct (Req_dec_T ((Rfree SomeType - 1) * (m - 1) + 1) 0) as [Hz|Hnz];
      simpl; intros H; [contradiction H; reflexivity | reflexivity].
  - intros t' Ht'. unfold savRteFunc, index.
    rewrite (proj2 (nth_error_None _ _) Ht'). reflexivity.
Qed.

Lemma savRteFunc_fails_at_zero_income_witness :
  let SomeType := {| Rfree := 2;
                     solution := [{| cFunc := ConstantFunction 1 |}] |} in
  (savRteFunc SomeType 0 0 = Err NotFinite
   <-> Rfree SomeType <> 1 /\ 0 = 1 - 1 / (Rfree SomeType - 1))
  /\ (savRteFunc SomeType 0 0 <> Err NotFinite ->
      savRteFunc SomeType 0 0
      = Ok (((Rfree SomeType - 1) * (0 - 1) + 1 - 1)
            / ((Rfree SomeType - 1) * (0 - 1) + 1)))
  /\ (forall t', (length (solution SomeType) <= t')%nat ->
        savRteFunc SomeType 0 t' = Err IndexError).
Proof.
  intros SomeType.
  apply (savRteFunc_fails_at_zero_income SomeType 0 0
           {| cFunc := ConstantFunction 1 |} 1).
  - reflexivity.
  - reflexivity.
Defined.

(** *** The growth of assets in the life-cycle notebook *)

(** X25: the two measures of asset growth in the notebook disagree.  The
    loop's [aLvlGroNow] divides by last period's asset ratio and then
    multiplies by last period's permanent income, so that for positive
    values it is the logarithm of the growth factor of the asset level
    [aLvl = aNrm * pLvl], the quantity [aGro41] computes, plus twice the
    logarithm of last period's permanent income; it is the log growth of
    the asset level exactly when that income is one. *)
Theorem aLvlGroNow_is_off_by_permanent_income
        (aNrm_t pLvl_t aNrm_prev pLvl_prev : R) :
  0 < aNrm_t -> 0 < pLvl_t -> 0 < aNrm_prev -> 0 < pLvl_prev ->
  exists gro,
    aGro41 (aLvl aNrm_t pLvl_t) (aLvl aNrm_prev pLvl_prev) = Ok gro
    /\ 0 < gro
    /\ aLvlGroNow aNrm_t pLvl_t aNrm_prev pLvl_prev
       = Ok (ln gro + 2 * ln pLvl_prev)
    /\ (aLvlGroNow aNrm_t pLvl_t aNrm_prev pLvl_prev = Ok (ln gro)
        <-> pLvl_prev = 1).
Proof.
  intros Ha Hp Ha' Hp'.
  set (gro := aNrm_t * pLvl_t / (aNrm_prev * pLvl_prev)).
  assert (Hgro : 0 < gro).
  { unfold gro. apply Rdiv_lt_0_compat; apply Rmult_lt_0_compat; assumption. }
  assert (Hrun : aLvlGroNow aNrm_t pLvl_t aNrm_prev pLvl_prev
                 = Ok (ln gro + 2 * ln pLvl_prev)).
  { unfold aLvlGroNow. rewrite np_divide_ok by lra. simpl.
    replace (aNrm_t * pLvl_t / aNrm_prev * pLvl_prev)
      with (gro * (pLvl_prev * pLvl_prev)) by (unfold gro; field; lra).
    assert (Hpp : 0 < pLvl_prev * pLvl_prev)
      by (apply Rmult_lt_0_compat; assumption).
    unfold np_log.
    destruct (Rlt_dec 0 (gro * (pLvl_prev * pLvl_prev))) as [_|Hno];
      [|exfalso; apply Hno; apply Rmult_lt_0_compat; assumption].
    rewrite !ln_mult by assumption. f_equal. ring. }
  exists gro. split; [|split; [exact Hgro | split; [exact Hrun|]]].
  - unfold aGro41, aLvl. apply np_divide_ok.
    apply Rgt_not_eq. apply Rmult_lt_0_compat; assumption.
  - rewrite Hrun. split.
    + intros H. inversion H as [H0].
      assert (Hln : ln pLvl_prev = ln 1) by (rewrite ln_1; lra).
      apply ln_inv in Hln; [exact Hln | exact Hp' | lra].
    + intros ->. rewrite ln_1. f_equal. ring.
Qed.

Lemma aLvlGroNow_is_off_by_permanent_income_witness :
  exists gro,
    aGro41 (aLvl 1 2) (aLvl 1 2) = Ok gro
    /\ 0 < gro
    /\ aLvlGroNow 1 2 1 2 = Ok (ln gro + 2 * ln 2)
    /\ (aLvlGroNow 1 2 1 2 = Ok (ln gro) <-> 2 = 1).
Proof.
  apply (aLvlGroNow_is_off_by_permanent_income 1 2 1 2); lra.
Defined.

(** *** Income growth over the working life *)

Lemma Rsum_products (l r : vector) (n : nat) :
  length l = n -> length r = n ->
  Rsum (map (fun ab : R * R => fst ab * snd ab) (combine l r))
  = Rsum (map (fun t => nth t l 0 * nth t r 0) (seq 0 n)).
Proof.
  revert r n. induction l as [|a l IH]; intros [|b r] n Hl Hr;
    simpl in Hl, Hr; subst n; try discriminate; [reflexivity|].
  simpl. unfold Rsum in *. simpl. f_equal.
  rewrite (IH r (length l) eq_refl ltac:(lia)).
  rewrite <- seq_shift, map_map. reflexivity.
Qed.

Lemma np_slice_length {A : Type} (lo hi : nat) (a : list A) :
  (hi <= length a)%nat -> length (np_slice lo hi a) = (hi - lo)%nat.
Proof.
  intros H. unfold np_slice. rewrite length_firstn, length_skipn. lia.
Qed.

Lemma np_slice_nth (lo hi t : nat) (a : vector) :
  (t < hi - lo)%nat -> nth t (np_slice lo hi a) 0 = nth (lo + t) a 0.
Proof.
  intros H. unfold np_slice. rewrite nth_firstn.
  destruct (Nat.ltb_spec t (hi - lo)) as [_|Hno]; [|lia].
  apply nth_skipn.
Qed.

(** The sum of a slice of the income series, period by period. *)
Lemma cumulative_income_sum (pLvl TranShk : vector) (lo hi : nat) :
  (hi <= length pLvl)%nat -> (hi <= length TranShk)%nat ->
  cumulative_income pLvl TranShk lo hi
  = Ok (Rsum (map (fun t => income_at pLvl TranShk (lo + t))
                  (seq 0 (hi - lo)))).
Proof.
  intros Hp Ht. unfold cumulative_income, vec_op.
  rewrite zipM_total2 by (rewrite !np_slice_length by assumption; reflexivity).
  simpl. f_equal.
  rewrite (Rsum_products _ _ (hi - lo))
    by (apply np_slice_length; assumption).
  f_equal. apply map_ext_in. intros t Hin. apply in_seq in Hin.
  unfold income_at. rewrite !np_slice_nth by lia. reflexivity.
Qed.

(** X26: [lifetime_growth] measures a common growth factor exactly.  For
    an agent simulated for forty periods or more whose income
    [pLvl * TranShk] in each of the periods 20 to 39 is [G] times the
    income twenty periods earlier, and whose income over the periods 0 to
    19 does not sum to zero, the ratio of the two cumulative incomes is
    [G]. *)
Theorem lifetime_growth_common_factor (pLvl TranShk : vector) (G : R) :
  (40 <= length pLvl)%nat -> (40 <= length TranShk)%nat ->
  (forall t, (t < 20)%nat ->
     income_at pLvl TranShk (20 + t) = G * income_at pLvl TranShk t) ->
  Rsum (map (income_at pLvl TranShk) (seq 0 20)) <> 0 ->
  lifetime_growth pLvl TranShk = Ok G.
Proof.
  intros Hp Ht Hgrow Hfirst. unfold lifetime_growth.
  rewrite !cumulative_income_sum by lia. cbn [bind].
  change (40 - 20)%nat with 20%nat. change (20 - 0)%nat with 20%nat.
  rewrite (map_ext_in (fun t => income_at pLvl TranShk (20 + t))
             (fun t => G * income_at pLvl TranShk t))
    by (intros t Hin; apply in_seq in Hin; apply Hgrow; lia).
  rewrite Rsum_scale.
  change (fun t => income_at pLvl TranShk (0 + t))
    with (income_at pLvl TranShk).
  rewrite np_divide_ok by exact Hfirst. f_equal. field. exact Hfirst.
Qed.

Lemma lifetime_growth_common_factor_witness :
  lifetime_growth (repeat 1 20 ++ repeat 3 20) (repeat 1 40) = Ok 3.
Proof.
  apply (lifetime_growth_common_factor
           (repeat 1 20 ++ repeat 3 20) (repeat 1 40) 3).
  - simpl. lia.
  - simpl. lia.
  - intros t Ht. unfold income_at.
    do 20 (destruct t as [|t]; [simpl; lra|]). lia.
  - unfold Rsum, income_at. simpl. lra.
Defined.

(** X27: the slices [0:20] and [20:40] never fail, they only come out
    short.  For an agent simulated for twenty periods or fewer the second
    half is empty and sums to zero, so that [lifetime_growth] is zero
    whenever the income of the periods simulated does not sum to zero,
    and is the undefined quotient of zero by zero when it does. *)
Theorem lifetime_growth_short_history (pLvl TranShk : vector) :
  length pLvl = length TranShk -> (length pLvl <= 20)%nat ->
  cumulative_income pLvl TranShk 20 40 = Ok 0
  /\ cumulative_income pLvl TranShk 0 20
     = Ok (Rsum (map (income_at pLvl TranShk) (seq 0 (length pLvl))))
  /\ (Rsum (map (income_at pLvl TranShk) (seq 0 (length pLvl))) <> 0 ->
      lifetime_growth pLvl TranShk = Ok 0)
  /\ (Rsum (map (income_at pLvl TranShk) (seq 0 (length pLvl))) = 0 ->
      lifetime_growth pLvl TranShk = Err NotFinite).
Proof.
  intros Hlen Hshort.
  assert (Hsecond : cumulative_income pLvl TranShk 20 40 = Ok 0).
  { unfold cumulative_income, np_slice.
    rewrite !skipn_all2 by lia. rewrite !firstn_nil. reflexivity. }
  assert (Hfirst : cumulative_income pLvl TranShk 0 20
                   = Ok (Rsum (map (income_at pLvl TranShk)
                                   (seq 0 (length pLvl))))).
  { unfold cumulative_income, np_slice. simpl skipn.
    rewrite !firstn_all2 by lia. unfold vec_op.
    rewrite zipM_total2 by exact Hlen. simpl. f_equal.
    rewrite (Rsum_products _ _ (length pLvl)) by congruence.
    reflexivity. }
  split; [exact Hsecond|]. split; [exact Hfirst|].
  unfold lifetime_growth. rewrite Hfirst, Hsecond. cbn [bind].
  split; intros H.
  - rewrite np_divide_ok by exact H. f_equal. field. exact H.
  - unfold np_divide. rewrite H.
    destruct (Req_dec_T 0 0) as [_|Hno]; [reflexivity | contradiction].
Qed.

Lemma lifetime_growth_short_history_witness :
  cumulative_income [1; 2] [1; 1] 20 40 = Ok 0
  /\ cumulative_income [1; 2] [1; 1] 0 20
     = Ok (Rsum (map (income_at [1; 2] [1; 1]) (seq 0 (length [1; 2]))))
  /\ (Rsum (map (income_at [1; 2] [1; 1]) (seq 0 (length [1; 2]))) <> 0 ->
      lifetime_growth [1; 2] [1; 1] = Ok 0)
  /\ (Rsum (map (income_at [1; 2] [1; 1]) (seq 0 (length [1; 2]))) = 0 ->
      lifetime_growth [1; 2] [1; 1] = Err NotFinite).
Proof.
  apply (lifetime_growth_short_history [1; 2] [1; 1]).
  - reflexivity.
  - simpl. lia.
Defined.
